(** * Influence maps of [influence.py]

    A shallow embedding of the influence engine of [src/influence.py]
    ([manhattan], [colour_from_percentages], [compute_influence]) and the
    properties its specification states about it.

    Python integers are modelled by [Z].  A Python [float] is an IEEE 754
    binary64 number: it is modelled by [spec_float] with the operations of
    the standard library's [SpecFloat] at precision 53 and maximal exponent
    1024, so every rounding of the source is kept.  Python exceptions are
    modelled by [None] in the option monad.  The dictionary returned by
    [compute_influence] is a [gmap] keyed by points. *)

From Stdlib Require Import ZArith QArith Qpower Qabs Lia Lqa.
From Stdlib Require Import Floats.SpecFloat.
From Stdlib Require Import Ascii DecimalString DecimalN.
From stdpp Require Import gmap strings.

Local Open Scope Z_scope.

(** ** Python floats *)

Module F64.

Definition prec : Z := 53.
Definition emax : Z := 1024.

Abbreviation float := spec_float.

(** [x * y] and [x / y] on floats, rounded to nearest, ties to even. *)
Definition mul : float → float → float := SFmul prec emax.
Definition div : float → float → float := SFdiv prec emax.

(** Conversion of a Python [int] operand to [float]: the nearest binary64
    number; [OverflowError] when the rounded value is out of range. *)
Definition of_int (n : Z) : option float :=
  match binary_normalize prec emax n 0 false with
  | S754_infinity _ => None
  | f => Some f
  end.

Definition is_zero (x : float) : bool :=
  match x with S754_zero _ => true | _ => false end.

Definition is_finite (x : float) : bool :=
  match x with S754_zero _ | S754_finite _ _ _ => true | _ => false end.

(** [x / n] with [x] a float and [n] an int: [n] is converted first, and
    a zero divisor raises [ZeroDivisionError]. *)
Definition truediv_int (x : float) (n : Z) : option float :=
  y ← of_int n;
  if is_zero y then None else Some (div x y).

(** Quotient and position of [m / 2^k] for rounding half to even. *)
Definition round_half_even_shift (m : Z) (k : Z) : Z :=
  let q := m / 2 ^ k in
  let r := m mod 2 ^ k in
  match 2 * r ?= 2 ^ k with
  | Lt => q
  | Gt => q + 1
  | Eq => if Z.even q then q else q + 1
  end.

(** The builtin [round(x)] with one argument: the nearest integer, ties
    to even; [ValueError] on a NaN and [OverflowError] on an infinity. *)
Definition round (x : float) : option Z :=
  match x with
  | S754_zero _ => Some 0
  | S754_finite s m e =>
      let a := if 0 <=? e then Z.pos m * 2 ^ e
               else round_half_even_shift (Z.pos m) (- e) in
      Some (if s then - a else a)
  | S754_infinity _ => None
  | S754_nan => None
  end.

(** [x <= y] on floats. *)
Definition leb : float → float → bool := SFleb.

(** The representations that are binary64 numbers. *)
Definition valid (x : float) : bool := valid_binary prec emax x.

(** The rational number a finite float stands for. *)
Definition to_Q (x : float) : Q :=
  match x with
  | S754_finite s m e =>
      ((if s then -1 else 1) * inject_Z (Z.pos m) * 2 ^ e)%Q
  | _ => 0%Q
  end.

(** The literals of the source. *)
Definition lit_0_0 : float := S754_zero false.
Definition lit_1_0 : float := S754_finite false 4503599627370496 (-52).
Definition lit_100_0 : float := S754_finite false 7036874417766400 (-46).
Definition lit_2_55 : float := S754_finite false 5742089524897382 (-51).

End F64.

Abbreviation float := spec_float.

(** ** The source functions *)

Definition point : Type := Z * Z.
Definition rgb : Type := Z * Z * Z.

(** [manhattan(p1, p2)] *)
Definition manhattan (p1 p2 : point) : Z :=
  Z.abs (p1.1 - p2.1) + Z.abs (p1.2 - p2.2).

(** [colour_from_percentages(black_pct, white_pct)] *)
Definition colour_from_percentages (black_pct white_pct : float) : option rgb :=
  red ← F64.round (F64.mul white_pct F64.lit_2_55);
  green ← F64.round (F64.mul black_pct F64.lit_2_55);
  let blue := 0 in
  let red := Z.max 0 (Z.min 255 red) in
  let green := Z.max 0 (Z.min 255 green) in
  Some (red, green, blue).

(** The board is used through [board.list_occupied_points()] only. *)
Record Board : Type := { list_occupied_points : list (string * point) }.

(** [[pt for colour, pt in occupied if colour == c]] *)
Definition stones_of (c : string) (occupied : list (string * point)) : list point :=
  snd <$> List.filter (λ cp, String.eqb cp.1 c) occupied.

(** The builtin [min] over a sequence of ints ([ValueError] when empty). *)
Definition py_min (l : list Z) : option Z :=
  match l with
  | [] => None
  | x :: l' => Some (fold_left Z.min l' x)
  end.

(** The percentage block of the loop body, written twice in the source
    (once for the black stones, once for the white ones):
[[
    if stones:
        d = min(manhattan(pt, s) for s in stones)
        pct = 1.0 / (d + 1) * 100.0
    else:
        pct = 0.0
]] *)
Definition stone_pct (stones : list point) (pt : point) : option float :=
  match stones with
  | [] => Some F64.lit_0_0
  | _ :: _ =>
      d ← py_min (manhattan pt <$> stones);
      r ← F64.truediv_int F64.lit_1_0 (d + 1);
      Some (F64.mul r F64.lit_100_0)
  end.

Definition entry : Type := float * float * rgb.

(** The body of the inner loop, up to the dictionary update. *)
Definition point_influence (black_stones white_stones : list point)
    (pt : point) : option entry :=
  black_pct ← stone_pct black_stones pt;
  white_pct ← stone_pct white_stones pt;
  rgb ← colour_from_percentages black_pct white_pct;
  Some (black_pct, white_pct, rgb).

(** A [for] loop over a list whose body may raise. *)
Fixpoint for_each {A S : Type} (l : list A) (body : A → S → option S)
    (s : S) : option S :=
  match l with
  | [] => Some s
  | x :: l' => s' ← body x s; for_each l' body s'
  end.

(** [range(n)] *)
Definition range (n : Z) : list Z := seqZ 0 n.

(** [compute_influence(board, size)] *)
Definition compute_influence (board : Board) (size : Z)
    : option (gmap point entry) :=
  let occupied := list_occupied_points board in
  let black_stones := stones_of "b" occupied in
  let white_stones := stones_of "w" occupied in
  for_each (range size) (λ row influence,
    for_each (range size) (λ col influence,
      let pt := (col, row) in
      e ← point_influence black_stones white_stones pt;
      Some (<[pt := e]> influence)) influence) ∅.

(** ** The notions of the specification *)

(** [2^e] as a rational, for any integer exponent. *)
Definition pow2 (e : Z) : Q := (2 ^ e)%Q.
Global Arguments pow2 : simpl never.

(** [d] is the Manhattan distance from [pt] to the nearest stone of colour
    [c] on the board. *)
Definition nearest_dist (occupied : list (string * point)) (c : string)
    (pt : point) (d : Z) : Prop :=
  (∃ s, (c, s) ∈ occupied ∧ manhattan pt s = d) ∧
  (∀ s, (c, s) ∈ occupied → d <= manhattan pt s).

(** A percentage: a binary64 number whose value is in [[0, 100]]. *)
Definition percentage (p : float) : Prop :=
  F64.valid p = true ∧ F64.is_finite p = true ∧
  (0 <= F64.to_Q p ∧ F64.to_Q p <= 100)%Q.

(** Every stone of the board is on the [size] by [size] grid. *)
Definition on_board (size : Z) (board : Board) : Prop :=
  ∀ c s, (c, s) ∈ list_occupied_points board →
         0 <= s.1 < size ∧ 0 <= s.2 < size.

(** The largest integer below which every conversion to [float] succeeds:
    the largest finite binary64 number, [sys.float_info.max]. *)
Definition float_max_int : Z := 2 ^ 1024 - 2 ^ 971.

(** [clamp(x, lo, hi)] *)
Definition clamp (x lo hi : Z) : Z :=
  if x <? lo then lo else if hi <? x then hi else x.

(** [blend(pctA, pctB)] as the specification writes it. *)
Definition blend (pctA pctB : float) : option rgb :=
  red ← F64.round (F64.mul pctB F64.lit_2_55);
  green ← F64.round (F64.mul pctA F64.lit_2_55);
  Some (clamp red 0 255, clamp green 0 255, 0).

(** The percentage as the specification writes it: [100 / (dA + 1)], one
    division. *)
Definition spec_pct (stones : list point) (pt : point) : option float :=
  match stones with
  | [] => Some F64.lit_0_0
  | _ :: _ =>
      d ← py_min (manhattan pt <$> stones);
      F64.truediv_int F64.lit_100_0 (d + 1)
  end.

(** The rule of the source for the percentage [p] of colour [c] at [pt]:
    [0.0] without a stone of the colour, and otherwise the product
    [(1.0 / (d + 1)) * 100.0] of binary64 arithmetic, with [d] the distance
    to the nearest stone of the colour; for the distances below [2^53] the
    product is [100 / (d + 1)] up to the fraction [2^-51] of it. *)
Definition pct_rule (occupied : list (string * point)) (c : string)
    (pt : point) (p : float) : Prop :=
  ((∀ s, (c, s) ∉ occupied) ∧ p = F64.lit_0_0) ∨
  (∃ d X, nearest_dist occupied c pt d ∧ F64.of_int (d + 1) = Some X ∧
          p = F64.mul (F64.div F64.lit_1_0 X) F64.lit_100_0 ∧
          (d + 1 < 2 ^ 53 →
           (100 / inject_Z (d + 1) * (1 - pow2 (-51)) <= F64.to_Q p ∧
            F64.to_Q p <= 100 / inject_Z (d + 1) * (1 + pow2 (-51)))%Q)).

(** The exchange of the two colours. *)
Definition swap_colour (c : string) : string :=
  if String.eqb c "b" then "w" else if String.eqb c "w" then "b" else c.

Definition swap_board (board : Board) : Board :=
  {| list_occupied_points :=
       (λ cp, (swap_colour cp.1, cp.2)) <$> list_occupied_points board |}.

Definition swap_entry (e : entry) : entry :=
  let '(pa, pb, (r, g, b)) := e in (pb, pa, (g, r, b)).

(** The board of the specification's scenario: one black stone at (0,0). *)
Definition corner_board : Board :=
  {| list_occupied_points := [("b"%string, (0, 0))] |}.

(** The floats [1.0 / 2 * 100.0], [1.0 / 3 * 100.0], [1.0 / 5 * 100.0] and
    [1.0 / 34 * 100.0]: 50.0, 33.33333333333333, 20.0 and
    2.9411764705882355. *)
Definition f_50 : float := S754_finite false 7036874417766400 (-47).
Definition f_33 : float := S754_finite false 4691249611844266 (-47).
Definition f_20 : float := S754_finite false 5629499534213120 (-48).
Definition f_34th : float := S754_finite false 6622940628486023 (-51).

(** What [compute_influence] returns for [corner_board] and size 2. *)
Definition corner_map_2 : gmap point entry :=
  list_to_map
    [((0, 0), (F64.lit_100_0, F64.lit_0_0, (0, 255, 0)));
     ((1, 0), (f_50, F64.lit_0_0, (0, 127, 0)));
     ((0, 1), (f_50, F64.lit_0_0, (0, 127, 0)));
     ((1, 1), (f_33, F64.lit_0_0, (0, 85, 0)))].

(** The same with a second black stone at (1,1). *)
Definition diagonal_map_2 : gmap point entry :=
  list_to_map
    [((0, 0), (F64.lit_100_0, F64.lit_0_0, (0, 255, 0)));
     ((1, 0), (f_50, F64.lit_0_0, (0, 127, 0)));
     ((0, 1), (f_50, F64.lit_0_0, (0, 127, 0)));
     ((1, 1), (F64.lit_100_0, F64.lit_0_0, (0, 255, 0)))].

(** ** Proof-level notions: exact values and nearest-even rounding *)

(** The place of the rational [t] between the integers [m] and [m + 1]
    that a location of [SpecFloat] stands for. *)
Definition located (t : Q) (m : Z) (l : location) : Prop :=
  match l with
  | loc_Exact => (t == inject_Z m)%Q
  | loc_Inexact Lt => (inject_Z m < t ∧ t < inject_Z m + (1 # 2))%Q
  | loc_Inexact Eq => (t == inject_Z m + (1 # 2))%Q
  | loc_Inexact Gt => (inject_Z m + (1 # 2) < t ∧ t < inject_Z m + 1)%Q
  end.

(** [M] is an integer nearest to [t], the even one on a tie. *)
Definition nearest_even (t : Q) (M : Z) : Prop :=
  (inject_Z M - (1 # 2) <= t ∧ t <= inject_Z M + (1 # 2))%Q ∧
  ((t == inject_Z M - (1 # 2) ∨ t == inject_Z M + (1 # 2))%Q → Z.even M = true).

(** The exponent of the binary64 format for a number of magnitude [k]. *)
Definition fexp64 (k : Z) : Z := Z.max (k - 53) (-1074).

(** [f] is the binary64 number nearest to the positive rational [x]
    (ties to even), or the infinity the rounding overflows to. *)
Definition rounds_to (x : Q) (f : float) : Prop :=
  ∃ k M : Z,
    (pow2 (k - 1) <= x ∧ x < pow2 k)%Q ∧
    nearest_even (x / pow2 (fexp64 k)) M ∧
    match f with
    | S754_zero s => s = false ∧ M = 0
    | S754_finite s m e =>
        s = false ∧ e <= 971 ∧ Z.pos (digits2_pos m) <= 53 ∧
        fexp64 (Z.pos (digits2_pos m) + e) = e ∧
        (inject_Z (Z.pos m) * pow2 e == inject_Z M * pow2 (fexp64 k))%Q
    | S754_infinity s =>
        s = false ∧ (pow2 1024 <= inject_Z M * pow2 (fexp64 k))%Q
    | S754_nan => False
    end.

(** The last step of [binary_round_aux]: renormalisation of the rounded
    mantissa and the range check. *)
Definition finish (M E : Z) : float :=
  let '(mrs, e) := shr_fexp F64.prec F64.emax M E loc_Exact in
  match shr_m mrs with
  | Z0 => S754_zero false
  | Z.pos m =>
      if e <=? F64.emax - F64.prec then S754_finite false m e
      else S754_infinity false
  | Z.neg _ => S754_nan
  end.

(** A float that is a zero or a positive binary64 number in canonical form. *)
Definition nonneg_float (f : float) : Prop :=
  match f with
  | S754_zero _ => True
  | S754_finite false m e => fexp64 (Z.pos (digits2_pos m) + e) = e
  | _ => False
  end.

(** [1.0 / (d + 1) * 100.0] *)
Definition pct_of_dist (d : Z) : option float :=
  r ← F64.truediv_int F64.lit_1_0 (d + 1);
  Some (F64.mul r F64.lit_100_0).

(** The points of the board in the order the loops visit them. *)
Definition grid (size : Z) : list point :=
  row ← range size; (λ col, (col, row)) <$> range size.

(** The update of the dictionary at one point. *)
Definition store_point (f : point → option entry) (pt : point)
    (influence : gmap point entry) : option (gmap point entry) :=
  e ← f pt; Some (<[pt := e]> influence).

(** ** Notions for the further properties *)

(** The exchange of the two coordinates of a point, and the board with
    every stone moved to the exchanged point. *)
Definition transpose (p : point) : point := (p.2, p.1).

Definition transpose_board (board : Board) : Board :=
  {| list_occupied_points :=
       (λ cp, (cp.1, transpose cp.2)) <$> list_occupied_points board |}.

(** ** Rendering *)

(** A Python dictionary as the list of its items in insertion order:
    [d[k] = v] replaces the value of a key that is present, in place, and
    appends the item otherwise. *)
Fixpoint dict_set {V : Type} (d : list (point * V)) (k : point) (v : V)
    : list (point * V) :=
  match d with
  | [] => [(k, v)]
  | (k', v') :: d' =>
      if decide (k' = k) then (k', v) :: d' else (k', v') :: dict_set d' k v
  end.

(** [compute_influence(board, size)] again, with the dictionary it builds
    kept in insertion order, for the loop of [overlay_influence] over
    [influence.items()]. *)
Definition compute_influence_items (board : Board) (size : Z)
    : option (list (point * entry)) :=
  let occupied := list_occupied_points board in
  let black_stones := stones_of "b" occupied in
  let white_stones := stones_of "w" occupied in
  for_each (range size) (λ row influence,
    for_each (range size) (λ col influence,
      let pt := (col, row) in
      e ← point_influence black_stones white_stones pt;
      Some (dict_set influence pt e)) influence) [].

(** Pillow is used through [Image.new] and the [line], [ellipse] and
    [rectangle] methods of [ImageDraw].  An image is modelled by what the
    program determines of it: the arguments of [Image.new] and the drawing
    calls made on it, in the order they are made.  The boxes are the
    [(x0, y0, x1, y1)] tuples of the calls.  What Pillow does with a call
    (the pixels it sets, the arguments it rejects) is outside the model. *)
Definition box : Type := Z * Z * Z * Z.
Definition rgba : Type := Z * Z * Z * Z.

Inductive draw_call : Type :=
  | line (xy : box) (fill : rgb) (width : Z)
  | ellipse (xy : box) (fill : rgb) (outline : option rgb)
  | rectangle (xy : box) (fill : rgba).

Record Image : Type := {
  im_mode : string;
  im_size : Z * Z;
  im_color : rgba;
  im_calls : list draw_call
}.

(** One drawing call on an image. *)
Definition draw (call : draw_call) (img : Image) : Image :=
  {| im_mode := im_mode img; im_size := im_size img; im_color := im_color img;
     im_calls := im_calls img ++ [call] |}.

(** [draw_board(size, cell_sz, margin)] *)
Definition draw_board (size cell_sz margin : Z) : Image :=
  let img_sz := size * cell_sz + 2 * margin in
  {| im_mode := "RGBA"; im_size := (img_sz, img_sz); im_color := (0, 0, 0, 255);
     im_calls := [] |}.

(** The table of the star points, [{...}.get(size, [])]. *)
Definition star_coords (size : Z) : list point :=
  match size with
  | 9 => [(4, 4); (4, 8); (8, 4); (8, 8)]
  | 13 => [(3, 3); (3, 9); (9, 3); (9, 9); (6, 6)]
  | 19 => [(3, 3); (3, 9); (3, 15);
           (9, 3); (9, 9); (9, 15);
           (15, 3); (15, 9); (15, 15)]
  | _ => []
  end.

(** [draw_grid(img, size, cell_sz, margin)]; the image it modifies in
    place is returned. *)
Definition draw_grid (img : Image) (size cell_sz margin : Z) : Image :=
  let img :=
    foldl (λ img i,
      let x0 := margin + i * cell_sz in
      let y0 := margin in
      let x1 := x0 in
      let y1 := margin + (size - 1) * cell_sz in
      let img := draw (line (x0, y0, x1, y1) (255, 255, 255) 1) img in
      let x0 := margin in
      let y0 := margin + i * cell_sz in
      let x1 := margin + (size - 1) * cell_sz in
      let y1 := y0 in
      draw (line (x0, y0, x1, y1) (255, 255, 255) 1) img) img (range size) in
  let radius := cell_sz / 6 in
  foldl (λ img '(c, r),
    let cx := margin + c * cell_sz in
    let cy := margin + r * cell_sz in
    draw (ellipse (cx - radius, cy - radius, cx + radius, cy + radius)
            (255, 255, 255) None) img) img (star_coords size).

(** [overlay_influence(img, influence, size, cell_sz, margin, alpha)], with
    [influence] given by its items; [alpha] is always passed here ([main]
    passes 255, the default of the source is 128). *)
Definition overlay_influence (img : Image) (influence : list (point * entry))
    (size cell_sz margin alpha : Z) : Image :=
  foldl (λ img '((col, row), (_, _, (r, g, b))),
    let x0 := margin + col * cell_sz - cell_sz / 2 in
    let y0 := margin + row * cell_sz - cell_sz / 2 in
    let x1 := x0 + cell_sz in
    let y1 := y0 + cell_sz in
    draw (rectangle (x0, y0, x1, y1) (r, g, b, alpha)) img) img influence.

(** [draw_stones(img, board, size, cell_sz, margin)] *)
Definition draw_stones (img : Image) (board : Board)
    (size cell_sz margin : Z) : Image :=
  let stone_radius := cell_sz / 2 - 2 in
  let occupied := list_occupied_points board in
  let img :=
    foldl (λ img '(col, row),
      let cx := margin + col * cell_sz in
      let cy := margin + row * cell_sz in
      draw (ellipse (cx - stone_radius, cy - stone_radius,
                     cx + stone_radius, cy + stone_radius)
              (0, 0, 0) (Some (0, 0, 0))) img) img (stones_of "b" occupied) in
  foldl (λ img '(col, row),
    let cx := margin + col * cell_sz in
    let cy := margin + row * cell_sz in
    draw (ellipse (cx - stone_radius, cy - stone_radius,
                   cx + stone_radius, cy + stone_radius)
            (255, 255, 255) (Some (0, 0, 0))) img) img (stones_of "w" occupied).

(** The frame of one board state: the steps of the loop body of [main]
    from [compute_influence] to the image that is saved, with
    [MARGIN = CELL]. *)
Definition render_frame (board : Board) (board_size CELL : Z) : option Image :=
  let MARGIN := CELL in
  influence ← compute_influence_items board board_size;
  let img := draw_board board_size CELL MARGIN in
  let img := overlay_influence img influence board_size CELL MARGIN 255 in
  let img := draw_grid img board_size CELL MARGIN in
  let img := draw_stones img board board_size CELL MARGIN in
  Some img.

(** ** Notions for the rendering properties *)

(** The pixel [(x, y)] is within the box, borders included. *)
Definition inside (x y : Z) (xy : box) : Prop :=
  let '(x0, y0, x1, y1) := xy in x0 <= x <= x1 ∧ y0 <= y <= y1.

(** The box is well formed and within an image of the given size. *)
Definition box_in_image (wh : Z * Z) (xy : box) : Prop :=
  let '(x0, y0, x1, y1) := xy in
  0 <= x0 ∧ x0 <= x1 ∧ x1 < wh.1 ∧ 0 <= y0 ∧ y0 <= y1 ∧ y1 < wh.2.

Definition call_box (call : draw_call) : box :=
  match call with
  | line xy _ _ => xy
  | ellipse xy _ _ => xy
  | rectangle xy _ => xy
  end.


(** Two boxes without a common pixel. *)
Definition disjoint_boxes (a b : box) : Prop :=
  let '(ax0, ay0, ax1, ay1) := a in
  let '(bx0, by0, bx1, by1) := b in
  ax1 < bx0 ∨ bx1 < ax0 ∨ ay1 < by0 ∨ by1 < ay0.

(** The square [overlay_influence] paints at a point, and the bounding
    boxes of a stone and of a star point there. *)
Definition tile (cell_sz margin : Z) (pt : point) : box :=
  (margin + pt.1 * cell_sz - cell_sz / 2, margin + pt.2 * cell_sz - cell_sz / 2,
   margin + pt.1 * cell_sz - cell_sz / 2 + cell_sz,
   margin + pt.2 * cell_sz - cell_sz / 2 + cell_sz).

Definition stone_box (cell_sz margin : Z) (pt : point) : box :=
  (margin + pt.1 * cell_sz - (cell_sz / 2 - 2),
   margin + pt.2 * cell_sz - (cell_sz / 2 - 2),
   margin + pt.1 * cell_sz + (cell_sz / 2 - 2),
   margin + pt.2 * cell_sz + (cell_sz / 2 - 2)).

Definition star_box (cell_sz margin : Z) (pt : point) : box :=
  (margin + pt.1 * cell_sz - cell_sz / 6, margin + pt.2 * cell_sz - cell_sz / 6,
   margin + pt.1 * cell_sz + cell_sz / 6, margin + pt.2 * cell_sz + cell_sz / 6).

(** The calls of the three drawing functions, one per item. *)
Definition tile_call (cell_sz margin alpha : Z) (item : point * entry) : draw_call :=
  let '(pt, (_, _, (r, g, b))) := item in
  rectangle (tile cell_sz margin pt) (r, g, b, alpha).

Definition grid_lines (size cell_sz margin : Z) : list draw_call :=
  i ← range size;
  [line (margin + i * cell_sz, margin, margin + i * cell_sz,
         margin + (size - 1) * cell_sz) (255, 255, 255) 1;
   line (margin, margin + i * cell_sz, margin + (size - 1) * cell_sz,
         margin + i * cell_sz) (255, 255, 255) 1].

Definition star_call (cell_sz margin : Z) (pt : point) : draw_call :=
  ellipse (star_box cell_sz margin pt) (255, 255, 255) None.

Definition stone_call (cell_sz margin : Z) (fill : rgb) (pt : point) : draw_call :=
  ellipse (stone_box cell_sz margin pt) fill (Some (0, 0, 0)).

(** The items of the dictionary for [corner_board] and size 2, in the order
    of insertion. *)
Definition corner_items_2 : list (point * entry) :=
  [((0, 0), (F64.lit_100_0, F64.lit_0_0, (0, 255, 0)));
   ((1, 0), (f_50, F64.lit_0_0, (0, 127, 0)));
   ((0, 1), (f_50, F64.lit_0_0, (0, 127, 0)));
   ((1, 1), (f_33, F64.lit_0_0, (0, 85, 0)))].

(** ** Frame names *)

(** [str(n)] for an [int] that is not negative: its decimal digits. *)
Definition str_nonneg (n : Z) : string :=
  NilZero.string_of_uint (N.to_uint (Z.to_N n)).

Fixpoint zeros (k : nat) : string :=
  match k with
  | O => EmptyString
  | S k' => String "0"%char (zeros k')
  end.

(** [format(n, "04d")]: the digits of [n], filled with zeros between the
    sign and the digits up to the width 4. *)
Definition format_04d (n : Z) : string :=
  let body := str_nonneg (Z.abs n) in
  if n <? 0 then String "-"%char (zeros (3 - String.length body) +:+ body)
  else zeros (4 - String.length body) +:+ body.

(** The name of the file of a frame, [f"{idx:04d}.png"]. *)
Definition frame_name (idx : Z) : string := format_04d idx +:+ ".png".

(** The number a string of decimal digits stands for. *)
Definition int_of_digits (s : string) : option Z :=
  (λ d, Z.of_N (N.of_uint d)) <$> NilZero.uint_of_string s.

(** The mirror image of a point and of a board of side [size], left to
    right. *)
Definition mirror (size : Z) (p : point) : point := (size - 1 - p.1, p.2).

Definition mirror_board (size : Z) (board : Board) : Board :=
  {| list_occupied_points :=
       (λ cp, (cp.1, mirror size cp.2)) <$> list_occupied_points board |}.

(** A board with a black stone at (0,0) and a white stone at (1,1). *)
Definition two_stone_board : Board :=
  {| list_occupied_points := [("b"%string, (0, 0)); ("w"%string, (1, 1))] |}.

(** * Theory of the binary64 operations *)

Section Pow2.

Lemma pow2_pos e : (0 < pow2 e)%Q.
Proof. apply Qpower_0_lt. reflexivity. Qed.

Lemma pow2_add a b : (pow2 (a + b) == pow2 a * pow2 b)%Q.
Proof. apply Qpower_plus. discriminate. Qed.

Lemma pow2_succ e : (pow2 (e + 1) == 2 * pow2 e)%Q.
Proof. rewrite pow2_add. unfold pow2 at 2. simpl. ring. Qed.

Lemma pow2_pred e : (pow2 e == 2 * pow2 (e - 1))%Q.
Proof. rewrite <- pow2_succ. replace (e - 1 + 1) with e by lia. reflexivity. Qed.

Lemma pow2_le a b : a <= b → (pow2 a <= pow2 b)%Q.
Proof. intros H. apply Qpower_le_compat_l; [exact H | discriminate]. Qed.

Lemma pow2_lt a b : a < b → (pow2 a < pow2 b)%Q.
Proof. intros H. apply Qpower_lt_compat_l; [exact H | reflexivity]. Qed.

Lemma pow2_lt_inv a b : (pow2 a < pow2 b)%Q → a < b.
Proof.
  intros H. destruct (Z_lt_le_dec a b) as [|Hle]; [assumption|].
  apply pow2_le in Hle. lra.
Qed.

Lemma pow2_inject n : 0 <= n → (pow2 n == inject_Z (2 ^ n))%Q.
Proof. intros H. unfold pow2. rewrite Zpower_Qpower by exact H. reflexivity. Qed.

Lemma pow2_0 : (pow2 0 == 1)%Q.
Proof. reflexivity. Qed.

Lemma pow2_sub a b : (pow2 (a - b) == pow2 a / pow2 b)%Q.
Proof.
  assert (Hb := pow2_pos b).
  assert (H : (pow2 a == pow2 (a - b) * pow2 b)%Q).
  { rewrite <- pow2_add. replace (a - b + b) with a by lia. reflexivity. }
  rewrite H. field. lra.
Qed.

End Pow2.

Section NearestEven.

Lemma located_ext t t' m l : (t == t')%Q → located t m l → located t' m l.
Proof.
  intros E. destruct l as [|[]]; simpl; intros H; try lra.
Qed.

Lemma located_bounds t m l :
  located t m l → (inject_Z m <= t ∧ t < inject_Z m + 1)%Q.
Proof. destruct l as [|[]]; simpl; intros H; lra. Qed.

Lemma inject_Z_succ m : (inject_Z (m + 1) == inject_Z m + 1)%Q.
Proof. rewrite inject_Z_plus. reflexivity. Qed.

Lemma inject_Z_double m : (inject_Z (2 * m) == 2 * inject_Z m)%Q.
Proof. rewrite inject_Z_mult. reflexivity. Qed.

Lemma round_nearest_even_spec t m l :
  located t m l → nearest_even t (round_nearest_even m l).
Proof.
  intros H. destruct l as [|[]]; simpl in *.
  - split; [lra|]. intros [E|E]; lra.
  - destruct (Z.even m) eqn:Hm.
    + split; [lra|]. intros _. exact Hm.
    + pose proof (inject_Z_succ m) as Hs. split; [lra|]. intros _.
      replace (m + 1) with (Z.succ m) by lia.
      rewrite Z.even_succ, <- Z.negb_even, Hm. reflexivity.
  - split; [lra|]. intros [E|E]; lra.
  - pose proof (inject_Z_succ m) as Hs. split; [lra|]. intros [E|E]; lra.
Qed.

Lemma round_nearest_even_range m l :
  m <= round_nearest_even m l <= m + 1.
Proof. destruct l as [|[]]; simpl; try lia. destruct (Z.even m); lia. Qed.

Lemma nearest_even_mono t t' M M' :
  nearest_even t M → nearest_even t' M' → (t <= t')%Q → M <= M'.
Proof.
  intros [[H1 H2] He] [[H1' H2'] He'] Hle.
  destruct (Z_le_gt_dec M M') as [|Hgt]; [assumption|exfalso].
  assert (HM : (inject_Z M' + 1 <= inject_Z M)%Q).
  { rewrite <- inject_Z_succ, <- Zle_Qle. lia. }
  assert (E1 : Z.even M = true) by (apply He; left; lra).
  assert (E2 : Z.even M' = true) by (apply He'; right; lra).
  assert (HZ : M = M' + 1).
  { assert (HQ : (inject_Z M <= inject_Z (M' + 1))%Q)
      by (rewrite inject_Z_succ; lra).
    rewrite <- Zle_Qle in HQ. lia. }
  subst M. replace (M' + 1) with (Z.succ M') in E1 by lia.
  rewrite Z.even_succ, <- Z.negb_even, E2 in E1. discriminate.
Qed.

Lemma nearest_even_Z K : nearest_even (inject_Z K) K.
Proof. split; [lra|]. intros [E|E]; lra. Qed.

Lemma nearest_even_le_Z t M K :
  nearest_even t M → (t <= inject_Z K)%Q → M <= K.
Proof. intros H Hle. exact (nearest_even_mono _ _ _ _ H (nearest_even_Z K) Hle). Qed.

Lemma nearest_even_ge_Z t M K :
  nearest_even t M → (inject_Z K <= t)%Q → K <= M.
Proof. intros H Hle. exact (nearest_even_mono _ _ _ _ (nearest_even_Z K) H Hle). Qed.

Lemma nearest_even_ext t t' M : (t == t')%Q → nearest_even t M → nearest_even t' M.
Proof.
  intros E [[H1 H2] He]. split; [lra|]. intros [H|H]; apply He; [left|right]; lra.
Qed.

End NearestEven.

Section Shifts.

Lemma loc_of_shr_record_of_loc m l :
  loc_of_shr_record (shr_record_of_loc m l) = l.
Proof. destruct l as [|[]]; reflexivity. Qed.

Lemma shr_m_shr_record_of_loc m l : shr_m (shr_record_of_loc m l) = m.
Proof. destruct l as [|[]]; reflexivity. Qed.

Lemma inject_Z_xO p : (inject_Z (Z.pos p~0) == 2 * inject_Z (Z.pos p))%Q.
Proof. change (Z.pos p~0) with (2 * Z.pos p). apply inject_Z_double. Qed.

Lemma inject_Z_xI p : (inject_Z (Z.pos p~1) == 2 * inject_Z (Z.pos p) + 1)%Q.
Proof.
  change (Z.pos p~1) with (2 * Z.pos p + 1).
  rewrite inject_Z_succ, inject_Z_double. reflexivity.
Qed.

(** One step of [shr]: the value is halved, the location follows. *)
Lemma shr_1_located t mrs :
  0 <= shr_m mrs →
  located (2 * t)%Q (shr_m mrs) (loc_of_shr_record mrs) →
  0 <= shr_m (shr_1 mrs) ∧
  located t (shr_m (shr_1 mrs)) (loc_of_shr_record (shr_1 mrs)).
Proof.
  destruct mrs as [m r s]. simpl shr_m. intros Hm H.
  destruct m as [|p|p]; [| |lia].
  - destruct r, s; simpl in *; (split; [lia|]);
      change (inject_Z 0) with 0%Q in *; lra.
  - destruct p as [p|p|].
    + pose proof (inject_Z_xI p) as E.
      destruct r, s; simpl in *; (split; [lia|]); lra.
    + pose proof (inject_Z_xO p) as E.
      destruct r, s; simpl in *; (split; [lia|]); lra.
    + destruct r, s; simpl in *; (split; [lia|]);
        change (inject_Z 1) with 1%Q in *; change (inject_Z 0) with 0%Q; lra.
Qed.

Lemma pow2_xO p : (pow2 (Z.pos p~0) == pow2 (Z.pos p) * pow2 (Z.pos p))%Q.
Proof. replace (Z.pos p~0) with (Z.pos p + Z.pos p) by lia. apply pow2_add. Qed.

Lemma pow2_xI p : (pow2 (Z.pos p~1) == 2 * (pow2 (Z.pos p) * pow2 (Z.pos p)))%Q.
Proof.
  rewrite Pos2Z.inj_xI, pow2_succ, <- pow2_add.
  replace (2 * Z.pos p) with (Z.pos p + Z.pos p) by lia. reflexivity.
Qed.

(** [n] steps of [shr] divide the value by [2^n]. *)
Lemma iter_shr_1_located p : ∀ t mrs,
  0 <= shr_m mrs →
  located (t * pow2 (Z.pos p))%Q (shr_m mrs) (loc_of_shr_record mrs) →
  0 <= shr_m (SpecFloat.iter_pos shr_1 p mrs) ∧
  located t (shr_m (SpecFloat.iter_pos shr_1 p mrs))
    (loc_of_shr_record (SpecFloat.iter_pos shr_1 p mrs)).
Proof.
  induction p as [p IH|p IH|]; intros t mrs Hm H; simpl SpecFloat.iter_pos.
  - destruct (shr_1_located (t * (pow2 (Z.pos p) * pow2 (Z.pos p)))%Q mrs Hm)
      as [Hm1 H1].
    { eapply located_ext; [|exact H]. rewrite pow2_xI. ring. }
    destruct (IH (t * pow2 (Z.pos p))%Q _ Hm1) as [Hm2 H2].
    { eapply located_ext; [|exact H1]. ring. }
    exact (IH t _ Hm2 H2).
  - destruct (IH (t * pow2 (Z.pos p))%Q mrs Hm) as [Hm2 H2].
    { eapply located_ext; [|exact H]. rewrite pow2_xO. ring. }
    exact (IH t _ Hm2 H2).
  - apply shr_1_located; [exact Hm|].
    eapply located_ext; [|exact H]. change (pow2 1) with 2%Q. ring.
Qed.

(** The number of binary digits of a positive number. *)
Lemma digits2_pos_bounds p :
  2 ^ (Z.pos (digits2_pos p) - 1) <= Z.pos p < 2 ^ Z.pos (digits2_pos p).
Proof.
  induction p as [p IH|p IH|]; simpl digits2_pos.
  - rewrite Pos2Z.inj_succ.
    replace (Z.succ (Z.pos (digits2_pos p)) - 1) with (Z.succ (Z.pos (digits2_pos p) - 1)) by lia.
    rewrite !Z.pow_succ_r by lia. lia.
  - rewrite Pos2Z.inj_succ.
    replace (Z.succ (Z.pos (digits2_pos p)) - 1) with (Z.succ (Z.pos (digits2_pos p) - 1)) by lia.
    rewrite !Z.pow_succ_r by lia. lia.
  - simpl. lia.
Qed.

Lemma digits2_pos_unique p d :
  2 ^ (d - 1) <= Z.pos p < 2 ^ d → Z.pos (digits2_pos p) = d.
Proof.
  intros [H1 H2]. pose proof (digits2_pos_bounds p) as [B1 B2].
  assert (0 < d).
  { destruct (Z_lt_le_dec 0 d) as [|Hd]; [assumption|exfalso].
    assert (2 ^ d <= 1); [|lia].
    destruct (Z.eq_dec d 0) as [->|]; [simpl; lia|].
    rewrite Z.pow_neg_r by lia. lia. }
  destruct (Z.lt_trichotomy (Z.pos (digits2_pos p)) d) as [Hlt|[E|Hgt]]; [|exact E|].
  - assert (2 ^ Z.pos (digits2_pos p) <= 2 ^ (d - 1)) by (apply Z.pow_le_mono_r; lia). lia.
  - assert (2 ^ d <= 2 ^ (Z.pos (digits2_pos p) - 1)) by (apply Z.pow_le_mono_r; lia). lia.
Qed.

Lemma digits2_pos_Q p :
  (pow2 (Z.pos (digits2_pos p) - 1) <= inject_Z (Z.pos p) ∧
   inject_Z (Z.pos p) < pow2 (Z.pos (digits2_pos p)))%Q.
Proof.
  pose proof (digits2_pos_bounds p) as [B1 B2].
  rewrite !pow2_inject by lia. rewrite <- Zle_Qle, <- Zlt_Qlt. lia.
Qed.

End Shifts.

Section RoundAux.

Lemma fexp_64 k : fexp F64.prec F64.emax k = fexp64 k.
Proof. reflexivity. Qed.

Lemma fexp64_mono a b : a <= b → fexp64 a <= fexp64 b.
Proof. unfold fexp64. lia. Qed.

Lemma digits2_pos_le p n : 0 <= n → Z.pos p < 2 ^ n → Z.pos (digits2_pos p) <= n.
Proof.
  intros Hn H. pose proof (digits2_pos_bounds p) as [B _].
  destruct (Z_le_gt_dec (Z.pos (digits2_pos p)) n) as [|Hgt]; [assumption|exfalso].
  assert (2 ^ n <= 2 ^ (Z.pos (digits2_pos p) - 1)) by (apply Z.pow_le_mono_r; lia).
  lia.
Qed.

Lemma digits2_pos_gt p n : 0 <= n → 2 ^ n <= Z.pos p → n < Z.pos (digits2_pos p).
Proof.
  intros Hn H. pose proof (digits2_pos_bounds p) as [_ B].
  destruct (Z_lt_le_dec n (Z.pos (digits2_pos p))) as [|Hle]; [assumption|exfalso].
  assert (2 ^ Z.pos (digits2_pos p) <= 2 ^ n) by (apply Z.pow_le_mono_r; lia).
  lia.
Qed.

Lemma shr_located mrs e n t :
  0 <= shr_m mrs → 0 <= n →
  located (t * pow2 n)%Q (shr_m mrs) (loc_of_shr_record mrs) →
  (shr mrs e n).2 = e + n ∧ 0 <= shr_m (shr mrs e n).1 ∧
  located t (shr_m (shr mrs e n).1) (loc_of_shr_record (shr mrs e n).1).
Proof.
  intros Hm Hn H. destruct n as [|p|p]; [| |lia]; simpl.
  - split; [lia|]. split; [exact Hm|].
    eapply located_ext; [|exact H]. rewrite pow2_0. ring.
  - split; [reflexivity|]. apply iter_shr_1_located; assumption.
Qed.

Lemma binary_round_aux_finish m e l :
  binary_round_aux F64.prec F64.emax false m e l =
  finish (round_nearest_even (shr_m (shr_fexp F64.prec F64.emax m e l).1)
            (loc_of_shr_record (shr_fexp F64.prec F64.emax m e l).1))
         (shr_fexp F64.prec F64.emax m e l).2.
Proof.
  unfold binary_round_aux, finish.
  destruct (shr_fexp F64.prec F64.emax m e l) as [mrs' e']. reflexivity.
Qed.

Lemma shr_nonpos mrs e n : n <= 0 → shr mrs e n = (mrs, e).
Proof. intros H. destruct n; [reflexivity|lia|reflexivity]. Qed.

Lemma pow2_1024_split a b : a + b = 1024 → (pow2 1024 == pow2 a * pow2 b)%Q.
Proof. intros <-. apply pow2_add. Qed.

Lemma Qmult_le_mono a b c d :
  (0 <= a → a <= b → 0 <= c → c <= d → a * c <= b * d)%Q.
Proof. intros. nra. Qed.

Lemma finish_spec M E :
  0 <= M <= 2 ^ 53 → -1074 <= E → (-1074 < E → 2 ^ 52 <= M) →
  match finish M E with
  | S754_zero s => s = false ∧ M = 0
  | S754_finite s m e =>
      s = false ∧ e <= 971 ∧ Z.pos (digits2_pos m) <= 53 ∧
      fexp64 (Z.pos (digits2_pos m) + e) = e ∧
      (inject_Z (Z.pos m) * pow2 e == inject_Z M * pow2 E)%Q
  | S754_infinity s => s = false ∧ (pow2 1024 <= inject_Z M * pow2 E)%Q
  | S754_nan => False
  end.
Proof.
  intros HM HE Hbig. unfold finish, shr_fexp. rewrite fexp_64.
  change (F64.emax - F64.prec) with 971.
  destruct M as [|q|q]; [| |lia].
  - rewrite shr_nonpos by (unfold fexp64; simpl Zdigits2; lia).
    simpl. split; reflexivity.
  - simpl Zdigits2.
    assert (Hd : Z.pos (digits2_pos q) <= 54) by (apply digits2_pos_le; lia).
    destruct (Z_le_gt_dec (fexp64 (Z.pos (digits2_pos q) + E) - E) 0) as [Hn|Hn].
    + rewrite shr_nonpos by exact Hn. simpl shr_m.
      destruct (E <=? 971) eqn:HE971.
      * apply Z.leb_le in HE971. split; [reflexivity|]. split; [exact HE971|].
        split; [unfold fexp64 in Hn; lia|]. split; [|reflexivity].
        destruct (Z.eq_dec E (-1074)) as [->|HEne]; [unfold fexp64 in *; lia|].
        assert (52 < Z.pos (digits2_pos q)) by (apply digits2_pos_gt; lia).
        unfold fexp64 in *. lia.
      * apply Z.leb_gt in HE971. split; [reflexivity|].
        rewrite (pow2_1024_split 52 972) by reflexivity.
        apply Qmult_le_mono.
        -- apply Qlt_le_weak, pow2_pos.
        -- rewrite pow2_inject by lia. rewrite <- Zle_Qle. lia.
        -- apply Qlt_le_weak, pow2_pos.
        -- apply pow2_le. lia.
    + assert (Hd54 : Z.pos (digits2_pos q) = 54) by (unfold fexp64 in Hn; lia).
      assert (Hq : q = 9007199254740992%positive).
      { pose proof (digits2_pos_bounds q) as [B _]. rewrite Hd54 in B.
        change (2 ^ (54 - 1)) with 9007199254740992 in B.
        change (2 ^ 53) with 9007199254740992 in HM. lia. }
      subst q.
      replace (fexp64 (Z.pos (digits2_pos 9007199254740992) + E) - E) with 1
        by (rewrite Hd54; unfold fexp64; lia).
      simpl shr. cbv beta iota zeta. simpl shr_m. cbv beta iota.
      destruct (E + 1 <=? 971) eqn:HE971.
      * apply Z.leb_le in HE971. split; [reflexivity|]. split; [exact HE971|].
        split; [vm_compute; discriminate|].
        split; [change (Z.pos (digits2_pos 4503599627370496)) with 53;
                unfold fexp64; lia|].
        rewrite pow2_succ.
        change (inject_Z 4503599627370496) with (4503599627370496 # 1)%Q.
        change (inject_Z 9007199254740992) with (9007199254740992 # 1)%Q.
        ring.
      * apply Z.leb_gt in HE971. split; [reflexivity|].
        rewrite (pow2_1024_split 53 971) by reflexivity.
        apply Qmult_le_mono.
        -- apply Qlt_le_weak, pow2_pos.
        -- rewrite pow2_inject by lia. rewrite <- Zle_Qle. reflexivity.
        -- apply Qlt_le_weak, pow2_pos.
        -- apply pow2_le. lia.
Qed.

Lemma pow2_neq_0 e : ¬ (pow2 e == 0)%Q.
Proof. pose proof (pow2_pos e). lra. Qed.

(** The magnitude of a number located after a mantissa of [d] digits. *)
Lemma located_magnitude t p l e :
  located t (Z.pos p) l →
  (pow2 (Z.pos (digits2_pos p) + e - 1) <= t * pow2 e ∧
   t * pow2 e < pow2 (Z.pos (digits2_pos p) + e))%Q.
Proof.
  intros Hloc. pose proof (located_bounds _ _ _ Hloc) as [B1 B2].
  pose proof (digits2_pos_Q p) as [D1 _].
  pose proof (digits2_pos_bounds p) as [_ D2].
  assert (D2' : (inject_Z (Z.pos p) + 1 <= pow2 (Z.pos (digits2_pos p)))%Q).
  { rewrite pow2_inject by lia. rewrite <- inject_Z_succ, <- Zle_Qle. lia. }
  pose proof (pow2_pos e) as Hp.
  replace (Z.pos (digits2_pos p) + e - 1) with (Z.pos (digits2_pos p) - 1 + e) by lia.
  rewrite !pow2_add. split; nra.
Qed.

(** [binary_round_aux] rounds the located number to nearest, ties to even,
    when the mantissa it is given is at least as fine as the format's. *)
Lemma binary_round_aux_rounds p e l t :
  located t (Z.pos p) l →
  e <= fexp64 (Z.pos (digits2_pos p) + e) →
  rounds_to (t * pow2 e) (binary_round_aux F64.prec F64.emax false (Z.pos p) e l).
Proof.
  intros Hloc He.
  pose proof (located_magnitude t p l e Hloc) as Hmag.
  rewrite binary_round_aux_finish. unfold shr_fexp. rewrite fexp_64.
  simpl Zdigits2.
  set (k := Z.pos (digits2_pos p) + e) in *.
  set (E := fexp64 k) in *.
  pose proof (pow2_pos E) as HpE.
  destruct (shr_located (shr_record_of_loc (Z.pos p) l) e (E - e)
              (t * pow2 e / pow2 E)%Q) as (He' & Hm' & Hloc').
  { rewrite shr_m_shr_record_of_loc. lia. }
  { lia. }
  { rewrite shr_m_shr_record_of_loc, loc_of_shr_record_of_loc.
    eapply located_ext; [|exact Hloc]. rewrite pow2_sub. field.
    split; apply pow2_neq_0. }
  set (mrs' := (shr (shr_record_of_loc (Z.pos p) l) e (E - e)).1) in *.
  rewrite He'. replace (e + (E - e)) with E by lia.
  set (M := round_nearest_even (shr_m mrs') (loc_of_shr_record mrs')).
  assert (HNE : nearest_even (t * pow2 e / pow2 E) M)
    by (apply round_nearest_even_spec; exact Hloc').
  exists k, M. split; [exact Hmag|]. split; [exact HNE|].
  apply finish_spec.
  - split.
    + pose proof (round_nearest_even_range (shr_m mrs') (loc_of_shr_record mrs')).
      fold M in H. lia.
    + apply (nearest_even_le_Z _ _ _ HNE).
      rewrite <- pow2_inject by lia. apply Qle_shift_div_r; [exact HpE|].
      rewrite <- pow2_add. apply Qlt_le_weak.
      eapply Qlt_le_trans; [apply Hmag|]. apply pow2_le. unfold E, fexp64. lia.
  - unfold E, fexp64. lia.
  - intros Hbig. apply (nearest_even_ge_Z _ _ _ HNE).
    rewrite <- pow2_inject by lia. apply Qle_shift_div_l; [exact HpE|].
    rewrite <- pow2_add.
    eapply Qle_trans; [|apply Hmag]. apply pow2_le. unfold E, fexp64 in *. lia.
Qed.

End RoundAux.

Section RoundsTo.

(** Magnitudes are ordered as the numbers are. *)
Lemma magnitude_mono x y k k' :
  (pow2 (k - 1) <= x ∧ x < pow2 k)%Q → (pow2 (k' - 1) <= y ∧ y < pow2 k')%Q →
  (x <= y)%Q → k <= k'.
Proof.
  intros [H1 H2] [H1' H2'] Hle.
  destruct (Z_le_gt_dec k k') as [|Hgt]; [assumption|exfalso].
  assert (pow2 k' <= pow2 (k - 1))%Q by (apply pow2_le; lia). lra.
Qed.

(** Rounding to nearest is monotone: the heart of the order properties. *)
Lemma round_value_mono x y k k' M M' :
  (pow2 (k - 1) <= x ∧ x < pow2 k)%Q → (pow2 (k' - 1) <= y ∧ y < pow2 k')%Q →
  nearest_even (x / pow2 (fexp64 k)) M →
  nearest_even (y / pow2 (fexp64 k')) M' →
  (x <= y)%Q →
  (inject_Z M * pow2 (fexp64 k) <= inject_Z M' * pow2 (fexp64 k'))%Q.
Proof.
  intros Hx Hy HM HM' Hle.
  pose proof (magnitude_mono _ _ _ _ Hx Hy Hle) as Hk.
  pose proof (pow2_pos (fexp64 k)) as HpE.
  pose proof (pow2_pos (fexp64 k')) as HpE'.
  destruct (Z.eq_dec (fexp64 k) (fexp64 k')) as [HE|HE].
  - rewrite <- HE in *.
    assert (M <= M') as HMM.
    { apply (nearest_even_mono _ _ _ _ HM HM').
      apply Qle_shift_div_l; [exact HpE|].
      unfold Qdiv. rewrite <- Qmult_assoc, (Qmult_comm (/ _)), Qmult_inv_r, Qmult_1_r;
        [exact Hle | apply pow2_neq_0]. }
    rewrite Zle_Qle in HMM. nra.
  - assert (Hlt : k < k') by (unfold fexp64 in HE; lia).
    assert (HE' : fexp64 k' = k' - 53) by (unfold fexp64 in *; lia).
    assert (HEk : fexp64 k <= k' - 1) by (unfold fexp64 in *; lia).
    apply Qle_trans with (pow2 (k' - 1)).
    + assert (HMK : M <= 2 ^ (k' - 1 - fexp64 k)).
      { apply (nearest_even_le_Z _ _ _ HM).
        rewrite <- pow2_inject by lia. apply Qle_shift_div_r; [exact HpE|].
        rewrite <- pow2_add. replace (k' - 1 - fexp64 k + fexp64 k) with (k' - 1) by lia.
        apply Qle_trans with (pow2 k); [lra|]. apply pow2_le. lia. }
      rewrite Zle_Qle in HMK. rewrite <- pow2_inject in HMK by lia.
      assert (Hsplit : (pow2 (k' - 1) == pow2 (k' - 1 - fexp64 k) * pow2 (fexp64 k))%Q).
      { rewrite <- pow2_add. replace (k' - 1 - fexp64 k + fexp64 k) with (k' - 1) by lia.
        reflexivity. }
      nra.
    + assert (HMK : 2 ^ 52 <= M').
      { apply (nearest_even_ge_Z _ _ _ HM').
        rewrite <- pow2_inject by lia. apply Qle_shift_div_l; [exact HpE'|].
        rewrite <- pow2_add. rewrite HE'. replace (52 + (k' - 53)) with (k' - 1) by lia.
        lra. }
      rewrite Zle_Qle in HMK. rewrite <- pow2_inject in HMK by lia.
      assert (Hsplit : (pow2 (k' - 1) == pow2 52 * pow2 (fexp64 k'))%Q).
      { rewrite <- pow2_add. replace (52 + fexp64 k') with (k' - 1) by lia.
        reflexivity. }
      nra.
Qed.

(** A finite binary64 number is below [2^1024]. *)
Lemma finite_below_overflow m e :
  e <= 971 → Z.pos (digits2_pos m) <= 53 →
  (inject_Z (Z.pos m) * pow2 e < pow2 1024)%Q.
Proof.
  intros He Hd. pose proof (digits2_pos_Q m) as [_ B].
  assert (pow2 (Z.pos (digits2_pos m)) <= pow2 53)%Q by (apply pow2_le; lia).
  assert (pow2 e <= pow2 971)%Q by (apply pow2_le; lia).
  pose proof (pow2_pos e). rewrite (pow2_1024_split 53 971) by reflexivity.
  assert (0 < inject_Z (Z.pos m))%Q by (rewrite <- (Zlt_Qlt 0); lia).
  nra.
Qed.

(** What [rounds_to] says on a result that is not an infinity. *)
Lemma rounds_to_finite x f :
  rounds_to x f → F64.is_finite f = true →
  ∃ k M, (pow2 (k - 1) <= x ∧ x < pow2 k)%Q ∧
         nearest_even (x / pow2 (fexp64 k)) M ∧
         (F64.to_Q f == inject_Z M * pow2 (fexp64 k))%Q ∧
         (0 <= F64.to_Q f ∧ F64.to_Q f < pow2 1024)%Q.
Proof.
  intros (k & M & Hx & HM & Hf) Hfin. exists k, M.
  split; [exact Hx|]. split; [exact HM|].
  destruct f as [s|s| |s m e]; try discriminate.
  - destruct Hf as [-> ->]. simpl. pose proof (pow2_pos 1024). split; [ring|lra].
  - destruct Hf as (-> & He & Hd & _ & Hv). unfold F64.to_Q. fold (pow2 e).
    pose proof (finite_below_overflow m e He Hd) as Hb.
    pose proof (pow2_pos e).
    assert (0 < inject_Z (Z.pos m))%Q by (rewrite <- (Zlt_Qlt 0); lia).
    split; [rewrite <- Hv; ring|]. split; [nra|]. lra.
Qed.

Lemma rounds_to_le x y f g :
  rounds_to x f → rounds_to y g → (x <= y)%Q → F64.is_finite g = true →
  F64.is_finite f = true ∧ (F64.to_Q f <= F64.to_Q g)%Q.
Proof.
  intros Hf Hg Hle Hfin.
  destruct (rounds_to_finite _ _ Hg Hfin) as (k' & M' & Hy & HM' & Hv' & Hb').
  assert (Hff : F64.is_finite f = true).
  { destruct Hf as (k & M & Hx & HM & Hf).
    pose proof (round_value_mono _ _ _ _ _ _ Hx Hy HM HM' Hle) as Hmono.
    destruct f as [s|s| |s m e]; try reflexivity; [|contradiction].
    destruct Hf as [_ Hinf]. lra. }
  split; [exact Hff|].
  destruct (rounds_to_finite _ _ Hf Hff) as (k & M & Hx & HM & Hv & Hb).
  pose proof (round_value_mono _ _ _ _ _ _ Hx Hy HM HM' Hle). lra.
Qed.

Lemma rounds_to_ext x x' f : (x == x')%Q → rounds_to x f → rounds_to x' f.
Proof.
  intros E (k & M & Hx & HM & Hf). exists k, M. split; [lra|]. split; [|exact Hf].
  eapply nearest_even_ext; [|exact HM]. rewrite E. reflexivity.
Qed.

Lemma rounds_to_sign x f :
  rounds_to x f →
  match f with
  | S754_zero s | S754_infinity s | S754_finite s _ _ => s = false
  | S754_nan => False
  end.
Proof. intros (k & M & _ & _ & Hf). destruct f; tauto. Qed.

End RoundsTo.

Section Operations.

Lemma to_Q_pos m e : (F64.to_Q (S754_finite false m e) == inject_Z (Z.pos m) * pow2 e)%Q.
Proof. unfold F64.to_Q. fold (pow2 e). ring. Qed.

(** *** Multiplication by a normal number *)

Lemma mul_rounds mx ex my ey :
  Z.pos (digits2_pos my) = 53 →
  rounds_to (F64.to_Q (S754_finite false mx ex) * F64.to_Q (S754_finite false my ey))
    (F64.mul (S754_finite false mx ex) (S754_finite false my ey)).
Proof.
  intros Hy. unfold F64.mul, SFmul. simpl xorb.
  assert (Hd : 53 <= Z.pos (digits2_pos (mx * my))).
  { assert (52 < Z.pos (digits2_pos (mx * my))); [|lia].
    apply digits2_pos_gt; [lia|].
    pose proof (digits2_pos_bounds my) as [B _]. rewrite Hy in B.
    change (2 ^ (53 - 1)) with (2 ^ 52) in B. rewrite Pos2Z.inj_mul. nia. }
  eapply rounds_to_ext; [|apply (binary_round_aux_rounds (mx * my) (ex + ey) loc_Exact
                                  (inject_Z (Z.pos (mx * my))))].
  - rewrite !to_Q_pos, pow2_add, Pos2Z.inj_mul, inject_Z_mult. ring.
  - simpl. reflexivity.
  - unfold fexp64. lia.
Qed.

(** *** Division *)

Lemma Qdiv_half_cases (r n : Q) :
  (0 < n)%Q →
  ((0 < r → 0 < r / n) ∧ (r < n → r / n < 1) ∧
   (2 * r < n → r / n < 1 # 2) ∧ (n < 2 * r → (1 # 2) < r / n) ∧
   (2 * r == n → r / n == 1 # 2))%Q.
Proof.
  intros Hn. repeat split; intros H.
  - apply Qlt_shift_div_l; lra.
  - apply Qlt_shift_div_r; lra.
  - apply Qlt_shift_div_r; lra.
  - apply Qlt_shift_div_l; lra.
  - rewrite <- H. field. lra.
Qed.

Lemma new_location_located nb q r :
  0 < nb → 0 <= r < nb →
  located (inject_Z q + inject_Z r / inject_Z nb)%Q q (new_location nb r).
Proof.
  intros Hnb Hr.
  assert (HN : (0 < inject_Z nb)%Q) by (rewrite <- (Zlt_Qlt 0); lia).
  destruct (Qdiv_half_cases (inject_Z r) (inject_Z nb) HN)
    as (Hpos & Hone & Hlt & Hgt & Heq).
  assert (Hr1 : (inject_Z r / inject_Z nb < 1)%Q)
    by (apply Hone; rewrite <- Zlt_Qlt; lia).
  pose proof (inject_Z_double r) as H2r.
  unfold new_location.
  destruct (Z.even nb) eqn:Hev;
    [unfold new_location_even | unfold new_location_odd];
    destruct (Z.eqb_spec r 0) as [Hr0|Hr0].
  - subst r. change (inject_Z 0) with 0%Q in *.
    assert (0 / inject_Z nb == 0)%Q by (field; lra). simpl. lra.
  - assert (H0 : (0 < inject_Z r / inject_Z nb)%Q)
      by (apply Hpos; rewrite <- (Zlt_Qlt 0); lia).
    destruct (Z.compare_spec (2 * r) nb) as [E|L|G]; simpl.
    + assert (inject_Z r / inject_Z nb == 1 # 2)%Q
        by (apply Heq; rewrite <- H2r, E; reflexivity).
      lra.
    + rewrite Zlt_Qlt, H2r in L. apply Hlt in L. lra.
    + rewrite Zlt_Qlt, H2r in G. apply Hgt in G. lra.
  - subst r. change (inject_Z 0) with 0%Q in *.
    assert (0 / inject_Z nb == 0)%Q by (field; lra). simpl. lra.
  - assert (H0 : (0 < inject_Z r / inject_Z nb)%Q)
      by (apply Hpos; rewrite <- (Zlt_Qlt 0); lia).
    assert (Hodd : nb mod 2 = 1).
    { rewrite Zmod_even, Hev. reflexivity. }
    pose proof (Z.div_mod nb 2 ltac:(lia)) as Hdm. rewrite Hodd in Hdm.
    destruct (Z.compare_spec (2 * r + 1) nb) as [E|L|G]; simpl.
    + assert (L : 2 * r < nb) by lia. rewrite Zlt_Qlt, H2r in L. apply Hlt in L. lra.
    + assert (L' : 2 * r < nb) by lia. rewrite Zlt_Qlt, H2r in L'. apply Hlt in L'. lra.
    + assert (G' : nb < 2 * r) by lia. rewrite Zlt_Qlt, H2r in G'. apply Hgt in G'. lra.
Qed.

Lemma div_core_spec m1 e1 m2 e2 :
  -1073 <= Z.pos (digits2_pos m1) + e1 - (Z.pos (digits2_pos m2) + e2) →
  ∃ q e' l t,
    SFdiv_core_binary F64.prec F64.emax (Z.pos m1) e1 (Z.pos m2) e2
      = (Z.pos q, e', l) ∧
    located t (Z.pos q) l ∧
    (t * pow2 e' ==
       (inject_Z (Z.pos m1) * pow2 e1) / (inject_Z (Z.pos m2) * pow2 e2))%Q ∧
    e' <= fexp64 (Z.pos (digits2_pos q) + e').
Proof.
  intros Hk. unfold SFdiv_core_binary. rewrite fexp_64. simpl Zdigits2.
  set (d1 := Z.pos (digits2_pos m1)) in *. set (d2 := Z.pos (digits2_pos m2)) in *.
  set (k0 := d1 + e1 - (d2 + e2)) in *.
  set (e' := Z.min (fexp64 k0) (e1 - e2)).
  set (s := e1 - e2 - e').
  assert (Hs : 0 <= s) by (unfold s, e'; lia).
  assert (He'k : e' <= k0 - 1) by (unfold e', fexp64; lia).
  assert (Hm' : match s with
                | 0 => Z.pos m1
                | Z.pos _ => Z.shiftl (Z.pos m1) s
                | Z.neg _ => 0
                end = Z.pos m1 * 2 ^ s).
  { destruct s as [|ps|ps] eqn:Es; [simpl; lia| |lia].
    rewrite Z.shiftl_mul_pow2 by lia. reflexivity. }
  rewrite Hm'. clear Hm'.
  pose proof (Z_div_mod (Z.pos m1 * 2 ^ s) (Z.pos m2) eq_refl) as Hdm.
  destruct (Z.div_eucl (Z.pos m1 * 2 ^ s) (Z.pos m2)) as [q r].
  destruct Hdm as [Heq Hr].
  pose proof (digits2_pos_bounds m1) as [B1 _]. fold d1 in B1.
  pose proof (digits2_pos_bounds m2) as [_ B2]. fold d2 in B2.
  set (j := k0 - 1 - e') in *.
  assert (Hj : 0 <= j) by (unfold j; lia).
  assert (Hq : 2 ^ j <= q).
  { assert (Hpow : 2 ^ (d1 - 1) * 2 ^ s = 2 ^ j * 2 ^ d2).
    { rewrite <- !Z.pow_add_r by (unfold d1, d2; lia). f_equal. unfold j, k0, s. lia. }
    assert (0 < 2 ^ j) by (apply Z.pow_pos_nonneg; lia).
    assert (0 < 2 ^ s) by (apply Z.pow_pos_nonneg; lia).
    nia. }
  assert (0 < 2 ^ j) by (apply Z.pow_pos_nonneg; lia).
  destruct q as [|q|q]; [lia| |lia].
  exists q, e', (new_location (Z.pos m2) r),
    (inject_Z (Z.pos q) + inject_Z r / inject_Z (Z.pos m2))%Q.
  split; [reflexivity|]. split; [apply new_location_located; lia|]. split.
  - assert (HN : (0 < inject_Z (Z.pos m2))%Q) by (rewrite <- (Zlt_Qlt 0); lia).
    assert (HeqQ : (inject_Z (Z.pos m1) * pow2 s ==
                    inject_Z (Z.pos m2) * inject_Z (Z.pos q) + inject_Z r)%Q).
    { rewrite pow2_inject by exact Hs.
      rewrite <- !inject_Z_mult, <- inject_Z_plus, Heq. reflexivity. }
    assert (Hp : (pow2 e1 == pow2 s * pow2 e' * pow2 e2)%Q).
    { rewrite <- !pow2_add. replace (s + e' + e2) with e1 by (unfold s; lia).
      reflexivity. }
    pose proof (pow2_pos e2). pose proof (pow2_pos e').
    rewrite Hp.
    transitivity ((inject_Z (Z.pos m1) * pow2 s) / inject_Z (Z.pos m2) * pow2 e')%Q.
    + rewrite HeqQ. field. lra.
    + field. split; lra.
  - assert (j < Z.pos (digits2_pos q)) by (apply digits2_pos_gt; assumption).
    apply Z.le_trans with (fexp64 k0); [unfold e'; lia|].
    apply fexp64_mono. unfold j in *. lia.
Qed.

Lemma div_rounds m1 e1 m2 e2 :
  -1073 <= Z.pos (digits2_pos m1) + e1 - (Z.pos (digits2_pos m2) + e2) →
  rounds_to (F64.to_Q (S754_finite false m1 e1) / F64.to_Q (S754_finite false m2 e2))
    (F64.div (S754_finite false m1 e1) (S754_finite false m2 e2)).
Proof.
  intros Hk. destruct (div_core_spec m1 e1 m2 e2 Hk) as (q & e' & l & t & Hc & Hl & Hv & He).
  unfold F64.div, SFdiv. rewrite Hc. simpl xorb.
  eapply rounds_to_ext; [|apply (binary_round_aux_rounds q e' l t Hl He)].
  rewrite Hv, !to_Q_pos. reflexivity.
Qed.

(** *** Conversion of a positive integer *)

Lemma iter_xO_pow2 d m : Z.pos (Pos.iter xO m d) = Z.pos m * 2 ^ Z.pos d.
Proof.
  induction d as [|d IH] using Pos.peano_ind.
  - simpl. lia.
  - rewrite Pos.iter_succ, Pos2Z.inj_xO, IH, Pos2Z.inj_succ, Z.pow_succ_r by lia. lia.
Qed.

Lemma digits2_pos_shift m d :
  Z.pos (digits2_pos (Pos.iter xO m d)) = Z.pos (digits2_pos m) + Z.pos d.
Proof.
  apply digits2_pos_unique. rewrite iter_xO_pow2.
  pose proof (digits2_pos_bounds m) as [B1 B2].
  assert (0 < 2 ^ Z.pos d) by (apply Z.pow_pos_nonneg; lia).
  replace (Z.pos (digits2_pos m) + Z.pos d - 1)
    with (Z.pos (digits2_pos m) - 1 + Z.pos d) by lia.
  rewrite !Z.pow_add_r by lia. nia.
Qed.

Lemma binary_round_rounds m e :
  rounds_to (inject_Z (Z.pos m) * pow2 e)
    (binary_round F64.prec F64.emax false m e).
Proof.
  unfold binary_round, shl_align. rewrite fexp_64.
  destruct (fexp64 (Z.pos (digits2_pos m) + e) - e) as [|d|d] eqn:Hd.
  - apply (binary_round_aux_rounds m e loc_Exact); [reflexivity|lia].
  - apply (binary_round_aux_rounds m e loc_Exact); [reflexivity|lia].
  - eapply rounds_to_ext;
      [|apply (binary_round_aux_rounds (Pos.iter xO m d) _ loc_Exact
                 (inject_Z (Z.pos (Pos.iter xO m d))))].
    + rewrite iter_xO_pow2, inject_Z_mult, <- pow2_inject by lia.
      rewrite <- Qmult_assoc, <- pow2_add. f_equiv. f_equiv. lia.
    + reflexivity.
    + rewrite digits2_pos_shift.
      apply Z.eq_le_incl. f_equal. lia.
Qed.

Lemma of_int_rounds n f :
  0 < n → F64.of_int n = Some f →
  rounds_to (inject_Z n) f ∧ F64.is_finite f = true.
Proof.
  intros Hn Hf. destruct n as [|m|m]; [lia| |lia].
  unfold F64.of_int, binary_normalize in Hf.
  pose proof (binary_round_rounds m 0) as H.
  eapply rounds_to_ext in H; [|rewrite pow2_0; apply Qmult_1_r].
  pose proof (rounds_to_sign _ _ H) as Hs.
  destruct (binary_round F64.prec F64.emax false m 0) as [s|s| |s m' e'];
    try discriminate; try contradiction; inversion Hf; subst f; split; auto.
Qed.

End Operations.

(** ** The percentage as a function of the distance *)

Section Percentage.

Lemma rounds_to_shape x f :
  rounds_to x f → F64.is_finite f = true → (pow2 (-1074) <= x)%Q →
  ∃ m e, f = S754_finite false m e ∧ e <= 971 ∧ Z.pos (digits2_pos m) <= 53.
Proof.
  intros (k & M & [Hx1 Hx2] & HM & Hf) Hfin Hx.
  destruct f as [s|s| |s m e]; try discriminate.
  - exfalso. destruct Hf as [_ ->].
    assert (Hk : -1074 < k).
    { apply pow2_lt_inv. lra. }
    pose proof (pow2_pos (fexp64 k)) as HpE.
    assert (1 <= 0); [|lia].
    apply (nearest_even_ge_Z _ _ _ HM). change (inject_Z 1) with 1%Q.
    apply Qle_shift_div_l; [exact HpE|].
    assert (pow2 (fexp64 k) <= pow2 (k - 1))%Q by (apply pow2_le; unfold fexp64; lia).
    lra.
  - destruct Hf as (-> & He & Hd & _). eauto.
Qed.

(** A result of a rounding that is not an infinity is a binary64 number in
    canonical form. *)
Lemma rounds_to_valid x f :
  rounds_to x f → F64.is_finite f = true →
  valid_binary F64.prec F64.emax f = true.
Proof.
  intros (k & M & _ & _ & Hf) Hfin.
  destruct f as [s|s| |s m e]; try discriminate; [reflexivity|].
  destruct Hf as (_ & He & _ & Hc & _). simpl.
  unfold bounded, canonical_mantissa. rewrite fexp_64, Hc, Z.eqb_refl. simpl.
  apply Z.leb_le. exact He.
Qed.

Lemma to_Q_lit_1_0 : (F64.to_Q F64.lit_1_0 == 1)%Q.
Proof. reflexivity. Qed.

Lemma to_Q_lit_100_0 : (F64.to_Q F64.lit_100_0 == 100)%Q.
Proof. reflexivity. Qed.

Lemma rounds_to_1 : rounds_to 1 F64.lit_1_0.
Proof.
  eapply rounds_to_ext; [|apply (binary_round_rounds 1 0)]. reflexivity.
Qed.

Lemma rounds_to_100 : rounds_to 100 F64.lit_100_0.
Proof.
  eapply rounds_to_ext; [|apply (binary_round_rounds 100 0)]. reflexivity.
Qed.

(** The reciprocal step: [1.0 / n] for a positive integer [n]. *)
Lemma truediv_int_1_spec n r :
  0 < n → F64.truediv_int F64.lit_1_0 n = Some r →
  ∃ X, F64.of_int n = Some X ∧ (1 <= F64.to_Q X)%Q ∧
       rounds_to (1 / F64.to_Q X) r ∧ F64.is_finite r = true ∧
       (F64.to_Q r <= 1)%Q ∧
       ∃ m e, r = S754_finite false m e.
Proof.
  intros Hn Hr. unfold F64.truediv_int in Hr.
  destruct (F64.of_int n) as [X|] eqn:HX; [|discriminate]. simpl in Hr.
  destruct (of_int_rounds n X Hn HX) as [HXr HXf].
  assert (H1 : (1 <= inject_Z n)%Q) by (rewrite <- (Zle_Qle 1); lia).
  destruct (rounds_to_le _ _ _ _ rounds_to_1 HXr H1 HXf) as [_ HX1].
  rewrite to_Q_lit_1_0 in HX1.
  destruct (rounds_to_shape _ _ HXr HXf) as (m & e & -> & He & Hd).
  { assert (pow2 (-1074) <= pow2 0)%Q by (apply pow2_le; lia). rewrite pow2_0 in *. lra. }
  simpl in Hr. inversion Hr; subst r; clear Hr.
  exists (S754_finite false m e). split; [reflexivity|]. split; [exact HX1|].
  assert (Hdiv : rounds_to (1 / F64.to_Q (S754_finite false m e))
                   (F64.div F64.lit_1_0 (S754_finite false m e))).
  { eapply rounds_to_ext; [|apply div_rounds].
    - rewrite to_Q_lit_1_0. reflexivity.
    - change (Z.pos (digits2_pos 4503599627370496)) with 53. lia. }
  split; [exact Hdiv|].
  assert (Hle : (1 / F64.to_Q (S754_finite false m e) <= 1)%Q).
  { apply Qle_shift_div_r; lra. }
  destruct (rounds_to_le _ _ _ _ Hdiv rounds_to_1 Hle eq_refl) as [Hfin Hv].
  rewrite to_Q_lit_1_0 in Hv. split; [exact Hfin|]. split; [exact Hv|].
  destruct (rounds_to_shape _ _ Hdiv Hfin) as (m' & e' & E & _); [|eauto].
  destruct (rounds_to_finite _ _ HXr HXf) as (_ & _ & _ & _ & _ & Hb).
  apply Qle_shift_div_l; [lra|].
  assert (pow2 (-1074) * pow2 1024 <= 1)%Q.
  { assert (E : (pow2 (-1074) * pow2 1024 == pow2 (-50))%Q)
      by (rewrite <- pow2_add; reflexivity).
    assert (L : (pow2 (-50) <= pow2 0)%Q) by (apply pow2_le; lia).
    rewrite pow2_0 in L. lra. }
  pose proof (pow2_pos (-1074)). nra.
Qed.

Lemma Qinv_antitone a b : (0 < a → a <= b → 1 / b <= 1 / a)%Q.
Proof.
  intros Ha Hab. apply Qle_shift_div_l; [exact Ha|].
  assert (E : (1 / b * a == a / b)%Q) by (field; lra).
  rewrite E. apply Qle_shift_div_r; lra.
Qed.

(** Every step of [1.0 / (d + 1) * 100.0] with what it rounds. *)
Lemma pct_of_dist_steps d p :
  0 <= d → pct_of_dist d = Some p →
  ∃ X r,
    F64.of_int (d + 1) = Some X ∧ rounds_to (inject_Z (d + 1)) X ∧
    F64.is_finite X = true ∧
    rounds_to (1 / F64.to_Q X) r ∧ F64.is_finite r = true ∧
    (0 < F64.to_Q X)%Q ∧
    rounds_to (F64.to_Q r * 100) p ∧ F64.is_finite p = true ∧
    (0 <= F64.to_Q p ∧ F64.to_Q p <= 100)%Q.
Proof.
  intros Hd Hp. unfold pct_of_dist in Hp.
  destruct (F64.truediv_int F64.lit_1_0 (d + 1)) as [r|] eqn:Hr; [|discriminate].
  simpl in Hp. inversion Hp; subst p; clear Hp.
  destruct (truediv_int_1_spec (d + 1) r ltac:(lia) Hr)
    as (X & HX & HX1 & Hrr & Hrf & Hr1 & m & e & ->).
  destruct (of_int_rounds (d + 1) X ltac:(lia) HX) as [HXr HXf].
  exists X, (S754_finite false m e).
  split; [exact HX|]. split; [exact HXr|]. split; [exact HXf|].
  split; [exact Hrr|]. split; [exact Hrf|]. split; [lra|].
  assert (Hmul : rounds_to (F64.to_Q (S754_finite false m e) * 100)
                   (F64.mul (S754_finite false m e) F64.lit_100_0)).
  { eapply rounds_to_ext; [|apply mul_rounds; reflexivity].
    rewrite to_Q_lit_100_0. reflexivity. }
  split; [exact Hmul|].
  assert (Hle : (F64.to_Q (S754_finite false m e) * 100 <= 100)%Q) by lra.
  destruct (rounds_to_le _ _ _ _ Hmul rounds_to_100 Hle eq_refl) as [Hfin Hv].
  rewrite to_Q_lit_100_0 in Hv. split; [exact Hfin|].
  destruct (rounds_to_finite _ _ Hmul Hfin) as (_ & _ & _ & _ & _ & Hb). lra.
Qed.

(** The percentage of a distance is a finite number of [[0, 100]]. *)
Lemma pct_of_dist_range d p :
  0 <= d → pct_of_dist d = Some p →
  F64.is_finite p = true ∧ (0 <= F64.to_Q p ∧ F64.to_Q p <= 100)%Q.
Proof.
  intros Hd Hp.
  destruct (pct_of_dist_steps d p Hd Hp) as (X & r & _ & _ & _ & _ & _ & _ & _ & H).
  exact H.
Qed.

Lemma pct_of_dist_valid d p :
  0 <= d → pct_of_dist d = Some p → F64.valid p = true.
Proof.
  intros Hd Hp.
  destruct (pct_of_dist_steps d p Hd Hp) as (X & r & _ & _ & _ & _ & _ & _ & Hpr & Hpf & _).
  exact (rounds_to_valid _ _ Hpr Hpf).
Qed.

(** A larger distance never gives a larger percentage. *)
Lemma pct_of_dist_antitone d d' p p' :
  0 <= d <= d' → pct_of_dist d = Some p → pct_of_dist d' = Some p' →
  (F64.to_Q p' <= F64.to_Q p)%Q.
Proof.
  intros Hd Hp Hp'.
  destruct (pct_of_dist_steps d p ltac:(lia) Hp)
    as (X & r & _ & HXr & HXf & Hrr & Hrf & HX0 & Hpr & Hpf & _).
  destruct (pct_of_dist_steps d' p' ltac:(lia) Hp')
    as (X' & r' & _ & HXr' & HXf' & Hrr' & Hrf' & HX0' & Hpr' & Hpf' & _).
  assert (Hn : (inject_Z (d + 1) <= inject_Z (d' + 1))%Q) by (rewrite <- Zle_Qle; lia).
  destruct (rounds_to_le _ _ _ _ HXr HXr' Hn HXf') as [_ HXX].
  assert (Hinv : (1 / F64.to_Q X' <= 1 / F64.to_Q X)%Q).
  { apply Qinv_antitone; assumption. }
  destruct (rounds_to_le _ _ _ _ Hrr' Hrr Hinv Hrf) as [_ Hrle].
  assert (Hmul : (F64.to_Q r' * 100 <= F64.to_Q r * 100)%Q) by lra.
  destruct (rounds_to_le _ _ _ _ Hpr' Hpr Hmul Hpf) as [_ Hple]. exact Hple.
Qed.

Lemma of_int_float_max :
  F64.of_int float_max_int = Some (S754_finite false 9007199254740991 971).
Proof. vm_compute. reflexivity. Qed.

Lemma of_int_total n :
  0 < n <= float_max_int → ∃ X, F64.of_int n = Some X.
Proof.
  intros [Hn Hmax].
  assert (Hpos : 0 < float_max_int) by (vm_compute; reflexivity).
  destruct (of_int_rounds float_max_int _ Hpos of_int_float_max) as [Hr Hf].
  destruct n as [|m|m]; [lia| |lia].
  pose proof (binary_round_rounds m 0) as H.
  eapply rounds_to_ext in H; [|rewrite pow2_0; apply Qmult_1_r].
  assert (Hle : (inject_Z (Z.pos m) <= inject_Z float_max_int)%Q)
    by (rewrite <- Zle_Qle; exact Hmax).
  destruct (rounds_to_le _ _ _ _ H Hr Hle Hf) as [Hfin _].
  unfold F64.of_int, binary_normalize.
  destruct (binary_round F64.prec F64.emax false m 0); try discriminate; eauto.
Qed.

Lemma pct_of_dist_total d :
  0 <= d → d + 1 <= float_max_int → ∃ p, pct_of_dist d = Some p.
Proof.
  intros Hd Hmax. destruct (of_int_total (d + 1) ltac:(lia)) as [X HX].
  destruct (of_int_rounds (d + 1) X ltac:(lia) HX) as [HXr HXf].
  destruct (rounds_to_shape _ _ HXr HXf) as (m & e & -> & _).
  { assert (1 <= inject_Z (d + 1))%Q by (rewrite <- (Zle_Qle 1); lia).
    assert (L : (pow2 (-1074) <= pow2 0)%Q) by (apply pow2_le; lia).
    rewrite pow2_0 in L. lra. }
  unfold pct_of_dist, F64.truediv_int. rewrite HX. simpl. eauto.
Qed.

(** *** The scaling by [2.55] *)

Lemma mul_2_55_finite p :
  F64.is_finite p = true → (0 <= F64.to_Q p ∧ F64.to_Q p <= 100)%Q →
  F64.is_finite (F64.mul p F64.lit_2_55) = true.
Proof.
  intros Hfin [H0 H100]. destruct p as [s|s| |s m e]; try discriminate.
  - reflexivity.
  - destruct s.
    + exfalso. unfold F64.to_Q in H0. fold (pow2 e) in H0.
      pose proof (pow2_pos e).
      assert (0 < inject_Z (Z.pos m))%Q by (rewrite <- (Zlt_Qlt 0); lia).
      nra.
    + pose proof (mul_rounds m e 5742089524897382 (-51) eq_refl) as H.
      pose proof (mul_rounds 7036874417766400 (-46) 5742089524897382 (-51) eq_refl) as H'.
      fold F64.lit_100_0 F64.lit_2_55 in H, H'.
      assert (Hle : (F64.to_Q (S754_finite false m e) * F64.to_Q F64.lit_2_55
                     <= F64.to_Q F64.lit_100_0 * F64.to_Q F64.lit_2_55)%Q).
      { rewrite to_Q_lit_100_0.
        assert (0 <= F64.to_Q F64.lit_2_55)%Q by (vm_compute; discriminate).
        nra. }
      destruct (rounds_to_le _ _ _ _ H H' Hle eq_refl) as [Hf _]. exact Hf.
Qed.

Lemma round_finite f : F64.is_finite f = true → ∃ z, F64.round f = Some z.
Proof. destruct f; try discriminate; simpl; eauto. Qed.

End Percentage.

(** ** The distance of the percentage from [100 / (d + 1)] *)

Section Accuracy.

(** In the normal range a rounding moves a number by at most the fraction
    [2^-53] of itself. *)
Lemma rounds_to_rel_error x f :
  rounds_to x f → F64.is_finite f = true → (pow2 (-1022) <= x)%Q →
  (x * (1 - pow2 (-53)) <= F64.to_Q f ∧ F64.to_Q f <= x * (1 + pow2 (-53)))%Q.
Proof.
  intros Hr Hfin Hx.
  destruct (rounds_to_finite _ _ Hr Hfin) as (k & M & [Hx1 Hx2] & [[HM1 HM2] _] & Hv & _).
  assert (Hk : -1022 < k) by (apply pow2_lt_inv; lra).
  assert (HE : fexp64 k = k - 53) by (unfold fexp64; lia).
  rewrite HE in *.
  pose proof (pow2_pos (k - 53)) as Hc.
  assert (Ht : (x / pow2 (k - 53) * pow2 (k - 53) == x)%Q) by (field; lra).
  assert (Hsplit : (pow2 (k - 53) == 2 * (pow2 (k - 1) * pow2 (-53)))%Q).
  { rewrite <- pow2_add, <- pow2_succ. replace (k - 1 + -53 + 1) with (k - 53) by lia.
    reflexivity. }
  pose proof (pow2_pos (-53)) as Hu. pose proof (pow2_pos (k - 1)) as Hk1.
  set (t := (x / pow2 (k - 53))%Q) in *.
  set (c := pow2 (k - 53)) in *. set (u := pow2 (-53)) in *.
  set (b := pow2 (k - 1)) in *.
  assert (Hbu : (b * u <= x * u)%Q) by nra.
  rewrite Hv. split; nra.
Qed.

(** An integer below [2^53] is converted exactly. *)
Lemma of_int_exact n X :
  0 < n < 2 ^ 53 → F64.of_int n = Some X → (F64.to_Q X == inject_Z n)%Q.
Proof.
  intros [Hn Hlt] HX. destruct (of_int_rounds n X Hn HX) as [Hr Hfin].
  destruct (rounds_to_finite _ _ Hr Hfin) as (k & M & [Hx1 Hx2] & HM & Hv & _).
  assert (Hk0 : 0 < k).
  { apply pow2_lt_inv. rewrite pow2_0.
    assert (1 <= inject_Z n)%Q by (rewrite <- (Zle_Qle 1); lia). lra. }
  assert (Hk : k <= 53).
  { destruct (Z_le_gt_dec k 53) as [|Hgt]; [assumption|exfalso].
    assert (pow2 53 <= pow2 (k - 1))%Q by (apply pow2_le; lia).
    assert (inject_Z n < pow2 53)%Q
      by (rewrite pow2_inject by lia; rewrite <- Zlt_Qlt; exact Hlt).
    lra. }
  assert (HE : fexp64 k = k - 53) by (unfold fexp64; lia).
  rewrite HE in *.
  assert (Hint : (inject_Z n / pow2 (k - 53) == inject_Z (n * 2 ^ (53 - k)))%Q).
  { rewrite inject_Z_mult, <- pow2_inject by lia.
    assert (E : (pow2 (53 - k) * pow2 (k - 53) == 1)%Q).
    { rewrite <- pow2_add. replace (53 - k + (k - 53)) with 0 by lia. reflexivity. }
    pose proof (pow2_pos (k - 53)).
    apply Qmult_inj_r with (pow2 (k - 53)); [lra|].
    transitivity (inject_Z n); [field; lra|].
    rewrite <- Qmult_assoc, E. ring. }
  assert (HMeq : M = n * 2 ^ (53 - k)).
  { apply Z.le_antisymm.
    - apply (nearest_even_le_Z _ _ _ HM). rewrite Hint. apply Qle_refl.
    - apply (nearest_even_ge_Z _ _ _ HM). rewrite Hint. apply Qle_refl. }
  rewrite Hv, HMeq, <- Hint. field. apply pow2_neq_0.
Qed.

(** The percentage of a distance is [100 / (d + 1)] up to the fraction
    [2^-51] of it. *)
Lemma pct_of_dist_close d p :
  0 <= d → d + 1 < 2 ^ 53 → pct_of_dist d = Some p →
  (100 / inject_Z (d + 1) * (1 - pow2 (-51)) <= F64.to_Q p ∧
   F64.to_Q p <= 100 / inject_Z (d + 1) * (1 + pow2 (-51)))%Q.
Proof.
  intros Hd Hlt Hp.
  destruct (pct_of_dist_steps d p Hd Hp)
    as (X & r & HX & _ & _ & Hrr & Hrf & _ & Hpr & Hpf & _).
  pose proof (of_int_exact (d + 1) X ltac:(lia) HX) as HXn.
  assert (Hn1 : (1 <= inject_Z (d + 1))%Q) by (rewrite <- (Zle_Qle 1); lia).
  assert (Hn53 : (inject_Z (d + 1) < pow2 53)%Q)
    by (rewrite pow2_inject by lia; rewrite <- Zlt_Qlt; exact Hlt).
  eapply rounds_to_ext in Hrr; [|rewrite HXn; reflexivity].
  set (n := inject_Z (d + 1)) in *.
  assert (Hinv : (1 / n * n == 1)%Q) by (field; lra).
  assert (Ha : (100 / n == 100 * (1 / n))%Q) by (field; lra).
  assert (Hu4 : (pow2 (-51) == 4 * pow2 (-53))%Q) by reflexivity.
  assert (Hu : (0 < pow2 (-53) ∧ pow2 (-53) <= 1 # 4)%Q)
    by (split; [apply pow2_pos|vm_compute; discriminate]).
  assert (H53 : (pow2 53 * pow2 (-53) == 1)%Q) by reflexivity.
  assert (Hlow : (pow2 (-1022) <= pow2 (-60))%Q) by (apply pow2_le; lia).
  assert (H60 : (pow2 (-60) * 128 == pow2 (-53))%Q) by reflexivity.
  pose proof (pow2_pos (-60)) as Hp60. pose proof (pow2_pos 53) as Hp53.
  set (u := pow2 (-53)) in *. set (y := (1 / n)%Q) in *.
  assert (Hy0 : (0 < y)%Q) by nra.
  assert (Hyu : (u <= y)%Q) by nra.
  destruct (rounds_to_rel_error _ _ Hrr Hrf) as [Hr1 Hr2]; [fold u in H60; lra|].
  fold u in Hr1, Hr2.
  assert (Hr34 : (y * (3 # 4) <= F64.to_Q r)%Q) by nra.
  destruct (rounds_to_rel_error _ _ Hpr Hpf) as [Hp1 Hp2]; [nra|].
  fold u in Hp1, Hp2.
  rewrite Ha, Hu4. set (q := F64.to_Q p) in *. set (rr := F64.to_Q r) in *.
  split.
  - apply Qle_trans with (100 * (y * (1 - u)) * (1 - u))%Q; [nra|].
    apply Qle_trans with (rr * 100 * (1 - u))%Q; [nra|exact Hp1].
  - apply Qle_trans with (rr * 100 * (1 + u))%Q; [exact Hp2|].
    apply Qle_trans with (100 * (y * (1 + u)) * (1 + u))%Q; [nra|nra].
Qed.

End Accuracy.

(** ** Comparison and rounding to an integer *)

Section Comparison.

Lemma rounds_to_nonneg_float x f :
  rounds_to x f → F64.is_finite f = true → nonneg_float f.
Proof.
  intros (k & M & _ & _ & Hf) Hfin.
  destruct f as [s|s| |s m e]; try discriminate; [exact I|].
  destruct Hf as (-> & _ & _ & Hc & _). exact Hc.
Qed.

Lemma finite_magnitude m e :
  (pow2 (Z.pos (digits2_pos m) + e - 1) <= inject_Z (Z.pos m) * pow2 e ∧
   inject_Z (Z.pos m) * pow2 e < pow2 (Z.pos (digits2_pos m) + e))%Q.
Proof.
  pose proof (digits2_pos_Q m) as [D1 D2]. pose proof (pow2_pos e) as Hp.
  replace (Z.pos (digits2_pos m) + e - 1) with (Z.pos (digits2_pos m) - 1 + e) by lia.
  rewrite !pow2_add. split; nra.
Qed.

(** On such floats the comparison of Python agrees with the order of the
    values. *)
Lemma leb_complete f g :
  nonneg_float f → nonneg_float g → (F64.to_Q f <= F64.to_Q g)%Q →
  F64.leb f g = true.
Proof.
  intros Hf Hg Hle.
  destruct f as [sf|sf| |sf mf ef]; try contradiction;
    destruct g as [sg|sg| |sg mg eg]; try contradiction.
  - reflexivity.
  - destruct sg; [contradiction|reflexivity].
  - destruct sf; [contradiction|exfalso].
    rewrite to_Q_pos in Hle. simpl in Hle.
    pose proof (pow2_pos ef).
    assert (0 < inject_Z (Z.pos mf))%Q by (rewrite <- (Zlt_Qlt 0); lia).
    nra.
  - destruct sf; [contradiction|]. destruct sg; [contradiction|].
    simpl in Hf, Hg. rewrite !to_Q_pos in Hle.
    unfold F64.leb, SFleb, SFcompare.
    destruct (Z.compare_spec ef eg) as [E|L|G]; [|reflexivity|exfalso].
    + subst eg. change (Pos.compare_cont Eq mf mg) with (Pos.compare mf mg).
      destruct (Pos.compare_spec mf mg) as [_|_|G]; try reflexivity. exfalso.
      pose proof (pow2_pos ef).
      assert (inject_Z (Z.pos mg) < inject_Z (Z.pos mf))%Q by (rewrite <- Zlt_Qlt; lia).
      nra.
    + assert (Hd : Z.pos (digits2_pos mg) + eg <= Z.pos (digits2_pos mf) + ef - 1).
      { destruct (Z_le_gt_dec (Z.pos (digits2_pos mf) + ef) (Z.pos (digits2_pos mg) + eg))
          as [Hc|Hc]; [|lia].
        apply fexp64_mono in Hc. lia. }
      pose proof (finite_magnitude mf ef) as [F1 _].
      pose proof (finite_magnitude mg eg) as [_ G2].
      apply pow2_le in Hd. lra.
Qed.

End Comparison.

Section Round.

Lemma nearest_even_opp t M : nearest_even t M → nearest_even (- t) (- M).
Proof.
  intros [[H1 H2] He].
  assert (E : (inject_Z (- M) == - inject_Z M)%Q) by (rewrite inject_Z_opp; reflexivity).
  split; [lra|]. rewrite Z.even_opp. intros [H|H]; apply He; [right|left]; lra.
Qed.

Lemma round_half_even_shift_spec m k :
  0 < k →
  nearest_even (inject_Z m / pow2 k) (F64.round_half_even_shift m k).
Proof.
  intros Hk.
  assert (Hpos : 0 < 2 ^ k) by (apply Z.pow_pos_nonneg; lia).
  pose proof (Z_div_mod m (2 ^ k) ltac:(lia)) as Hdm.
  unfold F64.round_half_even_shift.
  assert (Hq : m / 2 ^ k = fst (Z.div_eucl m (2 ^ k))) by reflexivity.
  assert (Hr : m mod 2 ^ k = snd (Z.div_eucl m (2 ^ k))) by reflexivity.
  rewrite Hq, Hr. destruct (Z.div_eucl m (2 ^ k)) as [q r]. simpl fst. simpl snd.
  destruct Hdm as [Heq Hrange].
  assert (Hloc : located (inject_Z m / pow2 k) q (new_location (2 ^ k) r)).
  { eapply located_ext; [|apply (new_location_located (2 ^ k) q r); lia].
    assert (HN : (0 < inject_Z (2 ^ k))%Q) by (rewrite <- (Zlt_Qlt 0); lia).
    rewrite pow2_inject by lia.
    rewrite Heq, inject_Z_plus, inject_Z_mult. field; try lra. }
  assert (Hev : Z.even (2 ^ k) = true).
  { replace k with (Z.succ (k - 1)) by lia. rewrite Z.pow_succ_r by lia.
    rewrite Z.even_mul. reflexivity. }
  apply round_nearest_even_spec in Hloc.
  unfold new_location in Hloc. rewrite Hev in Hloc. unfold new_location_even in Hloc.
  destruct (Z.eqb_spec r 0) as [->|Hr0].
  - simpl in Hloc. destruct (Z.compare_spec (2 * 0) (2 ^ k)); [lia|exact Hloc|lia].
  - destruct (2 * r ?= 2 ^ k); exact Hloc.
Qed.

(** [round] gives the integer nearest to the float, the even one on a tie. *)
Lemma round_nearest_even f z :
  F64.round f = Some z → nearest_even (F64.to_Q f) z.
Proof.
  destruct f as [s|s| |s m e]; try discriminate; simpl F64.round.
  - intros [= <-]. apply (nearest_even_Z 0).
  - intros [= <-].
    assert (Hpos : nearest_even (inject_Z (Z.pos m) * pow2 e)
                     (if 0 <=? e then Z.pos m * 2 ^ e
                      else F64.round_half_even_shift (Z.pos m) (- e))).
    { destruct (Z.leb_spec 0 e) as [He|He].
      - eapply nearest_even_ext; [|apply nearest_even_Z].
        rewrite inject_Z_mult, pow2_inject by lia. reflexivity.
      - eapply nearest_even_ext; [|apply round_half_even_shift_spec; lia].
        assert (E : (pow2 e * pow2 (- e) == 1)%Q).
        { rewrite <- pow2_add. replace (e + - e) with 0 by lia. reflexivity. }
        pose proof (pow2_pos (- e)). 
        apply Qmult_inj_r with (pow2 (- e)); [lra|].
        transitivity (inject_Z (Z.pos m)); [field; lra|].
        rewrite <- Qmult_assoc, E. ring. }
    unfold F64.to_Q. fold (pow2 e). destruct s.
    + eapply nearest_even_ext; [|apply nearest_even_opp; exact Hpos]. ring.
    + eapply nearest_even_ext; [|exact Hpos]. ring.
Qed.

(** The literal [2.55] is the binary64 number nearest to 255/100. *)
Lemma lit_2_55_rounds : rounds_to (255 # 100) F64.lit_2_55.
Proof.
  assert (Hd : F64.div (S754_finite false 8972014882652160 (-45)) F64.lit_100_0
               = F64.lit_2_55) by (vm_compute; reflexivity).
  rewrite <- Hd.
  eapply rounds_to_ext; [|apply div_rounds; vm_compute; discriminate].
  vm_compute. reflexivity.
Qed.

End Round.

(** * The loops of [compute_influence] *)

Lemma for_each_app {A S : Type} (l1 l2 : list A) (body : A → S → option S) s :
  for_each (l1 ++ l2) body s = s' ← for_each l1 body s; for_each l2 body s'.
Proof.
  revert s. induction l1 as [|x l1 IH]; intros s; simpl; [reflexivity|].
  destruct (body x s) as [s'|]; simpl; [apply IH|reflexivity].
Qed.

Lemma for_each_ext {A S : Type} (l : list A) (body body' : A → S → option S) s :
  (∀ x s, body x s = body' x s) → for_each l body s = for_each l body' s.
Proof.
  intros H. revert s. induction l as [|x l IH]; intros s; simpl; [reflexivity|].
  rewrite H. destruct (body' x s) as [s'|]; simpl; [apply IH|reflexivity].
Qed.

Section Loops.

Context {A B S : Type}.

Lemma for_each_fmap (g : A → B) (l : list A) (body : B → S → option S) s :
  for_each (g <$> l) body s = for_each l (λ x, body (g x)) s.
Proof.
  revert s. induction l as [|x l IH]; intros s; simpl; [reflexivity|].
  destruct (body (g x) s) as [s'|]; simpl; [apply IH|reflexivity].
Qed.

Lemma for_each_bind (g : A → list B) (l : list A) (body : B → S → option S) s :
  for_each l (λ x s, for_each (g x) body s) s = for_each (l ≫= g) body s.
Proof.
  revert s. induction l as [|x l IH]; intros s; [reflexivity|].
  rewrite bind_cons, for_each_app. simpl.
  destruct (for_each (g x) body s) as [s'|]; simpl; [apply IH|reflexivity].
Qed.

End Loops.

Section Grid.

Lemma elem_of_grid size c r :
  (c, r) ∈ grid size ↔ (0 <= c < size ∧ 0 <= r < size).
Proof.
  unfold grid, range. rewrite list_elem_of_bind. split.
  - intros (row & Hin & Hrow). apply list_elem_of_fmap in Hin as (col & E & Hcol).
    inversion E; subst. apply elem_of_seqZ in Hrow, Hcol. lia.
  - intros [Hc Hr]. exists r. split; [|apply elem_of_seqZ; lia].
    apply list_elem_of_fmap. exists c. split; [reflexivity|apply elem_of_seqZ; lia].
Qed.

Lemma NoDup_grid size : NoDup (grid size).
Proof.
  unfold grid, range. apply NoDup_bind.
  - intros r1 r2 [c r] _ _ H1 H2.
    apply list_elem_of_fmap in H1 as (c1 & E1 & _).
    apply list_elem_of_fmap in H2 as (c2 & E2 & _). congruence.
  - intros row _. apply NoDup_fmap_2; [|apply NoDup_seqZ].
    intros c1 c2 E. congruence.
  - apply NoDup_seqZ.
Qed.

Lemma length_grid size : length (grid size) = (Z.to_nat size * Z.to_nat size)%nat.
Proof.
  unfold grid, range.
  assert (H : ∀ (l : list Z) (n : nat) (g : Z → list point),
             (∀ x, length (g x) = n) → length (l ≫= g) = (length l * n)%nat).
  { intros l n g Hg. induction l as [|x l IH]; [reflexivity|].
    rewrite bind_cons, length_app, IH, Hg. simpl. reflexivity. }
  rewrite (H _ (Z.to_nat size)), length_seqZ; [reflexivity|].
  intros x. rewrite length_fmap, length_seqZ. reflexivity.
Qed.

(** The two nested loops are one loop over the grid. *)
Lemma compute_influence_grid board size :
  compute_influence board size =
  for_each (grid size)
    (store_point (point_influence
                    (stones_of "b" (list_occupied_points board))
                    (stones_of "w" (list_occupied_points board)))) ∅.
Proof.
  unfold compute_influence, grid. rewrite <- for_each_bind.
  apply for_each_ext. intros row influence. rewrite for_each_fmap. reflexivity.
Qed.

(** What a loop of dictionary updates leaves in the dictionary. *)
Lemma for_each_store_lookup (f : point → option entry) pts :
  ∀ m0 m, for_each pts (store_point f) m0 = Some m →
  (∀ pt, pt ∈ pts → is_Some (f pt)) ∧
  (∀ pt, m !! pt = if decide (pt ∈ pts) then f pt else m0 !! pt).
Proof.
  induction pts as [|x pts IH]; intros m0 m H; simpl in H.
  - inversion H; subst. split; [intros pt Hin; by apply elem_of_nil in Hin|].
    intros pt. destruct (decide (pt ∈ [])) as [Hin|]; [by apply elem_of_nil in Hin|reflexivity].
  - change (store_point f x m0) with (e ← f x; Some (<[x:=e]> m0)) in H.
    destruct (f x) as [e|] eqn:Hx; [|by simpl in H].
    simpl in H. destruct (IH _ _ H) as [Hall Hlook]. split.
    + intros pt [->|Hin]%elem_of_cons; [rewrite Hx; eauto|auto].
    + intros pt. rewrite Hlook.
      destruct (decide (pt ∈ pts)) as [Hin|Hnin].
      * rewrite decide_True by (apply elem_of_cons; auto). reflexivity.
      * destruct (decide (pt = x)) as [->|Hne].
        -- rewrite decide_True by (apply elem_of_cons; auto).
           rewrite lookup_insert_eq. symmetry. exact Hx.
        -- rewrite decide_False by (rewrite elem_of_cons; tauto).
           apply lookup_insert_ne. congruence.
Qed.

Lemma for_each_store_total (f : point → option entry) pts :
  (∀ pt, pt ∈ pts → is_Some (f pt)) →
  ∀ m0, is_Some (for_each pts (store_point f) m0).
Proof.
  induction pts as [|x pts IH]; intros Hall m0; simpl; [eauto|].
  change (store_point f x m0) with (e ← f x; Some (<[x:=e]> m0)).
  destruct (Hall x) as [e ->]; [apply elem_of_cons; auto|]. simpl.
  apply IH. intros pt Hin. apply Hall, elem_of_cons. auto.
Qed.

(** The entry of the returned dictionary at a point. *)
Lemma compute_influence_lookup board size m pt :
  compute_influence board size = Some m →
  m !! pt =
    if decide (pt ∈ grid size)
    then point_influence (stones_of "b" (list_occupied_points board))
           (stones_of "w" (list_occupied_points board)) pt
    else None.
Proof.
  rewrite compute_influence_grid. intros H.
  destruct (for_each_store_lookup _ _ _ _ H) as [_ Hl]. rewrite Hl.
  destruct (decide (pt ∈ grid size)); [reflexivity|apply lookup_empty].
Qed.

Lemma compute_influence_entry board size m pt e :
  compute_influence board size = Some m → m !! pt = Some e →
  pt ∈ grid size ∧
  point_influence (stones_of "b" (list_occupied_points board))
    (stones_of "w" (list_occupied_points board)) pt = Some e.
Proof.
  intros H Hl. rewrite (compute_influence_lookup _ _ _ _ H) in Hl.
  destruct (decide (pt ∈ grid size)); [auto|discriminate].
Qed.

Lemma compute_influence_is_Some board size m pt :
  compute_influence board size = Some m → pt ∈ grid size → is_Some (m !! pt).
Proof.
  intros H Hin. rewrite (compute_influence_lookup _ _ _ _ H).
  rewrite decide_True by exact Hin.
  rewrite compute_influence_grid in H.
  destruct (for_each_store_lookup _ _ _ _ H) as [Hall _]. auto.
Qed.

Lemma compute_influence_size board size m :
  compute_influence board size = Some m →
  base.size m = (Z.to_nat size * Z.to_nat size)%nat.
Proof.
  intros H. rewrite <- length_grid, <- (size_list_to_set (C:=gset point)) by apply NoDup_grid.
  rewrite <- size_dom. f_equal. apply set_eq. intros pt.
  rewrite elem_of_dom, elem_of_list_to_set. split.
  - intros [e He]. apply (compute_influence_entry _ _ _ _ _ H He).
  - apply (compute_influence_is_Some board). exact H.
Qed.

End Grid.

(** * Stones and distances *)

Section Stones.

Lemma manhattan_nonneg p q : 0 <= manhattan p q.
Proof. unfold manhattan. lia. Qed.

Lemma manhattan_self p : manhattan p p = 0.
Proof. unfold manhattan. lia. Qed.

Lemma elem_of_stones_of c occupied s :
  s ∈ stones_of c occupied ↔ (c, s) ∈ occupied.
Proof.
  unfold stones_of. rewrite list_elem_of_fmap. split.
  - intros ([c' s'] & -> & Hin). apply list_elem_of_In, filter_In in Hin as [Hin Hc].
    simpl in Hc. apply String.eqb_eq in Hc. subst c'. apply list_elem_of_In. exact Hin.
  - intros Hin. exists (c, s). split; [reflexivity|].
    apply list_elem_of_In, filter_In. split; [apply list_elem_of_In; exact Hin|].
    simpl. apply String.eqb_refl.
Qed.

Lemma fold_left_min_spec l x :
  (fold_left Z.min l x = x ∨ fold_left Z.min l x ∈ l) ∧
  fold_left Z.min l x <= x ∧ (∀ y, y ∈ l → fold_left Z.min l x <= y).
Proof.
  revert x. induction l as [|y l IH]; intros x; simpl.
  - split; [auto|]. split; [lia|]. intros y Hy. by apply elem_of_nil in Hy.
  - destruct (IH (Z.min x y)) as ([E|Hin] & Hle & Hall). 
    + split; [|split; [lia|]].
      * rewrite E. destruct (Z.min_spec x y) as [[_ ->]|[_ ->]]; [auto|].
        right. apply elem_of_cons. auto.
      * intros z [->|Hz]%elem_of_cons; [lia|auto].
    + split; [|split; [lia|]].
      * right. apply elem_of_cons. auto.
      * intros z [->|Hz]%elem_of_cons; [lia|auto].
Qed.

Lemma py_min_spec l d :
  py_min l = Some d → d ∈ l ∧ ∀ x, x ∈ l → d <= x.
Proof.
  destruct l as [|x l]; [discriminate|]. simpl. intros [= <-].
  destruct (fold_left_min_spec l x) as ([E|Hin] & Hle & Hall).
  - split; [rewrite E; apply elem_of_cons; auto|].
    intros y [->|Hy]%elem_of_cons; [lia|auto].
  - split; [apply elem_of_cons; auto|].
    intros y [->|Hy]%elem_of_cons; [lia|auto].
Qed.

Lemma nearest_dist_unique occupied c pt d d' :
  nearest_dist occupied c pt d → nearest_dist occupied c pt d' → d = d'.
Proof.
  intros [(s & Hs & <-) Hmin] [(s' & Hs' & <-) Hmin'].
  pose proof (Hmin s' Hs'). pose proof (Hmin' s Hs). lia.
Qed.

Lemma nearest_dist_nonneg occupied c pt d : nearest_dist occupied c pt d → 0 <= d.
Proof. intros [(s & _ & <-) _]. apply manhattan_nonneg. Qed.

(** The two cases of the percentage block. *)
Lemma stone_pct_cases occupied c pt p :
  stone_pct (stones_of c occupied) pt = Some p →
  ((∀ s, (c, s) ∉ occupied) ∧ p = F64.lit_0_0) ∨
  (∃ d, nearest_dist occupied c pt d ∧ pct_of_dist d = Some p).
Proof.
  unfold stone_pct. destruct (stones_of c occupied) as [|s0 l] eqn:Hst.
  - intros [= <-]. left. split; [|reflexivity].
    intros s Hin. apply elem_of_stones_of in Hin. rewrite Hst in Hin.
    by apply elem_of_nil in Hin.
  - rewrite <- Hst. clear s0 l Hst. intros H. right.
    destruct (py_min (manhattan pt <$> stones_of c occupied)) as [d|] eqn:Hd;
      [|discriminate].
    exists d. split; [|exact H].
    apply py_min_spec in Hd as [Hin Hall]. split.
    + apply list_elem_of_fmap in Hin as (s & -> & Hs). exists s.
      split; [apply elem_of_stones_of; exact Hs|reflexivity].
    + intros s Hs. apply Hall, list_elem_of_fmap. exists s.
      split; [reflexivity|apply elem_of_stones_of; exact Hs].
Qed.

Lemma stone_pct_percentage occupied c pt p :
  stone_pct (stones_of c occupied) pt = Some p → percentage p.
Proof.
  intros [[_ ->]|(d & Hd & Hp)]%stone_pct_cases.
  - split; [reflexivity|]. split; [reflexivity|]. simpl. lra.
  - pose proof (nearest_dist_nonneg _ _ _ _ Hd) as Hd0. split.
    + exact (pct_of_dist_valid d p Hd0 Hp).
    + exact (pct_of_dist_range d p Hd0 Hp).
Qed.

Lemma percentage_nonneg_float p : percentage p → nonneg_float p.
Proof.
  intros (Hv & Hf & H0 & _). destruct p as [s|s| |s m e]; try discriminate; [exact I|].
  destruct s.
  - exfalso. unfold F64.to_Q in H0. fold (pow2 e) in H0. pose proof (pow2_pos e).
    assert (0 < inject_Z (Z.pos m))%Q by (rewrite <- (Zlt_Qlt 0); lia).
    nra.
  - unfold F64.valid in Hv. simpl in Hv. unfold bounded, canonical_mantissa in Hv.
    rewrite fexp_64 in Hv. apply andb_prop in Hv as [Hc _].
    apply Z.eqb_eq in Hc. exact Hc.
Qed.

(** The order of two percentages as Python compares them. *)
Lemma percentage_leb p q :
  percentage p → percentage q → (F64.to_Q p <= F64.to_Q q)%Q → F64.leb p q = true.
Proof.
  intros Hp Hq. apply leb_complete; apply percentage_nonneg_float; assumption.
Qed.

Lemma percentage_0_0 : percentage F64.lit_0_0.
Proof. split; [reflexivity|]. split; [reflexivity|]. simpl. lra. Qed.

Lemma percentage_100_0 : percentage F64.lit_100_0.
Proof.
  split; [reflexivity|]. split; [reflexivity|]. rewrite to_Q_lit_100_0. lra.
Qed.

Lemma percentage_bounds_leb p :
  percentage p →
  F64.leb F64.lit_0_0 p = true ∧ F64.leb p F64.lit_100_0 = true.
Proof.
  intros Hp. pose proof Hp as (_ & _ & H0 & H100). split.
  - apply percentage_leb; [apply percentage_0_0|exact Hp|exact H0].
  - apply percentage_leb; [exact Hp|apply percentage_100_0|].
    rewrite to_Q_lit_100_0. exact H100.
Qed.

End Stones.

Section Entries.

Lemma point_influence_inv bs ws pt pa pb c :
  point_influence bs ws pt = Some (pa, pb, c) →
  stone_pct bs pt = Some pa ∧ stone_pct ws pt = Some pb ∧
  colour_from_percentages pa pb = Some c.
Proof.
  unfold point_influence. intros H.
  destruct (stone_pct bs pt) as [a|]; [|discriminate]. simpl in H.
  destruct (stone_pct ws pt) as [b|]; [|discriminate]. simpl in H.
  destruct (colour_from_percentages a b) as [c'|] eqn:Hc; [|discriminate].
  simpl in H. inversion H; subst. auto.
Qed.

(** The entry of a point, taken apart. *)
Lemma compute_influence_entry_inv board size m pt pa pb c :
  compute_influence board size = Some m → m !! pt = Some (pa, pb, c) →
  pt ∈ grid size ∧
  stone_pct (stones_of "b" (list_occupied_points board)) pt = Some pa ∧
  stone_pct (stones_of "w" (list_occupied_points board)) pt = Some pb ∧
  colour_from_percentages pa pb = Some c.
Proof.
  intros H Hl. destruct (compute_influence_entry _ _ _ _ _ H Hl) as [Hin Hp].
  split; [exact Hin|]. apply point_influence_inv. exact Hp.
Qed.

(** More stones of a colour: at least the same percentage. *)
Lemma stone_pct_more_stones occupied occupied' c pt p p' :
  (∀ s, (c, s) ∈ occupied → (c, s) ∈ occupied') →
  stone_pct (stones_of c occupied) pt = Some p →
  stone_pct (stones_of c occupied') pt = Some p' →
  (F64.to_Q p <= F64.to_Q p')%Q.
Proof.
  intros Hsub Hp Hp'. pose proof (stone_pct_percentage _ _ _ _ Hp') as (_ & _ & H0 & _).
  apply stone_pct_cases in Hp as [[_ ->]|(d & Hd & Hp)]; [simpl; exact H0|].
  apply stone_pct_cases in Hp' as [[Hemp _]|(d' & Hd' & Hp')].
  - exfalso. destruct Hd as [(s & Hs & _) _]. exact (Hemp s (Hsub s Hs)).
  - apply (pct_of_dist_antitone d' d); [|exact Hp'|exact Hp].
    split; [eapply nearest_dist_nonneg; exact Hd'|].
    destruct Hd as [(s & Hs & <-) _]. destruct Hd' as [_ Hmin]. auto.
Qed.

End Entries.

Section Totality.

Lemma colour_from_percentages_total pa pb :
  percentage pa → percentage pb → is_Some (colour_from_percentages pa pb).
Proof.
  intros (_ & Hfa & Ha) (_ & Hfb & Hb). unfold colour_from_percentages.
  destruct (round_finite _ (mul_2_55_finite pb Hfb Hb)) as [r ->].
  destruct (round_finite _ (mul_2_55_finite pa Hfa Ha)) as [g ->].
  simpl. eauto.
Qed.

Lemma stone_pct_total occupied c pt bound :
  (∀ s, (c, s) ∈ occupied → manhattan pt s + 1 <= bound) →
  bound <= float_max_int →
  is_Some (stone_pct (stones_of c occupied) pt).
Proof.
  intros Hb Hmax. unfold stone_pct.
  destruct (stones_of c occupied) as [|s0 l] eqn:Hst; [eauto|].
  destruct (py_min (manhattan pt <$> s0 :: l)) as [d|] eqn:Hd; [|discriminate].
  simpl. apply py_min_spec in Hd as [Hin _].
  apply list_elem_of_fmap in Hin as (s & -> & Hs).
  rewrite <- Hst in Hs. apply elem_of_stones_of in Hs.
  destruct (pct_of_dist_total (manhattan pt s)) as [p Hp].
  - apply manhattan_nonneg.
  - specialize (Hb s Hs). lia.
  - unfold pct_of_dist in Hp. rewrite Hp. eauto.
Qed.

Lemma manhattan_on_grid size c r s :
  0 <= c < size → 0 <= r < size → 0 <= s.1 < size → 0 <= s.2 < size →
  manhattan (c, r) s + 1 <= 2 * size - 1.
Proof. unfold manhattan. simpl. lia. Qed.

(** On a board whose stones are on the grid, and whose side is small enough
    for the distances to be converted to float, no exception is raised. *)
Lemma compute_influence_total board size :
  on_board size board → 2 * size - 1 <= float_max_int →
  is_Some (compute_influence board size).
Proof.
  intros Hon Hmax. rewrite compute_influence_grid. apply for_each_store_total.
  intros [c r] Hin. apply elem_of_grid in Hin as [Hc Hr].
  assert (Hst : ∀ col, is_Some (stone_pct (stones_of col (list_occupied_points board)) (c, r))).
  { intros col. apply (stone_pct_total _ _ _ (2 * size - 1)); [|exact Hmax].
    intros s Hs. destruct (Hon _ _ Hs). apply manhattan_on_grid; assumption. }
  unfold point_influence.
  destruct (Hst "b"%string) as [pa Ha]. destruct (Hst "w"%string) as [pb Hb].
  rewrite Ha, Hb. simpl.
  destruct (colour_from_percentages_total pa pb) as [col Hcol].
  - eapply stone_pct_percentage; exact Ha.
  - eapply stone_pct_percentage; exact Hb.
  - rewrite Hcol. simpl. eauto.
Qed.

End Totality.

Section Swap.

Lemma stones_of_cons k c s l :
  stones_of k ((c, s) :: l) =
  if String.eqb c k then s :: stones_of k l else stones_of k l.
Proof. unfold stones_of. simpl. destruct (String.eqb c k); reflexivity. Qed.

Lemma swap_colour_eqb c :
  String.eqb (swap_colour c) "b" = String.eqb c "w" ∧
  String.eqb (swap_colour c) "w" = String.eqb c "b".
Proof.
  unfold swap_colour.
  destruct (String.eqb_spec c "b") as [->|Hb]; [split; reflexivity|].
  destruct (String.eqb_spec c "w") as [->|Hw]; [split; reflexivity|].
  apply String.eqb_neq in Hb, Hw. rewrite Hb, Hw. split; reflexivity.
Qed.

Lemma stones_of_swap occupied :
  stones_of "b" ((λ cp, (swap_colour cp.1, cp.2)) <$> occupied) = stones_of "w" occupied ∧
  stones_of "w" ((λ cp, (swap_colour cp.1, cp.2)) <$> occupied) = stones_of "b" occupied.
Proof.
  induction occupied as [|[c s] l [IHb IHw]]; [split; reflexivity|].
  rewrite fmap_cons. simpl fst. simpl snd. rewrite !stones_of_cons.
  destruct (swap_colour_eqb c) as [-> ->]. rewrite IHb, IHw. split; reflexivity.
Qed.

Lemma colour_from_percentages_swap pa pb :
  colour_from_percentages pb pa =
  fmap (M:=option) (λ c : rgb, (c.1.2, c.1.1, c.2)) (colour_from_percentages pa pb).
Proof.
  unfold colour_from_percentages.
  destruct (F64.round (F64.mul pa F64.lit_2_55)),
    (F64.round (F64.mul pb F64.lit_2_55)); reflexivity.
Qed.

Lemma point_influence_swap bs ws pt :
  point_influence ws bs pt = fmap (M:=option) swap_entry (point_influence bs ws pt).
Proof.
  unfold point_influence.
  destruct (stone_pct bs pt) as [pa|], (stone_pct ws pt) as [pb|]; simpl;
    try reflexivity.
  rewrite colour_from_percentages_swap.
  destruct (colour_from_percentages pa pb) as [[[r g] b]|]; reflexivity.
Qed.

Lemma for_each_store_fmap (g : entry → entry) (f f' : point → option entry) pts :
  (∀ pt, f' pt = fmap (M:=option) g (f pt)) →
  ∀ m0 : gmap point entry,
    for_each pts (store_point f') (fmap (M:=gmap point) g m0)
    = fmap (M:=option) (fmap (M:=gmap point) g) (for_each pts (store_point f) m0).
Proof.
  intros Hf. induction pts as [|x pts IH]; intros m0; simpl; [reflexivity|].
  change (store_point f' x (g <$> m0)) with (e ← f' x; Some (<[x:=e]> (g <$> m0))).
  change (store_point f x m0) with (e ← f x; Some (<[x:=e]> m0)).
  rewrite Hf. destruct (f x) as [e|]; simpl; [|reflexivity].
  rewrite <- fmap_insert. apply IH.
Qed.

End Swap.

Section Rules.

Lemma stone_pct_rule occupied c pt p :
  stone_pct (stones_of c occupied) pt = Some p → pct_rule occupied c pt p.
Proof.
  intros [[Hemp ->]|(d & Hd & Hp)]%stone_pct_cases; [left; auto|right].
  pose proof (nearest_dist_nonneg _ _ _ _ Hd) as Hd0.
  pose proof (pct_of_dist_close d p Hd0) as Hclose.
  unfold pct_of_dist, F64.truediv_int in Hp.
  destruct (F64.of_int (d + 1)) as [X|] eqn:HX; [|discriminate].
  unfold mbind, option_bind in Hp.
  destruct (F64.is_zero X) eqn:HZ; [discriminate|].
  exists d, X. split; [exact Hd|]. split; [exact HX|]. split; [congruence|].
  intros Hlt. apply Hclose; [exact Hlt|].
  unfold pct_of_dist, F64.truediv_int. rewrite HX. unfold mbind, option_bind.
  rewrite HZ. exact Hp.
Qed.

Lemma stone_pct_no_stone occupied c pt p :
  stone_pct (stones_of c occupied) pt = Some p →
  (∀ s, (c, s) ∉ occupied) → p = F64.lit_0_0.
Proof.
  intros [[_ ->]|(d & Hd & _)]%stone_pct_cases Hemp; [reflexivity|exfalso].
  destruct Hd as [(s & Hs & _) _]. exact (Hemp s Hs).
Qed.

Lemma stones_of_no_stone occupied c :
  (∀ s, (c, s) ∉ occupied) → stones_of c occupied = [].
Proof.
  intros Hemp. destruct (stones_of c occupied) as [|s l] eqn:E; [reflexivity|exfalso].
  apply (Hemp s), elem_of_stones_of. rewrite E. apply elem_of_cons. auto.
Qed.

Lemma stone_pct_on_stone occupied c pt p :
  stone_pct (stones_of c occupied) pt = Some p → (c, pt) ∈ occupied →
  p = F64.lit_100_0.
Proof.
  intros [[Hemp _]|(d & Hd & Hp)]%stone_pct_cases Hin; [exfalso; exact (Hemp pt Hin)|].
  assert (d = 0).
  { pose proof (nearest_dist_nonneg _ _ _ _ Hd). destruct Hd as [_ Hmin].
    specialize (Hmin pt Hin). rewrite manhattan_self in Hmin. lia. }
  subst d. vm_compute in Hp. injection Hp as <-. reflexivity.
Qed.

Lemma clamp_max_min x : Z.max 0 (Z.min 255 x) = clamp x 0 255.
Proof.
  unfold clamp. destruct (Z.ltb_spec x 0); [lia|].
  destruct (Z.ltb_spec 255 x); lia.
Qed.

Lemma colour_from_percentages_blend pctA pctB :
  colour_from_percentages pctA pctB = blend pctA pctB.
Proof.
  unfold colour_from_percentages, blend.
  destruct (F64.round (F64.mul pctB F64.lit_2_55)) as [red|]; [|reflexivity].
  destruct (F64.round (F64.mul pctA F64.lit_2_55)) as [green|]; [|reflexivity].
  simpl. rewrite !clamp_max_min. reflexivity.
Qed.

End Rules.

Section Concrete.

Lemma compute_corner_2 : compute_influence corner_board 2 = Some corner_map_2.
Proof. vm_compute. reflexivity. Qed.

Lemma compute_diagonal_2 :
  compute_influence
    {| list_occupied_points := [("b"%string, (0, 0))] ++ [("b"%string, (1, 1))] |} 2
  = Some diagonal_map_2.
Proof. vm_compute. reflexivity. Qed.

Lemma nearest_dist_corner pt :
  nearest_dist (list_occupied_points corner_board) "b" pt (manhattan pt (0, 0)).
Proof.
  split.
  - exists (0, 0). split; [apply elem_of_cons; auto|reflexivity].
  - intros s [E|Hs]%elem_of_cons; [|by apply elem_of_nil in Hs].
    inversion E; subst. lia.
Qed.

Lemma on_board_corner size : 1 <= size → on_board size corner_board.
Proof.
  intros Hs c s [E|Hin]%elem_of_cons; [|by apply elem_of_nil in Hin].
  inversion E; subst. simpl. lia.
Qed.

Lemma corner_no_white s : ("w"%string, s) ∉ list_occupied_points corner_board.
Proof.
  intros [E|Hin]%elem_of_cons; [discriminate|by apply elem_of_nil in Hin].
Qed.

End Concrete.

(** * The properties of the specification *)

(** C1, as amended: each point of the grid has an entry whose black
    percentage is [0.0] when the board has no black stone and otherwise the
    binary64 product [(1.0 / (dA + 1)) * 100.0], [dA] being the least
    Manhattan distance, an integer, from the point to a black stone (for
    [dA + 1 < 2^53] the product is [100 / (dA + 1)] up to the fraction
    [2^-51] of it); and the same for the white percentage and the white
    stones. *)
Theorem C1_percentage_rule board size m c r :
  1 <= size → compute_influence board size = Some m →
  0 <= c < size → 0 <= r < size →
  ∃ pa pb col,
    m !! (c, r) = Some (pa, pb, col) ∧
    pct_rule (list_occupied_points board) "b" (c, r) pa ∧
    pct_rule (list_occupied_points board) "w" (c, r) pb.
Proof.
  intros _ H Hc Hr.
  destruct (compute_influence_is_Some board size m (c, r) H) as [[[pa pb] col] Hl].
  { apply elem_of_grid. auto. }
  destruct (compute_influence_entry_inv _ _ _ _ _ _ _ H Hl) as (_ & Ha & Hb & _).
  exists pa, pb, col. split; [exact Hl|]. split; apply stone_pct_rule; assumption.
Qed.

(** C1 as stated fails: two steps from the only black stone the percentage
    is the float 33.33333333333333, which is neither the rational 100/3
    nor the float 100.0 / 3 (33.333333333333336) of the one-division
    formula; and 33 steps from it, on a board of size 19, the source gives
    the green channel 7 where the one-division formula would give 8. *)
Lemma C1_counterexample :
  (compute_influence corner_board 3 ≫= (.!! (2, 0)))
    = Some (f_33, F64.lit_0_0, (0, 85, 0)) ∧
  nearest_dist (list_occupied_points corner_board) "b" (2, 0) 2 ∧
  ¬ (F64.to_Q f_33 == 100 / inject_Z (2 + 1))%Q ∧
  spec_pct (stones_of "b" (list_occupied_points corner_board)) (2, 0)
    = Some (S754_finite false 4691249611844267 (-47)) ∧
  (compute_influence corner_board 19 ≫= (.!! (18, 15)))
    = Some (f_34th, F64.lit_0_0, (0, 7, 0)) ∧
  (spec_pct (stones_of "b" (list_occupied_points corner_board)) (18, 15)
     ≫= λ q, colour_from_percentages q F64.lit_0_0) = Some (0, 8, 0).
Proof.
  split; [vm_compute; reflexivity|]. split; [exact (nearest_dist_corner (2, 0))|].
  split; [vm_compute; discriminate|]. split; [vm_compute; reflexivity|].
  split; vm_compute; reflexivity.
Qed.

(** C2: the colour of two percentages is the triple of the specification:
    red is the clamped rounding of the white percentage times 2.55, green
    the same of the black percentage, blue is 0.  The rounding is to the
    nearest integer (the even one on a tie) of the binary64 product; the
    colour is a function of the two percentages alone, defined on all of
    them. *)
Theorem C2_blend pctA pctB :
  percentage pctA → percentage pctB →
  colour_from_percentages pctA pctB = blend pctA pctB ∧
  ∃ red green,
    F64.round (F64.mul pctB F64.lit_2_55) = Some red ∧
    nearest_even (F64.to_Q (F64.mul pctB F64.lit_2_55)) red ∧
    F64.round (F64.mul pctA F64.lit_2_55) = Some green ∧
    nearest_even (F64.to_Q (F64.mul pctA F64.lit_2_55)) green ∧
    colour_from_percentages pctA pctB
      = Some (clamp red 0 255, clamp green 0 255, 0).
Proof.
  intros (_ & Hfa & Ha) (_ & Hfb & Hb). split; [apply colour_from_percentages_blend|].
  destruct (round_finite _ (mul_2_55_finite pctB Hfb Hb)) as [red Hr].
  destruct (round_finite _ (mul_2_55_finite pctA Hfa Ha)) as [green Hg].
  exists red, green. split; [exact Hr|]. split; [exact (round_nearest_even _ _ Hr)|].
  split; [exact Hg|]. split; [exact (round_nearest_even _ _ Hg)|].
  rewrite colour_from_percentages_blend. unfold blend. rewrite Hr, Hg. reflexivity.
Qed.

(** C3, as amended: with one black stone at (0,0) on a board of size 3,
    the black percentage is 100 at (0,0), 50 at (1,0), the float
    33.33333333333333 at (2,0) (33.33 to two decimals) and 20 at (2,2),
    four steps away; the white percentage is 0.0 at every point; and the
    colour at (0,0) is (0, 255, 0). *)
Theorem C3_corner_scenario :
  (compute_influence corner_board 3 ≫= (.!! (0, 0)))
    = Some (F64.lit_100_0, F64.lit_0_0, (0, 255, 0)) ∧
  (F64.to_Q F64.lit_100_0 == 100)%Q ∧
  (compute_influence corner_board 3 ≫= (.!! (1, 0)))
    = Some (f_50, F64.lit_0_0, (0, 127, 0)) ∧
  (F64.to_Q f_50 == 50)%Q ∧
  (compute_influence corner_board 3 ≫= (.!! (2, 0)))
    = Some (f_33, F64.lit_0_0, (0, 85, 0)) ∧
  ((33325 # 1000) <= F64.to_Q f_33 ∧ F64.to_Q f_33 < (33335 # 1000))%Q ∧
  (compute_influence corner_board 3 ≫= (.!! (2, 2)))
    = Some (f_20, F64.lit_0_0, (0, 51, 0)) ∧
  (F64.to_Q f_20 == 20)%Q ∧
  manhattan (2, 2) (0, 0) = 4 ∧
  (∃ m, compute_influence corner_board 3 = Some m ∧
        ∀ c r, 0 <= c < 3 → 0 <= r < 3 →
               ∃ pa col, m !! (c, r) = Some (pa, F64.lit_0_0, col)).
Proof.
  split; [vm_compute; reflexivity|]. split; [reflexivity|].
  split; [vm_compute; reflexivity|]. split; [reflexivity|].
  split; [vm_compute; reflexivity|].
  split; [split; vm_compute; [discriminate|reflexivity]|].
  split; [vm_compute; reflexivity|]. split; [reflexivity|].
  split; [reflexivity|].
  destruct (compute_influence_total corner_board 3) as [m Hm].
  { apply on_board_corner. lia. }
  { vm_compute. discriminate. }
  exists m. split; [exact Hm|]. intros c r Hc Hr.
  destruct (compute_influence_is_Some corner_board 3 m (c, r) Hm)
    as [[[pa pb] col] Hl]; [apply elem_of_grid; auto|].
  destruct (compute_influence_entry_inv _ _ _ _ _ _ _ Hm Hl) as (_ & _ & Hb & _).
  rewrite (stone_pct_no_stone _ _ _ _ Hb corner_no_white) in Hl. eauto.
Qed.

(** C3 as stated fails: at (2,2), four steps from the stone, the black
    percentage is 20, not 25; and at (2,0) it is not the decimal 33.33. *)
Lemma C3_counterexample :
  (compute_influence corner_board 3 ≫= (.!! (2, 2)))
    = Some (f_20, F64.lit_0_0, (0, 51, 0)) ∧
  manhattan (2, 2) (0, 0) = 4 ∧
  ¬ (F64.to_Q f_20 == 25)%Q ∧
  (compute_influence corner_board 3 ≫= (.!! (2, 0)))
    = Some (f_33, F64.lit_0_0, (0, 85, 0)) ∧
  ¬ (F64.to_Q f_33 == 3333 # 100)%Q.
Proof.
  split; [vm_compute; reflexivity|]. split; [reflexivity|].
  split; [vm_compute; discriminate|].
  split; [vm_compute; reflexivity|vm_compute; discriminate].
Qed.

(** C4: the dictionary returned by [compute_influence] has exactly one
    entry for each of the [size * size] points of the grid, whatever the
    stones are; and it is returned, without an exception, for every board
    whose stones are on the grid, up to the side where the distances stop
    being convertible to float. *)
Theorem C4_one_entry_per_point board size :
  1 <= size →
  (∀ m, compute_influence board size = Some m →
        (∀ c r, is_Some (m !! (c, r)) ↔ (0 <= c < size ∧ 0 <= r < size)) ∧
        Z.of_nat (base.size m) = size * size) ∧
  (on_board size board → 2 * size - 1 <= float_max_int →
   ∃ m, compute_influence board size = Some m).
Proof.
  intros Hsize. split.
  - intros m H. split.
    + intros c r. rewrite <- elem_of_grid. split.
      * intros [e He]. apply (compute_influence_entry _ _ _ _ _ H He).
      * apply (compute_influence_is_Some board). exact H.
    + rewrite (compute_influence_size _ _ _ H). lia.
  - intros Hon Hmax. destruct (compute_influence_total board size Hon Hmax) as [m Hm].
    eauto.
Qed.

(** C5: for every board and every point, the two percentages of the
    point's entry are binary64 numbers of the closed interval from 0 to
    100, by their values and by the comparison of floats. *)
Theorem C5_percentages_in_range board size m pt pa pb c :
  compute_influence board size = Some m → m !! pt = Some (pa, pb, c) →
  (percentage pa ∧
   F64.leb F64.lit_0_0 pa = true ∧ F64.leb pa F64.lit_100_0 = true) ∧
  (percentage pb ∧
   F64.leb F64.lit_0_0 pb = true ∧ F64.leb pb F64.lit_100_0 = true).
Proof.
  intros H Hl.
  destruct (compute_influence_entry_inv _ _ _ _ _ _ _ H Hl) as (_ & Ha & Hb & _).
  apply stone_pct_percentage in Ha, Hb.
  split; (split; [assumption|apply percentage_bounds_leb; assumption]).
Qed.

(** C6: at a point that carries a black stone (and no white one) the black
    percentage is exactly the float [100.0], and the green channel of the
    point's colour is 255. *)
Theorem C6_stone_point_is_full board size m pt pa pb r g b :
  compute_influence board size = Some m →
  m !! pt = Some (pa, pb, (r, g, b)) →
  ("b"%string, pt) ∈ list_occupied_points board →
  ("w"%string, pt) ∉ list_occupied_points board →
  pa = F64.lit_100_0 ∧ (F64.to_Q pa == 100)%Q ∧ g = 255.
Proof.
  intros H Hl Hin _.
  destruct (compute_influence_entry_inv _ _ _ _ _ _ _ H Hl) as (_ & Ha & _ & Hc).
  pose proof (stone_pct_on_stone _ _ _ _ Ha Hin) as ->.
  split; [reflexivity|]. split; [reflexivity|].
  unfold colour_from_percentages in Hc.
  destruct (F64.round (F64.mul pb F64.lit_2_55)); [|discriminate].
  vm_compute in Hc. congruence.
Qed.

(** C7: a colour without a stone is no error, it has the percentage [0.0]
    at every point; and on a board without a stone of either colour the map
    is returned, for every size, with the colour (0, 0, 0) at every point. *)
Theorem C7_empty_colour board size :
  (∀ m pt pa pb c,
     compute_influence board size = Some m → m !! pt = Some (pa, pb, c) →
     ((∀ s, ("b"%string, s) ∉ list_occupied_points board) → pa = F64.lit_0_0) ∧
     ((∀ s, ("w"%string, s) ∉ list_occupied_points board) → pb = F64.lit_0_0)) ∧
  ((∀ s, ("b"%string, s) ∉ list_occupied_points board) →
   (∀ s, ("w"%string, s) ∉ list_occupied_points board) →
   ∃ m, compute_influence board size = Some m ∧
        (∀ c r, 0 <= c < size → 0 <= r < size →
                m !! (c, r) = Some (F64.lit_0_0, F64.lit_0_0, (0, 0, 0))) ∧
        (∀ pt e, m !! pt = Some e → e.2 = (0, 0, 0))).
Proof.
  split.
  - intros m pt pa pb c H Hl.
    destruct (compute_influence_entry_inv _ _ _ _ _ _ _ H Hl) as (_ & Ha & Hb & _).
    split; intros Hemp; eapply stone_pct_no_stone; eassumption.
  - intros Hb Hw.
    assert (Hpt : ∀ pt, point_influence (stones_of "b" (list_occupied_points board))
                          (stones_of "w" (list_occupied_points board)) pt
                        = Some (F64.lit_0_0, F64.lit_0_0, (0, 0, 0))).
    { intros pt. rewrite (stones_of_no_stone _ _ Hb), (stones_of_no_stone _ _ Hw).
      reflexivity. }
    destruct (for_each_store_total
                (point_influence (stones_of "b" (list_occupied_points board))
                   (stones_of "w" (list_occupied_points board)))
                (grid size)) with (m0 := (∅ : gmap point entry)) as [m Hm].
    { intros pt _. rewrite Hpt. eauto. }
    rewrite <- compute_influence_grid in Hm. exists m. split; [exact Hm|]. split.
    + intros c r Hc Hr. rewrite (compute_influence_lookup _ _ _ _ Hm).
      rewrite decide_True by (apply elem_of_grid; auto). apply Hpt.
    + intros pt e He. apply (compute_influence_entry _ _ _ _ _ Hm) in He as [_ He].
      rewrite Hpt in He. inversion He. reflexivity.
Qed.

(** C8: with the stones fixed, a point at least as far from the nearest
    stone of a colour as another point has at most that point's percentage
    of the colour, by the values and by the comparison of floats. *)
Theorem C8_farther_never_more board size m p q pa pb c qa qb c' :
  compute_influence board size = Some m →
  m !! p = Some (pa, pb, c) → m !! q = Some (qa, qb, c') →
  (∀ dp dq,
     nearest_dist (list_occupied_points board) "b" p dp →
     nearest_dist (list_occupied_points board) "b" q dq →
     dq <= dp → (F64.to_Q pa <= F64.to_Q qa)%Q ∧ F64.leb pa qa = true) ∧
  (∀ dp dq,
     nearest_dist (list_occupied_points board) "w" p dp →
     nearest_dist (list_occupied_points board) "w" q dq →
     dq <= dp → (F64.to_Q pb <= F64.to_Q qb)%Q ∧ F64.leb pb qb = true).
Proof.
  intros H Hp Hq.
  destruct (compute_influence_entry_inv _ _ _ _ _ _ _ H Hp) as (_ & Ha & Hb & _).
  destruct (compute_influence_entry_inv _ _ _ _ _ _ _ H Hq) as (_ & Ha' & Hb' & _).
  assert (Hcol : ∀ col x y dp dq,
            stone_pct (stones_of col (list_occupied_points board)) p = Some x →
            stone_pct (stones_of col (list_occupied_points board)) q = Some y →
            nearest_dist (list_occupied_points board) col p dp →
            nearest_dist (list_occupied_points board) col q dq →
            dq <= dp → (F64.to_Q x <= F64.to_Q y)%Q ∧ F64.leb x y = true).
  { intros col x y dp dq Hx Hy Hdp Hdq Hle.
    pose proof (stone_pct_percentage _ _ _ _ Hx) as Hpx.
    pose proof (stone_pct_percentage _ _ _ _ Hy) as Hpy.
    assert (HQ : (F64.to_Q x <= F64.to_Q y)%Q);
      [|split; [exact HQ|exact (percentage_leb x y Hpx Hpy HQ)]].
    apply stone_pct_cases in Hx as [[Hemp _]|(d & Hd & Hx)].
    { exfalso. destruct Hdp as [(s & Hs & _) _]. exact (Hemp s Hs). }
    apply stone_pct_cases in Hy as [[Hemp _]|(d' & Hd' & Hy)].
    { exfalso. destruct Hdq as [(s & Hs & _) _]. exact (Hemp s Hs). }
    rewrite (nearest_dist_unique _ _ _ _ _ Hd Hdp) in Hx.
    rewrite (nearest_dist_unique _ _ _ _ _ Hd' Hdq) in Hy.
    apply (pct_of_dist_antitone dq dp); [|exact Hy|exact Hx].
    split; [eapply nearest_dist_nonneg; exact Hdq|exact Hle]. }
  split; intros dp dq; eapply Hcol; eassumption.
Qed.

(** C9: exchanging the stones of the two colours exchanges the two
    percentages and the red and green channels at every point; the blue
    channel is 0 in every entry. *)
Theorem C9_swap_colours board size :
  compute_influence (swap_board board) size
    = fmap (M:=option) (fmap (M:=gmap point) swap_entry)
        (compute_influence board size) ∧
  (∀ m pt pa pb r g b,
     compute_influence board size = Some m →
     m !! pt = Some (pa, pb, (r, g, b)) → b = 0).
Proof.
  split.
  - rewrite !compute_influence_grid. unfold swap_board. simpl.
    destruct (stones_of_swap (list_occupied_points board)) as [-> ->].
    rewrite <- (fmap_empty swap_entry) at 1.
    apply for_each_store_fmap. intros pt. apply point_influence_swap.
  - intros m pt pa pb r g b H Hl.
    destruct (compute_influence_entry_inv _ _ _ _ _ _ _ H Hl) as (_ & _ & _ & Hc).
    unfold colour_from_percentages in Hc.
    destruct (F64.round (F64.mul pb F64.lit_2_55)); [|discriminate].
    destruct (F64.round (F64.mul pa F64.lit_2_55)); [|discriminate].
    simpl in Hc. congruence.
Qed.

(** C10: a stone added to the board never lowers a percentage at any
    point: the percentage of its own colour is at least what it was (the
    one of the other colour is computed from the same stones as before),
    by the values and by the comparison of floats. *)
Theorem C10_added_stone_never_less occ1 occ2 col s size m m' pt pa pb c pa' pb' c' :
  compute_influence {| list_occupied_points := occ1 ++ occ2 |} size = Some m →
  compute_influence {| list_occupied_points := occ1 ++ ((col, s) :: occ2) |} size
    = Some m' →
  m !! pt = Some (pa, pb, c) → m' !! pt = Some (pa', pb', c') →
  ((F64.to_Q pa <= F64.to_Q pa')%Q ∧ F64.leb pa pa' = true) ∧
  ((F64.to_Q pb <= F64.to_Q pb')%Q ∧ F64.leb pb pb' = true).
Proof.
  intros H H' Hl Hl'.
  destruct (compute_influence_entry_inv _ _ _ _ _ _ _ H Hl) as (_ & Ha & Hb & _).
  destruct (compute_influence_entry_inv _ _ _ _ _ _ _ H' Hl') as (_ & Ha' & Hb' & _).
  simpl in *.
  assert (Hsub : ∀ k t, (k, t) ∈ occ1 ++ occ2 → (k, t) ∈ occ1 ++ ((col, s) :: occ2)).
  { intros k t. rewrite !elem_of_app, elem_of_cons. tauto. }
  pose proof (stone_pct_more_stones _ _ "b" pt pa pa' (Hsub "b"%string) Ha Ha') as HQa.
  pose proof (stone_pct_more_stones _ _ "w" pt pb pb' (Hsub "w"%string) Hb Hb') as HQb.
  apply stone_pct_percentage in Ha, Ha', Hb, Hb'.
  split; (split; [assumption|apply percentage_leb; assumption]).
Qed.

(** No exception on well-formed input: on a board whose stones are all on
    the grid, and whose side keeps every distance convertible to float,
    [compute_influence] returns its dictionary, and every point of the grid
    has its entry there. *)
Theorem compute_influence_returns board size :
  on_board size board → 2 * size - 1 <= float_max_int →
  ∃ m, compute_influence board size = Some m ∧
       ∀ c r, 0 <= c < size → 0 <= r < size → is_Some (m !! (c, r)).
Proof.
  intros Hon Hmax. destruct (compute_influence_total board size Hon Hmax) as [m Hm].
  exists m. split; [exact Hm|]. intros c r Hc Hr.
  apply (compute_influence_is_Some board size m (c, r) Hm), elem_of_grid. auto.
Qed.

(** ** Instances of the properties *)

Lemma C1_witness :
  1 <= 2 ∧ compute_influence corner_board 2 = Some corner_map_2 ∧
  0 <= 1 < 2 ∧ 0 <= 1 < 2 ∧
  ∃ pa pb col,
    corner_map_2 !! (1, 1) = Some (pa, pb, col) ∧
    pct_rule (list_occupied_points corner_board) "b" (1, 1) pa ∧
    pct_rule (list_occupied_points corner_board) "w" (1, 1) pb.
Proof.
  split; [lia|]. split; [exact compute_corner_2|]. split; [lia|]. split; [lia|].
  apply (C1_percentage_rule corner_board 2 corner_map_2 1 1);
    [lia|exact compute_corner_2|lia|lia].
Defined.

Lemma C2_witness :
  percentage f_33 ∧ percentage f_50 ∧
  colour_from_percentages f_33 f_50 = blend f_33 f_50 ∧
  ∃ red green,
    F64.round (F64.mul f_50 F64.lit_2_55) = Some red ∧
    nearest_even (F64.to_Q (F64.mul f_50 F64.lit_2_55)) red ∧
    F64.round (F64.mul f_33 F64.lit_2_55) = Some green ∧
    nearest_even (F64.to_Q (F64.mul f_33 F64.lit_2_55)) green ∧
    colour_from_percentages f_33 f_50
      = Some (clamp red 0 255, clamp green 0 255, 0).
Proof.
  assert (H33 : percentage f_33)
    by (split; [reflexivity|split; [reflexivity|split; vm_compute; discriminate]]).
  assert (H50 : percentage f_50)
    by (split; [reflexivity|split; [reflexivity|split; vm_compute; discriminate]]).
  split; [exact H33|]. split; [exact H50|].
  exact (C2_blend f_33 f_50 H33 H50).
Defined.

Lemma C4_witness :
  1 <= 2 ∧
  (∀ m, compute_influence corner_board 2 = Some m →
        (∀ c r, is_Some (m !! (c, r)) ↔ (0 <= c < 2 ∧ 0 <= r < 2)) ∧
        Z.of_nat (base.size m) = 2 * 2) ∧
  (on_board 2 corner_board → 2 * 2 - 1 <= float_max_int →
   ∃ m, compute_influence corner_board 2 = Some m).
Proof.
  split; [lia|]. apply (C4_one_entry_per_point corner_board 2). lia.
Defined.

Lemma C5_witness :
  compute_influence corner_board 2 = Some corner_map_2 ∧
  corner_map_2 !! (1, 1) = Some (f_33, F64.lit_0_0, (0, 85, 0)) ∧
  (percentage f_33 ∧
   F64.leb F64.lit_0_0 f_33 = true ∧ F64.leb f_33 F64.lit_100_0 = true) ∧
  (percentage F64.lit_0_0 ∧
   F64.leb F64.lit_0_0 F64.lit_0_0 = true ∧
   F64.leb F64.lit_0_0 F64.lit_100_0 = true).
Proof.
  split; [exact compute_corner_2|]. split; [reflexivity|].
  apply (C5_percentages_in_range corner_board 2 corner_map_2 (1, 1) f_33
           F64.lit_0_0 (0, 85, 0)); [exact compute_corner_2|reflexivity].
Defined.

Lemma C6_witness :
  compute_influence corner_board 2 = Some corner_map_2 ∧
  corner_map_2 !! (0, 0) = Some (F64.lit_100_0, F64.lit_0_0, (0, 255, 0)) ∧
  ("b"%string, (0, 0)) ∈ list_occupied_points corner_board ∧
  (("w"%string, (0, 0)) ∉ list_occupied_points corner_board) ∧
  F64.lit_100_0 = F64.lit_100_0 ∧ (F64.to_Q F64.lit_100_0 == 100)%Q ∧ 255 = 255.
Proof.
  assert (Hb : ("b"%string, (0, 0)) ∈ list_occupied_points corner_board)
    by (apply elem_of_cons; auto).
  split; [exact compute_corner_2|]. split; [reflexivity|].
  split; [exact Hb|]. split; [apply corner_no_white|].
  apply (C6_stone_point_is_full corner_board 2 corner_map_2 (0, 0)
           F64.lit_100_0 F64.lit_0_0 0 255 0);
    [exact compute_corner_2|reflexivity|exact Hb|apply corner_no_white].
Defined.

Lemma C8_witness :
  compute_influence corner_board 2 = Some corner_map_2 ∧
  corner_map_2 !! (1, 1) = Some (f_33, F64.lit_0_0, (0, 85, 0)) ∧
  corner_map_2 !! (1, 0) = Some (f_50, F64.lit_0_0, (0, 127, 0)) ∧
  nearest_dist (list_occupied_points corner_board) "b" (1, 1) 2 ∧
  nearest_dist (list_occupied_points corner_board) "b" (1, 0) 1 ∧
  1 <= 2 ∧ (F64.to_Q f_33 <= F64.to_Q f_50)%Q ∧ F64.leb f_33 f_50 = true.
Proof.
  split; [exact compute_corner_2|]. split; [reflexivity|]. split; [reflexivity|].
  split; [exact (nearest_dist_corner (1, 1))|].
  split; [exact (nearest_dist_corner (1, 0))|]. split; [lia|].
  apply (proj1 (C8_farther_never_more corner_board 2 corner_map_2 (1, 1) (1, 0)
                  f_33 F64.lit_0_0 (0, 85, 0) f_50 F64.lit_0_0 (0, 127, 0)
                  compute_corner_2 eq_refl eq_refl) 2 1);
    [exact (nearest_dist_corner (1, 1))|exact (nearest_dist_corner (1, 0))|lia].
Defined.

Lemma C10_witness :
  compute_influence {| list_occupied_points := [("b"%string, (0, 0))] ++ [] |} 2
    = Some corner_map_2 ∧
  compute_influence
    {| list_occupied_points :=
         [("b"%string, (0, 0))] ++ (("b"%string, (1, 1)) :: []) |} 2
    = Some diagonal_map_2 ∧
  corner_map_2 !! (1, 1) = Some (f_33, F64.lit_0_0, (0, 85, 0)) ∧
  diagonal_map_2 !! (1, 1) = Some (F64.lit_100_0, F64.lit_0_0, (0, 255, 0)) ∧
  ((F64.to_Q f_33 <= F64.to_Q F64.lit_100_0)%Q ∧
   F64.leb f_33 F64.lit_100_0 = true) ∧
  ((F64.to_Q F64.lit_0_0 <= F64.to_Q F64.lit_0_0)%Q ∧
   F64.leb F64.lit_0_0 F64.lit_0_0 = true).
Proof.
  split; [exact compute_corner_2|]. split; [exact compute_diagonal_2|].
  split; [reflexivity|]. split; [reflexivity|].
  apply (C10_added_stone_never_less [("b"%string, (0, 0))] [] "b" (1, 1) 2
           corner_map_2 diagonal_map_2 (1, 1) f_33 F64.lit_0_0 (0, 85, 0)
           F64.lit_100_0 F64.lit_0_0 (0, 255, 0));
    [exact compute_corner_2|exact compute_diagonal_2|reflexivity|reflexivity].
Defined.

Lemma compute_influence_returns_witness :
  on_board 2 corner_board ∧ 2 * 2 - 1 <= float_max_int ∧
  ∃ m, compute_influence corner_board 2 = Some m ∧
       ∀ c r, 0 <= c < 2 → 0 <= r < 2 → is_Some (m !! (c, r)).
Proof.
  assert (Hon : on_board 2 corner_board) by (apply on_board_corner; lia).
  assert (Hmax : 2 * 2 - 1 <= float_max_int) by (vm_compute; discriminate).
  split; [exact Hon|]. split; [exact Hmax|].
  exact (compute_influence_returns corner_board 2 Hon Hmax).
Defined.

(** * Further properties of the influence engine *)

Section Channels.

(** The product with [2.55] of a percentage: finite, between 0 and 255, and
    monotone. *)
Lemma mul_2_55_value p :
  percentage p →
  F64.is_finite (F64.mul p F64.lit_2_55) = true ∧
  (0 <= F64.to_Q (F64.mul p F64.lit_2_55) ∧
   F64.to_Q (F64.mul p F64.lit_2_55) <= 255)%Q.
Proof.
  intros Hp. pose proof Hp as (_ & Hfin & H0 & H100).
  pose proof (mul_2_55_finite p Hfin (conj H0 H100)) as Hf. split; [exact Hf|].
  destruct p as [s|s| |s m e]; try discriminate.
  - simpl. lra.
  - pose proof (percentage_nonneg_float _ Hp) as Hn. destruct s; [contradiction|].
    pose proof (mul_rounds m e 5742089524897382 (-51) eq_refl) as H.
    pose proof (mul_rounds 7036874417766400 (-46) 5742089524897382 (-51) eq_refl) as H'.
    fold F64.lit_100_0 F64.lit_2_55 in H, H'.
    assert (Hle : (F64.to_Q (S754_finite false m e) * F64.to_Q F64.lit_2_55
                   <= F64.to_Q F64.lit_100_0 * F64.to_Q F64.lit_2_55)%Q).
    { rewrite to_Q_lit_100_0.
      assert (0 <= F64.to_Q F64.lit_2_55)%Q by (vm_compute; discriminate).
      nra. }
    destruct (rounds_to_le _ _ _ _ H H' Hle eq_refl) as [_ Hv].
    destruct (rounds_to_finite _ _ H Hf) as (_ & _ & _ & _ & _ & Hb).
    assert (F64.to_Q (F64.mul F64.lit_100_0 F64.lit_2_55) <= 255)%Q
      by (vm_compute; discriminate).
    lra.
Qed.

Lemma mul_2_55_mono p q :
  percentage p → percentage q → (F64.to_Q p <= F64.to_Q q)%Q →
  (F64.to_Q (F64.mul p F64.lit_2_55) <= F64.to_Q (F64.mul q F64.lit_2_55))%Q.
Proof.
  intros Hp Hq Hle.
  destruct (mul_2_55_value p Hp) as (Hfp & Hp0 & _).
  destruct (mul_2_55_value q Hq) as (Hfq & Hq0 & _).
  pose proof (percentage_nonneg_float _ Hp) as Hnp.
  pose proof (percentage_nonneg_float _ Hq) as Hnq.
  destruct p as [s|s| |s m e]; try contradiction.
  - assert (E : (F64.to_Q (F64.mul (S754_zero s) F64.lit_2_55) == 0)%Q) by reflexivity.
    lra.
  - destruct s; [contradiction|].
    destruct q as [s'|s'| |s' m' e']; try contradiction.
    + exfalso. rewrite to_Q_pos in Hle. simpl in Hle. pose proof (pow2_pos e).
      assert (0 < inject_Z (Z.pos m))%Q by (rewrite <- (Zlt_Qlt 0); lia).
      nra.
    + destruct s'; [contradiction|].
      pose proof (mul_rounds m e 5742089524897382 (-51) eq_refl) as H.
      pose proof (mul_rounds m' e' 5742089524897382 (-51) eq_refl) as H'.
      fold F64.lit_2_55 in H, H'.
      assert (0 <= F64.to_Q F64.lit_2_55)%Q by (vm_compute; discriminate).
      apply (rounds_to_le _ _ _ _ H H'); [nra|exact Hfq].
Qed.

(** The integer a percentage is rounded to after the scaling. *)
Lemma round_mul_2_55 p :
  percentage p →
  ∃ z, F64.round (F64.mul p F64.lit_2_55) = Some z ∧ 0 <= z <= 255.
Proof.
  intros Hp. destruct (mul_2_55_value p Hp) as (Hf & H0 & H255).
  destruct (round_finite _ Hf) as [z Hz]. exists z. split; [exact Hz|].
  pose proof (round_nearest_even _ _ Hz) as Hn. split.
  - apply (nearest_even_ge_Z _ _ 0 Hn). exact H0.
  - apply (nearest_even_le_Z _ _ 255 Hn). exact H255.
Qed.

Lemma round_mul_2_55_mono p q zp zq :
  percentage p → percentage q → (F64.to_Q p <= F64.to_Q q)%Q →
  F64.round (F64.mul p F64.lit_2_55) = Some zp →
  F64.round (F64.mul q F64.lit_2_55) = Some zq → zp <= zq.
Proof.
  intros Hp Hq Hle Hzp Hzq.
  apply (nearest_even_mono _ _ _ _ (round_nearest_even _ _ Hzp) (round_nearest_even _ _ Hzq)).
  apply mul_2_55_mono; assumption.
Qed.

Lemma colour_from_percentages_inv pa pb r g b :
  colour_from_percentages pa pb = Some (r, g, b) →
  ∃ zr zg, F64.round (F64.mul pb F64.lit_2_55) = Some zr ∧
           F64.round (F64.mul pa F64.lit_2_55) = Some zg ∧
           r = Z.max 0 (Z.min 255 zr) ∧ g = Z.max 0 (Z.min 255 zg) ∧ b = 0.
Proof.
  unfold colour_from_percentages. intros H.
  destruct (F64.round (F64.mul pb F64.lit_2_55)) as [zr|]; [|discriminate].
  destruct (F64.round (F64.mul pa F64.lit_2_55)) as [zg|]; [|discriminate].
  simpl in H. inversion H. eauto 10.
Qed.

End Channels.

(** [manhattan] is a metric on the points. *)
Theorem manhattan_metric p q r :
  0 <= manhattan p q ∧ (manhattan p q = 0 ↔ p = q) ∧
  manhattan p q = manhattan q p ∧
  manhattan p r <= manhattan p q + manhattan q r.
Proof.
  destruct p as [p1 p2], q as [q1 q2], r as [r1 r2]. unfold manhattan. simpl.
  split; [lia|]. split; [|lia]. split.
  - intros H. f_equal; lia.
  - intros [= -> ->]. lia.
Qed.

(** The clamp of [colour_from_percentages] is never active on percentages:
    the channels are the rounded products themselves, which already are in
    the range of a byte. *)
Theorem clamp_inactive_on_percentages pa pb r g b :
  percentage pa → percentage pb →
  colour_from_percentages pa pb = Some (r, g, b) →
  F64.round (F64.mul pb F64.lit_2_55) = Some r ∧
  F64.round (F64.mul pa F64.lit_2_55) = Some g ∧
  0 <= r <= 255 ∧ 0 <= g <= 255 ∧ b = 0.
Proof.
  intros Ha Hb Hc.
  destruct (colour_from_percentages_inv _ _ _ _ _ Hc) as (zr & zg & Hr & Hg & -> & -> & ->).
  destruct (round_mul_2_55 pa Ha) as (zg' & Hg' & Hrange_g).
  destruct (round_mul_2_55 pb Hb) as (zr' & Hr' & Hrange_r).
  rewrite Hr in Hr'. rewrite Hg in Hg'. inversion Hr'; inversion Hg'; subst.
  rewrite Hr, Hg. repeat split; try lia; f_equal; lia.
Qed.

(** Whatever floats it is given, the channels [colour_from_percentages]
    returns are bytes, and it raises only when a product is not finite. *)
Theorem colour_channels_are_bytes pa pb :
  (∀ r g b, colour_from_percentages pa pb = Some (r, g, b) →
            0 <= r <= 255 ∧ 0 <= g <= 255 ∧ b = 0) ∧
  (colour_from_percentages pa pb = None ↔
   F64.is_finite (F64.mul pb F64.lit_2_55) = false ∨
   F64.is_finite (F64.mul pa F64.lit_2_55) = false).
Proof.
  split.
  - intros r g b Hc.
    destruct (colour_from_percentages_inv _ _ _ _ _ Hc) as (zr & zg & _ & _ & -> & -> & ->).
    lia.
  - unfold colour_from_percentages.
    destruct (F64.mul pb F64.lit_2_55) as [s|s| |s m e];
      destruct (F64.mul pa F64.lit_2_55) as [s'|s'| |s' m' e']; simpl;
      split; intros H; try discriminate; try reflexivity; auto;
      destruct H; discriminate.
Qed.

Section StoneSets.

Lemma py_min_set_ext l l' : (∀ x, x ∈ l ↔ x ∈ l') → py_min l = py_min l'.
Proof.
  intros H. destruct l as [|x l], l' as [|x' l'].
  - reflexivity.
  - exfalso. apply (not_elem_of_nil x'), H, elem_of_cons. auto.
  - exfalso. apply (not_elem_of_nil x), H, elem_of_cons. auto.
  - destruct (py_min (x :: l)) as [d|] eqn:E; [|discriminate].
    destruct (py_min (x' :: l')) as [d'|] eqn:E'; [|discriminate].
    apply py_min_spec in E as [Hin Hmin], E' as [Hin' Hmin'].
    f_equal. apply Z.le_antisymm; [apply Hmin, H, Hin'|apply Hmin', H, Hin].
Qed.

Lemma stone_pct_set_ext l l' pt :
  (∀ s, s ∈ l ↔ s ∈ l') → stone_pct l pt = stone_pct l' pt.
Proof.
  intros H.
  assert (Hm : py_min (manhattan pt <$> l) = py_min (manhattan pt <$> l')).
  { apply py_min_set_ext. intros x. rewrite !list_elem_of_fmap.
    split; intros (s & -> & Hs); exists s; (split; [reflexivity|apply H, Hs]). }
  destruct l as [|s l], l' as [|s' l'].
  - reflexivity.
  - exfalso. apply (not_elem_of_nil s'), H, elem_of_cons. auto.
  - exfalso. apply (not_elem_of_nil s), H, elem_of_cons. auto.
  - unfold stone_pct. rewrite Hm. reflexivity.
Qed.

(** Moving every stone and the point by a map that keeps the distances
    does not change what is computed at the point. *)
Lemma stones_of_move (φ : point → point) c occupied :
  stones_of c ((λ cp, (cp.1, φ cp.2)) <$> occupied) = φ <$> stones_of c occupied.
Proof.
  induction occupied as [|[c' s] occ IH]; [reflexivity|].
  rewrite fmap_cons, !stones_of_cons. simpl.
  destruct (String.eqb c' c); [rewrite fmap_cons|]; rewrite IH; reflexivity.
Qed.

Lemma stone_pct_move (φ : point → point) l pt :
  (∀ p q, manhattan (φ p) (φ q) = manhattan p q) →
  stone_pct (φ <$> l) (φ pt) = stone_pct l pt.
Proof.
  intros Hφ.
  assert (Hm : manhattan (φ pt) <$> (φ <$> l) = manhattan pt <$> l).
  { rewrite <- list_fmap_compose. apply list_fmap_ext. intros i s _. apply Hφ. }
  destruct l as [|s l]; [reflexivity|].
  rewrite !fmap_cons in Hm. rewrite fmap_cons. unfold stone_pct.
  rewrite !fmap_cons, Hm. reflexivity.
Qed.

Lemma compute_influence_move (φ : point → point) board size :
  (∀ p q, manhattan (φ p) (φ q) = manhattan p q) →
  (∀ p, φ (φ p) = p) →
  (∀ p, φ p ∈ grid size ↔ p ∈ grid size) →
  (is_Some (compute_influence
              {| list_occupied_points :=
                   (λ cp, (cp.1, φ cp.2)) <$> list_occupied_points board |} size)
   ↔ is_Some (compute_influence board size)) ∧
  (∀ m m' pt,
     compute_influence board size = Some m →
     compute_influence
       {| list_occupied_points :=
            (λ cp, (cp.1, φ cp.2)) <$> list_occupied_points board |} size = Some m' →
     m' !! φ pt = m !! pt).
Proof.
  intros Hdist Hinv Hgrid.
  assert (Hpi : ∀ pt,
            point_influence
              (stones_of "b" ((λ cp, (cp.1, φ cp.2)) <$> list_occupied_points board))
              (stones_of "w" ((λ cp, (cp.1, φ cp.2)) <$> list_occupied_points board))
              (φ pt)
            = point_influence (stones_of "b" (list_occupied_points board))
                (stones_of "w" (list_occupied_points board)) pt).
  { intros pt. rewrite !stones_of_move. unfold point_influence.
    rewrite !stone_pct_move by exact Hdist. reflexivity. }
  split.
  - rewrite !compute_influence_grid. cbn [list_occupied_points]. split; intros [m Hm];
      apply for_each_store_lookup in Hm as [Hall _];
      apply for_each_store_total; intros pt Hin.
    + rewrite <- Hpi. apply Hall, Hgrid, Hin.
    + rewrite <- (Hinv pt), Hpi. apply Hall, Hgrid, Hin.
  - intros m m' pt Hm Hm'.
    rewrite (compute_influence_lookup _ _ _ _ Hm), (compute_influence_lookup _ _ _ _ Hm').
    cbn [list_occupied_points]. rewrite Hpi.
    destruct (decide (pt ∈ grid size)) as [Hin|Hnin].
    + rewrite !decide_True by first [exact Hin|apply Hgrid; exact Hin]. reflexivity.
    + rewrite !decide_False by first [exact Hnin|rewrite Hgrid; exact Hnin].
      reflexivity.
Qed.

Lemma manhattan_transpose p q : manhattan (transpose p) (transpose q) = manhattan p q.
Proof. unfold manhattan, transpose. simpl. lia. Qed.

Lemma transpose_involutive p : transpose (transpose p) = p.
Proof. destruct p. reflexivity. Qed.

Lemma transpose_grid size pt : transpose pt ∈ grid size ↔ pt ∈ grid size.
Proof. destruct pt as [c r]. unfold transpose. simpl. rewrite !elem_of_grid. tauto. Qed.

Lemma manhattan_mirror size p q :
  manhattan (mirror size p) (mirror size q) = manhattan p q.
Proof. unfold manhattan, mirror. simpl. lia. Qed.

Lemma mirror_involutive size p : mirror size (mirror size p) = p.
Proof. destruct p. unfold mirror. simpl. f_equal. lia. Qed.

Lemma mirror_grid size pt : mirror size pt ∈ grid size ↔ pt ∈ grid size.
Proof.
  destruct pt as [c r]. unfold mirror. simpl. rewrite !elem_of_grid. lia.
Qed.

End StoneSets.

Section Fading.

(** The float percentages at the distances 1 and 508 and their channels. *)
Lemma pct_of_dist_1 :
  pct_of_dist 1 = Some f_50 ∧ F64.round (F64.mul f_50 F64.lit_2_55) = Some 127.
Proof. split; vm_compute; reflexivity. Qed.

Lemma pct_of_dist_508 :
  ∃ q, pct_of_dist 508 = Some q ∧ F64.round (F64.mul q F64.lit_2_55) = Some 1.
Proof. eexists. split; vm_compute; reflexivity. Qed.

Lemma pct_of_dist_percentage d p : 0 <= d → pct_of_dist d = Some p → percentage p.
Proof.
  intros Hd H. split; [exact (pct_of_dist_valid d p Hd H)|].
  exact (pct_of_dist_range d p Hd H).
Qed.

(** The channel of a colour at a point, from the stones of the colour. *)
Lemma channel_cases occupied c pt p z :
  stone_pct (stones_of c occupied) pt = Some p →
  F64.round (F64.mul p F64.lit_2_55) = Some z →
  ((∀ s, (c, s) ∉ occupied) ∧ z = 0) ∨
  ((c, pt) ∈ occupied ∧ z = 255) ∨
  (((c, pt) ∉ occupied) ∧ 0 <= z <= 127 ∧ ∃ s, (c, s) ∈ occupied).
Proof.
  intros Hp Hz. pose proof Hp as Hcases.
  apply stone_pct_cases in Hcases as [[Hemp ->]|(d & Hd & Hpd)].
  - left. split; [exact Hemp|]. vm_compute in Hz. congruence.
  - right. pose proof (nearest_dist_nonneg _ _ _ _ Hd) as Hd0.
    destruct Hd as [(s & Hs & Hds) Hmin].
    destruct (decide (d = 0)) as [->|Hne].
    + left. assert (s = pt) as ->.
      { destruct s, pt. unfold manhattan in Hds. simpl in Hds. f_equal; lia. }
      split; [exact Hs|].
      rewrite (stone_pct_on_stone _ _ _ _ Hp Hs) in Hz. vm_compute in Hz. congruence.
    + right. split.
      { intros Hin. apply Hmin in Hin. rewrite manhattan_self in Hin. lia. }
      split; [|eauto].
      destruct pct_of_dist_1 as [H1 Hr1].
      pose proof (pct_of_dist_percentage d p Hd0 Hpd) as Hperc.
      pose proof (pct_of_dist_percentage 1 f_50 ltac:(lia) H1) as Hperc1.
      destruct (round_mul_2_55 p Hperc) as (z' & Hz' & Hrange).
      rewrite Hz in Hz'. inversion Hz'; subst z'. split; [lia|].
      apply (round_mul_2_55_mono p f_50 z 127 Hperc Hperc1); [|exact Hz|exact Hr1].
      apply (pct_of_dist_antitone 1 d); [lia|exact H1|exact Hpd].
Qed.

End Fading.

(** The result depends on the board only through the set of its black
    stones and the set of its white stones: the order of the occupied
    points, repetitions and entries of another colour make no difference,
    to the dictionary or to the exception. *)
Theorem compute_influence_stone_sets board board' size :
  (∀ s, ("b"%string, s) ∈ list_occupied_points board
        ↔ ("b"%string, s) ∈ list_occupied_points board') →
  (∀ s, ("w"%string, s) ∈ list_occupied_points board
        ↔ ("w"%string, s) ∈ list_occupied_points board') →
  compute_influence board size = compute_influence board' size.
Proof.
  intros Hb Hw. rewrite !compute_influence_grid.
  apply for_each_ext. intros pt m. unfold store_point, point_influence.
  rewrite (stone_pct_set_ext (stones_of "b" (list_occupied_points board))
             (stones_of "b" (list_occupied_points board')) pt)
    by (intros s; rewrite !elem_of_stones_of; apply Hb).
  rewrite (stone_pct_set_ext (stones_of "w" (list_occupied_points board))
             (stones_of "w" (list_occupied_points board')) pt)
    by (intros s; rewrite !elem_of_stones_of; apply Hw).
  reflexivity.
Qed.

(** Exchanging the two coordinates of every stone exchanges the two
    coordinates of the map: the transposed board raises exactly when the
    board does, and its entry at (r, c) is the entry of the board at
    (c, r). *)
Theorem compute_influence_transpose board size :
  (is_Some (compute_influence (transpose_board board) size)
   ↔ is_Some (compute_influence board size)) ∧
  (∀ m m' c r,
     compute_influence board size = Some m →
     compute_influence (transpose_board board) size = Some m' →
     m' !! (r, c) = m !! (c, r)).
Proof.
  destruct (compute_influence_move transpose board size manhattan_transpose
              transpose_involutive (transpose_grid size)) as [Hsome Hlook].
  split; [exact Hsome|]. intros m m' c r Hm Hm'.
  exact (Hlook m m' (c, r) Hm Hm').
Qed.

(** Mirroring the stones left to right mirrors the influence map: the
    mirrored board raises exactly when the board does, and its entry at
    (size - 1 - c, r) is the entry of the board at (c, r). *)
Theorem compute_influence_mirror board size :
  (is_Some (compute_influence (mirror_board size board) size)
   ↔ is_Some (compute_influence board size)) ∧
  (∀ m m' c r,
     compute_influence board size = Some m →
     compute_influence (mirror_board size board) size = Some m' →
     m' !! (size - 1 - c, r) = m !! (c, r)).
Proof.
  destruct (compute_influence_move (mirror size) board size (manhattan_mirror size)
              (mirror_involutive size) (mirror_grid size)) as [Hsome Hlook].
  split; [exact Hsome|]. intros m m' c r Hm Hm'.
  exact (Hlook m m' (c, r) Hm Hm').
Qed.

(** The entry of a point does not depend on the size of the board: the
    maps computed for two sizes agree on the smaller grid.  Stones outside
    the grid are not rejected, they count like the others. *)
Theorem compute_influence_size_independent board size size' m m' c r :
  compute_influence board size = Some m →
  compute_influence board size' = Some m' →
  size <= size' → 0 <= c < size → 0 <= r < size →
  m !! (c, r) = m' !! (c, r) ∧ is_Some (m !! (c, r)).
Proof.
  intros Hm Hm' Hle Hc Hr. split.
  - rewrite (compute_influence_lookup _ _ _ _ Hm), (compute_influence_lookup _ _ _ _ Hm').
    rewrite !decide_True by (apply elem_of_grid; lia). reflexivity.
  - apply (compute_influence_is_Some board size m (c, r) Hm), elem_of_grid. auto.
Qed.

(** The colour tells which side is nearer.  At a point where both colours
    have a stone: if the nearest black stone is at most as far as the
    nearest white one, green is at least red; at equal distances the two
    percentages and the two channels are equal; so a point that is more
    green than red is strictly nearer to a black stone than to any white
    one, and conversely for red. *)
Theorem colour_tells_the_nearer board size m pt pa pb r g b db dw :
  compute_influence board size = Some m →
  m !! pt = Some (pa, pb, (r, g, b)) →
  nearest_dist (list_occupied_points board) "b" pt db →
  nearest_dist (list_occupied_points board) "w" pt dw →
  (db <= dw → r <= g) ∧ (dw <= db → g <= r) ∧
  (db = dw → pa = pb ∧ r = g) ∧
  (r < g → db < dw) ∧ (g < r → dw < db).
Proof.
  intros H Hl Hdb Hdw.
  destruct (compute_influence_entry_inv _ _ _ _ _ _ _ H Hl) as (_ & Ha & Hb & Hc).
  pose proof (stone_pct_percentage _ _ _ _ Ha) as Hpa.
  pose proof (stone_pct_percentage _ _ _ _ Hb) as Hpb.
  destruct (colour_from_percentages_inv _ _ _ _ _ Hc) as (zr & zg & Hzr & Hzg & -> & -> & _).
  apply stone_pct_cases in Ha as [[Hemp _]|(d & Hd & Ha)].
  { exfalso. destruct Hdb as [(s & Hs & _) _]. exact (Hemp s Hs). }
  apply stone_pct_cases in Hb as [[Hemp _]|(d' & Hd' & Hb)].
  { exfalso. destruct Hdw as [(s & Hs & _) _]. exact (Hemp s Hs). }
  rewrite (nearest_dist_unique _ _ _ _ _ Hd Hdb) in Ha.
  rewrite (nearest_dist_unique _ _ _ _ _ Hd' Hdw) in Hb.
  pose proof (nearest_dist_nonneg _ _ _ _ Hdb) as Hdb0.
  pose proof (nearest_dist_nonneg _ _ _ _ Hdw) as Hdw0.
  assert (H1 : db <= dw → zr <= zg).
  { intros Hle. apply (round_mul_2_55_mono pb pa zr zg Hpb Hpa); [|exact Hzr|exact Hzg].
    apply (pct_of_dist_antitone db dw); [lia|exact Ha|exact Hb]. }
  assert (H2 : dw <= db → zg <= zr).
  { intros Hle. apply (round_mul_2_55_mono pa pb zg zr Hpa Hpb); [|exact Hzg|exact Hzr].
    apply (pct_of_dist_antitone dw db); [lia|exact Hb|exact Ha]. }
  split; [lia|]. split; [lia|]. split.
  - intros ->. assert (pa = pb) as -> by congruence. split; [reflexivity|].
    assert (zr = zg) by congruence. lia.
  - split; intros Hlt.
    + destruct (Z_lt_ge_dec db dw) as [?|Hge]; [assumption|].
      specialize (H2 ltac:(lia)). lia.
    + destruct (Z_lt_ge_dec dw db) as [?|Hge]; [assumption|].
      specialize (H1 ltac:(lia)). lia.
Qed.

(** The channels fade with the distance: between two points of one map,
    the one at least as far from the nearest black stone has at most the
    green of the other, and likewise the red for the white stones. *)
Theorem channels_fade_with_distance board size m p q pa pb r g b qa qb r' g' b' :
  compute_influence board size = Some m →
  m !! p = Some (pa, pb, (r, g, b)) → m !! q = Some (qa, qb, (r', g', b')) →
  (∀ dp dq,
     nearest_dist (list_occupied_points board) "b" p dp →
     nearest_dist (list_occupied_points board) "b" q dq →
     dq <= dp → g <= g') ∧
  (∀ dp dq,
     nearest_dist (list_occupied_points board) "w" p dp →
     nearest_dist (list_occupied_points board) "w" q dq →
     dq <= dp → r <= r').
Proof.
  intros H Hp Hq.
  destruct (compute_influence_entry_inv _ _ _ _ _ _ _ H Hp) as (_ & Ha & Hb & Hc).
  destruct (compute_influence_entry_inv _ _ _ _ _ _ _ H Hq) as (_ & Ha' & Hb' & Hc').
  pose proof (stone_pct_percentage _ _ _ _ Ha) as Hpa.
  pose proof (stone_pct_percentage _ _ _ _ Hb) as Hpb.
  pose proof (stone_pct_percentage _ _ _ _ Ha') as Hqa.
  pose proof (stone_pct_percentage _ _ _ _ Hb') as Hqb.
  destruct (colour_from_percentages_inv _ _ _ _ _ Hc) as (zr & zg & Hzr & Hzg & -> & -> & _).
  destruct (colour_from_percentages_inv _ _ _ _ _ Hc') as (zr' & zg' & Hzr' & Hzg' & -> & -> & _).
  assert (Hcol : ∀ col x y dp dq,
            stone_pct (stones_of col (list_occupied_points board)) p = Some x →
            stone_pct (stones_of col (list_occupied_points board)) q = Some y →
            nearest_dist (list_occupied_points board) col p dp →
            nearest_dist (list_occupied_points board) col q dq →
            dq <= dp → (F64.to_Q x <= F64.to_Q y)%Q).
  { intros col x y dp dq Hx Hy Hdp Hdq Hle.
    apply stone_pct_cases in Hx as [[Hemp _]|(d & Hd & Hx)].
    { exfalso. destruct Hdp as [(s & Hs & _) _]. exact (Hemp s Hs). }
    apply stone_pct_cases in Hy as [[Hemp _]|(d' & Hd' & Hy)].
    { exfalso. destruct Hdq as [(s & Hs & _) _]. exact (Hemp s Hs). }
    rewrite (nearest_dist_unique _ _ _ _ _ Hd Hdp) in Hx.
    rewrite (nearest_dist_unique _ _ _ _ _ Hd' Hdq) in Hy.
    apply (pct_of_dist_antitone dq dp); [|exact Hy|exact Hx].
    split; [eapply nearest_dist_nonneg; exact Hdq|exact Hle]. }
  split; intros dp dq Hdp Hdq Hle.
  - pose proof (Hcol _ _ _ _ _ Ha Ha' Hdp Hdq Hle) as HQ.
    pose proof (round_mul_2_55_mono _ _ _ _ Hpa Hqa HQ Hzg Hzg'). lia.
  - pose proof (Hcol _ _ _ _ _ Hb Hb' Hdp Hdq Hle) as HQ.
    pose proof (round_mul_2_55_mono _ _ _ _ Hpb Hqb HQ Hzr Hzr'). lia.
Qed.

(** A full channel marks a stone: the green channel of an entry is 255
    exactly at the points that carry a black stone, at most 127 at every
    other point, and 0 when the board has no black stone; likewise the red
    channel for the white stones. *)
Theorem full_channel_marks_stone board size m pt pa pb r g b :
  compute_influence board size = Some m →
  m !! pt = Some (pa, pb, (r, g, b)) →
  (g = 255 ↔ ("b"%string, pt) ∈ list_occupied_points board) ∧
  (("b"%string, pt) ∉ list_occupied_points board → 0 <= g <= 127) ∧
  ((∀ s, ("b"%string, s) ∉ list_occupied_points board) → g = 0) ∧
  (r = 255 ↔ ("w"%string, pt) ∈ list_occupied_points board) ∧
  (("w"%string, pt) ∉ list_occupied_points board → 0 <= r <= 127) ∧
  ((∀ s, ("w"%string, s) ∉ list_occupied_points board) → r = 0).
Proof.
  intros H Hl.
  destruct (compute_influence_entry_inv _ _ _ _ _ _ _ H Hl) as (_ & Ha & Hb & Hc).
  destruct (colour_from_percentages_inv _ _ _ _ _ Hc) as (zr & zg & Hzr & Hzg & -> & -> & _).
  pose proof (channel_cases _ _ _ _ _ Ha Hzg) as Hg.
  pose proof (channel_cases _ _ _ _ _ Hb Hzr) as Hr.
  repeat split.
  - intros E. destruct Hg as [[_ ->]|[[Hin _]|(_ & Hz & _)]]; [lia|exact Hin|lia].
  - intros Hin. destruct Hg as [[Hemp _]|[[_ ->]|(Hnin & _)]];
      [destruct (Hemp _ Hin)|reflexivity|contradiction].
  - destruct Hg as [[_ ->]|[[Hin _]|(_ & Hz & _)]]; [lia|contradiction|lia].
  - destruct Hg as [[_ ->]|[[Hin _]|(_ & Hz & _)]]; [lia|contradiction|lia].
  - intros Hemp. destruct Hg as [[_ ->]|[[Hin _]|(_ & _ & s & Hs)]];
      [reflexivity|destruct (Hemp _ Hin)|destruct (Hemp _ Hs)].
  - intros E. destruct Hr as [[_ ->]|[[Hin _]|(_ & Hz & _)]]; [lia|exact Hin|lia].
  - intros Hin. destruct Hr as [[Hemp _]|[[_ ->]|(Hnin & _)]];
      [destruct (Hemp _ Hin)|reflexivity|contradiction].
  - destruct Hr as [[_ ->]|[[Hin _]|(_ & Hz & _)]]; [lia|contradiction|lia].
  - destruct Hr as [[_ ->]|[[Hin _]|(_ & Hz & _)]]; [lia|contradiction|lia].
  - intros Hemp. destruct Hr as [[_ ->]|[[Hin _]|(_ & _ & s & Hs)]];
      [reflexivity|destruct (Hemp _ Hin)|destruct (Hemp _ Hs)].
Qed.

(** On the boards up to 255 by 255 the influence of a colour that has a
    stone on the grid is visible everywhere: its channel is at least 1 at
    every point.  The bound is sharp: on the 256 by 256 board with one black
    stone in a corner, the opposite corner has the colour (0, 0, 0). *)
Theorem influence_visible_up_to_255 :
  (∀ board size m pt pa pb r g b,
     size <= 255 → on_board size board →
     compute_influence board size = Some m →
     m !! pt = Some (pa, pb, (r, g, b)) →
     ((∃ s, ("b"%string, s) ∈ list_occupied_points board) → 1 <= g) ∧
     ((∃ s, ("w"%string, s) ∈ list_occupied_points board) → 1 <= r)) ∧
  (∃ m pa pb, compute_influence corner_board 256 = Some m ∧
              m !! (255, 255) = Some (pa, pb, (0, 0, 0))).
Proof.
  split.
  - intros board size m pt pa pb r g b Hsize Hon H Hl.
    destruct (compute_influence_entry_inv _ _ _ _ _ _ _ H Hl) as (Hgrid & Ha & Hb & Hc).
    destruct (colour_from_percentages_inv _ _ _ _ _ Hc) as (zr & zg & Hzr & Hzg & -> & -> & _).
    destruct pt as [c0 r0]. apply elem_of_grid in Hgrid as [Hc0 Hr0].
    assert (Hcol : ∀ col p z,
              stone_pct (stones_of col (list_occupied_points board)) (c0, r0) = Some p →
              F64.round (F64.mul p F64.lit_2_55) = Some z →
              (∃ s, (col, s) ∈ list_occupied_points board) → 1 <= z).
    { intros col p z Hp Hz [s Hs].
      pose proof (stone_pct_percentage _ _ _ _ Hp) as Hperc.
      apply stone_pct_cases in Hp as [[Hemp _]|(d & Hd & Hp)]; [destruct (Hemp _ Hs)|].
      pose proof (nearest_dist_nonneg _ _ _ _ Hd) as Hd0.
      destruct Hd as [_ Hmin]. pose proof (Hmin _ Hs) as Hle.
      destruct (Hon _ _ Hs) as [Hs1 Hs2].
      pose proof (manhattan_on_grid size c0 r0 s Hc0 Hr0 Hs1 Hs2) as Hman.
      destruct pct_of_dist_508 as (q & Hq & Hrq).
      pose proof (pct_of_dist_percentage 508 q ltac:(lia) Hq) as Hpercq.
      apply (round_mul_2_55_mono q p 1 z Hpercq Hperc); [|exact Hrq|exact Hz].
      apply (pct_of_dist_antitone d 508); [lia|exact Hp|exact Hq]. }
    split; intros Hex.
    + pose proof (Hcol _ _ _ Ha Hzg Hex). lia.
    + pose proof (Hcol _ _ _ Hb Hzr Hex). lia.
  - destruct (compute_influence_total corner_board 256) as [m Hm].
    { apply on_board_corner. lia. }
    { vm_compute. discriminate. }
    exists m. pose proof (compute_influence_lookup _ _ _ (255, 255) Hm) as Hl.
    rewrite decide_True in Hl by (apply elem_of_grid; lia).
    eexists _, _. split; [exact Hm|]. refine (eq_trans Hl _).
    vm_compute. reflexivity.
Qed.

Section Failure.

(** The distance to the nearest stone, as the loop body computes it. *)
Lemma stone_pct_dist occupied c pt :
  ((∀ s, (c, s) ∉ occupied) ∧
   stone_pct (stones_of c occupied) pt = Some F64.lit_0_0) ∨
  (∃ d, nearest_dist occupied c pt d ∧
        stone_pct (stones_of c occupied) pt = pct_of_dist d).
Proof.
  unfold stone_pct. destruct (stones_of c occupied) as [|s0 l] eqn:Hst.
  - left. split; [|reflexivity]. intros s Hin.
    apply elem_of_stones_of in Hin. rewrite Hst in Hin. by apply elem_of_nil in Hin.
  - right.
    destruct (py_min (manhattan pt <$> s0 :: l)) as [d|] eqn:Hd;
      [|rewrite fmap_cons in Hd; discriminate].
    exists d. split; [|reflexivity].
    apply py_min_spec in Hd as [Hin Hall]. split.
    + apply list_elem_of_fmap in Hin as (s & -> & Hs). exists s.
      split; [apply elem_of_stones_of; rewrite Hst; exact Hs|reflexivity].
    + intros s Hs. apply Hall, list_elem_of_fmap. exists s.
      split; [reflexivity|]. rewrite <- Hst. apply elem_of_stones_of. exact Hs.
Qed.

Lemma pct_of_dist_None d :
  0 <= d → (pct_of_dist d = None ↔ F64.of_int (d + 1) = None).
Proof.
  intros Hd. split.
  - intros H. destruct (F64.of_int (d + 1)) as [X|] eqn:HX; [|reflexivity].
    exfalso.
    destruct (of_int_rounds (d + 1) X ltac:(lia) HX) as [HXr HXf].
    destruct (rounds_to_shape _ _ HXr HXf) as (m & e & -> & _).
    { assert (1 <= inject_Z (d + 1))%Q by (rewrite <- (Zle_Qle 1); lia).
      assert (L : (pow2 (-1074) <= pow2 0)%Q) by (apply pow2_le; lia).
      rewrite pow2_0 in L. lra. }
    unfold pct_of_dist, F64.truediv_int in H. rewrite HX in H. discriminate.
  - intros H. unfold pct_of_dist, F64.truediv_int. rewrite H. reflexivity.
Qed.

Lemma stone_pct_None occupied c pt :
  stone_pct (stones_of c occupied) pt = None ↔
  ∃ d, nearest_dist occupied c pt d ∧ F64.of_int (d + 1) = None.
Proof.
  destruct (stone_pct_dist occupied c pt) as [[Hemp ->]|(d & Hd & ->)].
  - split; [discriminate|]. intros (d & [(s & Hs & _) _] & _). destruct (Hemp s Hs).
  - rewrite pct_of_dist_None by (eapply nearest_dist_nonneg; exact Hd). split.
    + intros H. exists d. auto.
    + intros (d' & Hd' & H'). rewrite (nearest_dist_unique _ _ _ _ _ Hd Hd'). exact H'.
Qed.

Lemma point_influence_None occupied pt :
  point_influence (stones_of "b" occupied) (stones_of "w" occupied) pt = None ↔
  stone_pct (stones_of "b" occupied) pt = None ∨
  stone_pct (stones_of "w" occupied) pt = None.
Proof.
  unfold point_influence.
  destruct (stone_pct (stones_of "b" occupied) pt) as [pa|] eqn:Ha; simpl; [|tauto].
  destruct (stone_pct (stones_of "w" occupied) pt) as [pb|] eqn:Hb; simpl; [|tauto].
  destruct (colour_from_percentages_total pa pb) as [c ->].
  - exact (stone_pct_percentage _ _ _ _ Ha).
  - exact (stone_pct_percentage _ _ _ _ Hb).
  - simpl. split; [discriminate|]. intros [H|H]; discriminate.
Qed.

Lemma for_each_store_None (f : point → option entry) pts m0 :
  for_each pts (store_point f) m0 = None ↔ ∃ pt, pt ∈ pts ∧ f pt = None.
Proof.
  revert m0. induction pts as [|x pts IH]; intros m0; simpl.
  - split; [discriminate|]. intros (pt & Hin & _). by apply elem_of_nil in Hin.
  - change (store_point f x m0) with (e ← f x; Some (<[x:=e]> m0)).
    destruct (f x) as [e|] eqn:Hx; simpl.
    + rewrite IH. split.
      * intros (pt & Hin & Hpt). exists pt. split; [apply elem_of_cons; auto|exact Hpt].
      * intros (pt & [->|Hin]%elem_of_cons & Hpt); [congruence|eauto].
    + split; [|reflexivity]. intros _. exists x. split; [apply list_elem_of_here|exact Hx].
Qed.

End Failure.

(** When [compute_influence] raises.  The only exception is the
    [OverflowError] of the conversion of [d + 1] to [float]: the function
    raises exactly when, at some point of the grid, the distance [d] to the
    nearest stone of one of the two colours has a [d + 1] that does not
    convert, and then [d + 1] is above the largest finite float.  [min] is
    never called on an empty sequence, the division is never by zero and
    [round] is never given an infinity or a NaN. *)
Theorem compute_influence_raises_iff board size :
  (compute_influence board size = None ↔
   ∃ c r col d,
     0 <= c < size ∧ 0 <= r < size ∧ (col = "b"%string ∨ col = "w"%string) ∧
     nearest_dist (list_occupied_points board) col (c, r) d ∧
     F64.of_int (d + 1) = None) ∧
  (∀ d, 0 <= d → F64.of_int (d + 1) = None → float_max_int < d + 1).
Proof.
  split.
  - rewrite compute_influence_grid, for_each_store_None. split.
    + intros ([c r] & Hin & Hpt). apply elem_of_grid in Hin as [Hc Hr].
      apply point_influence_None in Hpt as [H|H];
        apply stone_pct_None in H as (d & Hd & Hof); eauto 12.
    + intros (c & r & col & d & Hc & Hr & Hcol & Hd & Hof).
      exists (c, r). split; [apply elem_of_grid; auto|].
      apply point_influence_None.
      destruct Hcol as [-> | ->]; [left|right]; apply stone_pct_None; eauto.
  - intros d Hd Hof. destruct (Z_lt_ge_dec float_max_int (d + 1)) as [Hlt|Hge];
      [exact Hlt|].
    destruct (of_int_total (d + 1) ltac:(lia)) as [X HX]. congruence.
Qed.

(** * The rendering *)

Section Calls.

Lemma foldl_draw {A : Type} (f : A → draw_call) (l : list A) img :
  im_calls (foldl (λ img x, draw (f x) img) img l) = im_calls img ++ (f <$> l).
Proof.
  revert img. induction l as [|x l IH]; intros img; simpl.
  - rewrite app_nil_r. reflexivity.
  - rewrite IH. simpl. rewrite <- app_assoc. reflexivity.
Qed.

Lemma foldl_draw_frame {A : Type} (f : A → draw_call) (l : list A) img :
  im_mode (foldl (λ img x, draw (f x) img) img l) = im_mode img ∧
  im_size (foldl (λ img x, draw (f x) img) img l) = im_size img ∧
  im_color (foldl (λ img x, draw (f x) img) img l) = im_color img.
Proof.
  revert img. induction l as [|x l IH]; intros img; simpl; [auto|].
  destruct (IH (draw (f x) img)) as (-> & -> & ->). auto.
Qed.

Lemma foldl_ext_draw {A : Type} (f g : Image → A → Image) (l : list A) img :
  (∀ img x, f img x = g img x) → foldl f img l = foldl g img l.
Proof.
  intros H. revert img. induction l as [|x l IH]; intros img; simpl; [reflexivity|].
  rewrite H. apply IH.
Qed.

Lemma overlay_influence_calls img influence size cell_sz margin alpha :
  im_calls (overlay_influence img influence size cell_sz margin alpha)
  = im_calls img ++ (tile_call cell_sz margin alpha <$> influence).
Proof.
  unfold overlay_influence.
  rewrite (foldl_ext_draw _ (λ img x, draw (tile_call cell_sz margin alpha x) img)).
  - apply foldl_draw.
  - intros img' [[col row] [[pa pb] [[r g] b]]]. reflexivity.
Qed.

Lemma overlay_influence_frame img influence size cell_sz margin alpha :
  im_mode (overlay_influence img influence size cell_sz margin alpha) = im_mode img ∧
  im_size (overlay_influence img influence size cell_sz margin alpha) = im_size img ∧
  im_color (overlay_influence img influence size cell_sz margin alpha) = im_color img.
Proof.
  unfold overlay_influence.
  rewrite (foldl_ext_draw _ (λ img x, draw (tile_call cell_sz margin alpha x) img)).
  - apply foldl_draw_frame.
  - intros img' [[col row] [[pa pb] [[r g] b]]]. reflexivity.
Qed.

Lemma grid_loop_calls img size cell_sz margin (l : list Z) :
  im_calls
    (foldl (λ img i,
       draw (line (margin, margin + i * cell_sz, margin + (size - 1) * cell_sz,
                   margin + i * cell_sz) (255, 255, 255) 1)
         (draw (line (margin + i * cell_sz, margin, margin + i * cell_sz,
                      margin + (size - 1) * cell_sz) (255, 255, 255) 1) img))
       img l)
  = im_calls img ++
    (i ← l;
     [line (margin + i * cell_sz, margin, margin + i * cell_sz,
            margin + (size - 1) * cell_sz) (255, 255, 255) 1;
      line (margin, margin + i * cell_sz, margin + (size - 1) * cell_sz,
            margin + i * cell_sz) (255, 255, 255) 1]).
Proof.
  revert img. induction l as [|i l IH]; intros img; simpl.
  - rewrite app_nil_r. reflexivity.
  - rewrite IH. simpl. rewrite <- !app_assoc. reflexivity.
Qed.

Lemma grid_loop_frame img size cell_sz margin (l : list Z) :
  let img' :=
    foldl (λ img i,
       draw (line (margin, margin + i * cell_sz, margin + (size - 1) * cell_sz,
                   margin + i * cell_sz) (255, 255, 255) 1)
         (draw (line (margin + i * cell_sz, margin, margin + i * cell_sz,
                      margin + (size - 1) * cell_sz) (255, 255, 255) 1) img))
       img l in
  im_mode img' = im_mode img ∧ im_size img' = im_size img ∧
  im_color img' = im_color img.
Proof.
  revert img. induction l as [|i l IH]; intros img; simpl; [auto|].
  destruct (IH (draw (line (margin, margin + i * cell_sz, margin + (size - 1) * cell_sz,
                        margin + i * cell_sz) (255, 255, 255) 1)
              (draw (line (margin + i * cell_sz, margin, margin + i * cell_sz,
                           margin + (size - 1) * cell_sz) (255, 255, 255) 1) img)))
    as (-> & -> & ->). auto.
Qed.

Lemma draw_grid_calls img size cell_sz margin :
  im_calls (draw_grid img size cell_sz margin)
  = im_calls img ++ grid_lines size cell_sz margin
    ++ (star_call cell_sz margin <$> star_coords size).
Proof.
  unfold draw_grid. cbv zeta.
  rewrite (foldl_ext_draw _ (λ img x, draw (star_call cell_sz margin x) img))
    by (intros img' [c r]; reflexivity).
  rewrite foldl_draw, grid_loop_calls, <- app_assoc. reflexivity.
Qed.

Lemma draw_grid_frame img size cell_sz margin :
  im_mode (draw_grid img size cell_sz margin) = im_mode img ∧
  im_size (draw_grid img size cell_sz margin) = im_size img ∧
  im_color (draw_grid img size cell_sz margin) = im_color img.
Proof.
  unfold draw_grid. cbv zeta.
  rewrite (foldl_ext_draw _ (λ img x, draw (star_call cell_sz margin x) img))
    by (intros img' [c r]; reflexivity).
  destruct (foldl_draw_frame (star_call cell_sz margin) (star_coords size)
              (foldl (λ img i,
                 draw (line (margin, margin + i * cell_sz, margin + (size - 1) * cell_sz,
                             margin + i * cell_sz) (255, 255, 255) 1)
                   (draw (line (margin + i * cell_sz, margin, margin + i * cell_sz,
                                margin + (size - 1) * cell_sz) (255, 255, 255) 1) img))
                 img (range size))) as (-> & -> & ->).
  apply grid_loop_frame.
Qed.

Lemma draw_stones_calls img board size cell_sz margin :
  im_calls (draw_stones img board size cell_sz margin)
  = im_calls img
    ++ (stone_call cell_sz margin (0, 0, 0)
          <$> stones_of "b" (list_occupied_points board))
    ++ (stone_call cell_sz margin (255, 255, 255)
          <$> stones_of "w" (list_occupied_points board)).
Proof.
  unfold draw_stones. cbv zeta.
  rewrite (foldl_ext_draw _ (λ img x, draw (stone_call cell_sz margin (255, 255, 255) x) img))
    by (intros img' [c r]; reflexivity).
  rewrite foldl_draw.
  rewrite (foldl_ext_draw _ (λ img x, draw (stone_call cell_sz margin (0, 0, 0) x) img))
    by (intros img' [c r]; reflexivity).
  rewrite foldl_draw, <- app_assoc. reflexivity.
Qed.

Lemma draw_stones_frame img board size cell_sz margin :
  im_mode (draw_stones img board size cell_sz margin) = im_mode img ∧
  im_size (draw_stones img board size cell_sz margin) = im_size img ∧
  im_color (draw_stones img board size cell_sz margin) = im_color img.
Proof.
  unfold draw_stones. cbv zeta.
  rewrite (foldl_ext_draw _ (λ img x, draw (stone_call cell_sz margin (255, 255, 255) x) img))
    by (intros img' [c r]; reflexivity).
  destruct (foldl_draw_frame (stone_call cell_sz margin (255, 255, 255))
              (stones_of "w" (list_occupied_points board))
              (foldl (λ img '(col, row),
                 draw (ellipse (margin + col * cell_sz - (cell_sz / 2 - 2),
                                margin + row * cell_sz - (cell_sz / 2 - 2),
                                margin + col * cell_sz + (cell_sz / 2 - 2),
                                margin + row * cell_sz + (cell_sz / 2 - 2))
                         (0, 0, 0) (Some (0, 0, 0))) img) img
                 (stones_of "b" (list_occupied_points board)))) as (-> & -> & ->).
  rewrite (foldl_ext_draw _ (λ img x, draw (stone_call cell_sz margin (0, 0, 0) x) img))
    by (intros img' [c r]; reflexivity).
  apply foldl_draw_frame.
Qed.

End Calls.

Section Items.

Lemma dict_set_fresh {V : Type} (d : list (point * V)) k v :
  k ∉ d.*1 → dict_set d k v = d ++ [(k, v)].
Proof.
  induction d as [|[k' v'] d IH]; intros Hk; simpl; [reflexivity|].
  rewrite fmap_cons, not_elem_of_cons in Hk. destruct Hk as [Hne Hk]. simpl in Hne.
  rewrite decide_False by congruence. rewrite IH by exact Hk. reflexivity.
Qed.

(** The loop over the points with the ordered dictionary and the one with
    the map run alike. *)
Lemma for_each_items_refine (f : point → option entry) pts :
  NoDup pts →
  ∀ (d0 : list (point * entry)) (m0 : gmap point entry),
    (∀ pt, pt ∈ pts → pt ∉ d0.*1) → list_to_map d0 = m0 →
    match for_each pts (λ pt d, e ← f pt; Some (dict_set d pt e)) d0,
          for_each pts (store_point f) m0 with
    | Some d, Some m => d.*1 = d0.*1 ++ pts ∧ list_to_map d = m
    | None, None => True
    | _, _ => False
    end.
Proof.
  induction pts as [|x pts IH]; intros Hnd d0 m0 Hfresh Hmap; simpl.
  - rewrite app_nil_r. auto.
  - change (store_point f x m0) with (e ← f x; Some (<[x:=e]> m0)).
    apply NoDup_cons in Hnd as [Hx Hnd].
    destruct (f x) as [e|]; simpl; [|exact I].
    rewrite dict_set_fresh by (apply Hfresh, elem_of_cons; auto).
    specialize (IH Hnd (d0 ++ [(x, e)]) (<[x:=e]> m0)).
    rewrite fmap_app, <- app_assoc in IH. simpl in IH. apply IH.
    + intros pt Hpt. rewrite elem_of_app, list_elem_of_singleton.
      intros [Hin| ->]; [|contradiction].
      apply (Hfresh pt); [apply elem_of_cons; auto|exact Hin].
    + rewrite list_to_map_snoc by (apply Hfresh, elem_of_cons; auto).
      rewrite Hmap. reflexivity.
Qed.

Lemma compute_influence_items_grid board size :
  compute_influence_items board size =
  for_each (grid size)
    (λ pt d, e ← point_influence (stones_of "b" (list_occupied_points board))
                   (stones_of "w" (list_occupied_points board)) pt;
             Some (dict_set d pt e)) [].
Proof.
  unfold compute_influence_items, grid. rewrite <- for_each_bind.
  apply for_each_ext. intros row influence. rewrite for_each_fmap. reflexivity.
Qed.

Lemma compute_influence_items_refine board size :
  match compute_influence_items board size, compute_influence board size with
  | Some d, Some m => d.*1 = grid size ∧ list_to_map d = m
  | None, None => True
  | _, _ => False
  end.
Proof.
  rewrite compute_influence_items_grid, compute_influence_grid.
  apply (for_each_items_refine _ (grid size) (NoDup_grid size) [] ∅).
  - intros pt _. apply not_elem_of_nil.
  - reflexivity.
Qed.

(** The points of the grid in the order of the loops, by their index. *)
Lemma grid_rows n (m : nat) :
  0 < n →
  (row ← seqZ 0 (Z.of_nat m); (λ col, (col, row)) <$> seqZ 0 n)
  = (λ k, (k mod n, k / n)) <$> seqZ 0 (Z.of_nat m * n).
Proof.
  intros Hn. induction m as [|m IH]; [reflexivity|].
  rewrite seqZ_S, bind_app, IH.
  replace (Z.of_nat (S m) * n) with (Z.of_nat m * n + n) by lia.
  rewrite (seqZ_app 0 (Z.of_nat m * n) n) by nia. rewrite fmap_app. f_equal.
  simpl. rewrite app_nil_r.
  replace (0 + Z.of_nat m * n) with (Z.of_nat m * n + 0) by lia.
  rewrite <- fmap_add_seqZ, <- list_fmap_compose.
  apply list_fmap_ext. intros i col Hcol. simpl.
  apply lookup_seqZ in Hcol as [-> Hi]. f_equal.
  - rewrite (Z.add_comm (Z.of_nat m * n)), Z.mod_add by lia.
    symmetry. apply Z.mod_small. lia.
  - rewrite (Z.add_comm (Z.of_nat m * n)), Z.div_add by lia.
    rewrite Z.div_small by lia. lia.
Qed.

Lemma grid_by_index size :
  0 <= size → grid size = (λ k, (k mod size, k / size)) <$> seqZ 0 (size * size).
Proof.
  intros Hs. unfold grid, range. destruct (Z.eq_dec size 0) as [->|Hne]; [reflexivity|].
  pose proof (grid_rows size (Z.to_nat size) ltac:(lia)) as H.
  rewrite Z2Nat.id in H by lia. exact H.
Qed.

End Items.

Section Geometry.

Lemma half_bounds cell : 2 * (cell / 2) <= cell < 2 * (cell / 2) + 2.
Proof.
  pose proof (Z.div_mod cell 2 ltac:(lia)).
  pose proof (Z.mod_pos_bound cell 2 ltac:(lia)). lia.
Qed.

Lemma sixth_bounds cell : 6 * (cell / 6) <= cell < 6 * (cell / 6) + 6.
Proof.
  pose proof (Z.div_mod cell 6 ltac:(lia)).
  pose proof (Z.mod_pos_bound cell 6 ltac:(lia)). lia.
Qed.

Lemma cell_bounds size cell c :
  0 <= cell → 0 <= c < size → 0 <= c * cell ∧ c * cell <= (size - 1) * cell.
Proof. intros Hc Hr. split; nia. Qed.

(** Every offset within [size] cells falls in one of the cells. *)
Lemma cover_1d size cell u :
  1 <= size → 1 <= cell → 0 <= u <= size * cell →
  ∃ c, 0 <= c < size ∧ c * cell <= u <= c * cell + cell.
Proof.
  intros Hs Hc Hu.
  pose proof (Z.div_mod u cell ltac:(lia)) as Hdm.
  pose proof (Z.mod_pos_bound u cell ltac:(lia)) as Hmod.
  assert (0 <= u / cell) by (apply Z.div_pos; lia).
  destruct (Z_lt_ge_dec (u / cell) size) as [Hlt|Hge].
  - exists (u / cell). split; [lia|]. nia.
  - exists (size - 1). split; [lia|]. nia.
Qed.

Lemma star_coords_other size :
  size ≠ 9 → size ≠ 13 → size ≠ 19 → star_coords size = [].
Proof.
  intros H9 H13 H19. destruct size as [|p|p]; try reflexivity.
  do 5 (destruct p as [p|p|]; try reflexivity; try congruence).
Qed.

Lemma star_coords_grid size pt :
  pt ∈ star_coords size →
  (size = 9 ∨ size = 13 ∨ size = 19) ∧ 0 <= pt.1 < size ∧ 0 <= pt.2 < size.
Proof.
  intros H.
  destruct (decide (size = 9)) as [->|H9];
    [|destruct (decide (size = 13)) as [->|H13];
      [|destruct (decide (size = 19)) as [->|H19]]].
  4: { rewrite star_coords_other in H by assumption. by apply elem_of_nil in H. }
  all: split; [tauto|]; simpl in H;
    repeat (apply elem_of_cons in H as [->|H]; [simpl; lia|]);
    by apply elem_of_nil in H.
Qed.

End Geometry.

Section Frames.

Lemma render_frame_inv board size cell img :
  render_frame board size cell = Some img →
  ∃ items,
    compute_influence_items board size = Some items ∧
    im_mode img = "RGBA"%string ∧
    im_size img = (size * cell + 2 * cell, size * cell + 2 * cell) ∧
    im_color img = (0, 0, 0, 255) ∧
    im_calls img
    = (tile_call cell cell 255 <$> items) ++ grid_lines size cell cell
      ++ (star_call cell cell <$> star_coords size)
      ++ (stone_call cell cell (0, 0, 0)
            <$> stones_of "b" (list_occupied_points board))
      ++ (stone_call cell cell (255, 255, 255)
            <$> stones_of "w" (list_occupied_points board)).
Proof.
  unfold render_frame. cbv zeta.
  destruct (compute_influence_items board size) as [items|]; [|discriminate].
  simpl. intros [= <-]. exists items. split; [reflexivity|].
  match goal with
  | |- context [draw_stones ?i _ _ _ _] =>
      destruct (draw_stones_frame i board size cell cell) as (-> & -> & ->)
  end.
  match goal with
  | |- context [draw_grid ?i _ _ _] =>
      destruct (draw_grid_frame i size cell cell) as (-> & -> & ->)
  end.
  match goal with
  | |- context [overlay_influence ?i _ _ _ _ _] =>
      destruct (overlay_influence_frame i items size cell cell 255) as (-> & -> & ->)
  end.
  repeat (split; [reflexivity|]).
  rewrite draw_stones_calls, draw_grid_calls, overlay_influence_calls. simpl.
  rewrite <- !app_assoc. reflexivity.
Qed.


Lemma compute_influence_items_is_Some board size :
  is_Some (compute_influence_items board size)
  ↔ is_Some (compute_influence board size).
Proof.
  pose proof (compute_influence_items_refine board size) as Href.
  destruct (compute_influence_items board size) as [d|],
    (compute_influence board size) as [m|]; try contradiction.
  - split; eauto.
  - split; intros [? [=]].
Qed.


Lemma items_of_grid board size items pt :
  compute_influence_items board size = Some items → pt ∈ grid size →
  ∃ pa pb r g b,
    (pt, (pa, pb, (r, g, b))) ∈ items ∧
    stone_pct (stones_of "b" (list_occupied_points board)) pt = Some pa ∧
    stone_pct (stones_of "w" (list_occupied_points board)) pt = Some pb ∧
    colour_from_percentages pa pb = Some (r, g, b).
Proof.
  intros Hi Hpt. pose proof (compute_influence_items_refine board size) as Href.
  rewrite Hi in Href.
  destruct (compute_influence board size) as [m|] eqn:Hm; [|contradiction].
  destruct Href as [Hkeys Hmap].
  rewrite <- Hkeys in Hpt. apply list_elem_of_fmap in Hpt as ([pt' e] & -> & Hin).
  simpl. destruct e as [[pa pb] [[r g] b]]. exists pa, pb, r, g, b.
  split; [exact Hin|].
  assert (Hl : m !! pt' = Some (pa, pb, (r, g, b))).
  { rewrite <- Hmap. apply elem_of_list_to_map_1; [|exact Hin].
    pose proof (NoDup_grid size) as Hnd. rewrite <- Hkeys in Hnd. exact Hnd. }
  destruct (compute_influence_entry_inv _ _ _ _ _ _ _ Hm Hl) as (_ & Ha & Hb & Hc).
  auto.
Qed.

Lemma items_in_grid board size items pt e :
  compute_influence_items board size = Some items → (pt, e) ∈ items →
  pt ∈ grid size.
Proof.
  intros Hi Hin. pose proof (compute_influence_items_refine board size) as Href.
  rewrite Hi in Href.
  destruct (compute_influence board size) as [m|]; [|contradiction].
  destruct Href as [<- _]. apply list_elem_of_fmap. exists (pt, e). auto.
Qed.

Lemma elem_of_grid_lines size cell_sz margin call :
  call ∈ grid_lines size cell_sz margin ↔
  ∃ i, 0 <= i < size ∧
       (call = line (margin + i * cell_sz, margin, margin + i * cell_sz,
                     margin + (size - 1) * cell_sz) (255, 255, 255) 1 ∨
        call = line (margin, margin + i * cell_sz, margin + (size - 1) * cell_sz,
                     margin + i * cell_sz) (255, 255, 255) 1).
Proof.
  unfold grid_lines, range. rewrite list_elem_of_bind. split.
  - intros (i & Hin & Hi). apply elem_of_seqZ in Hi. exists i. split; [lia|].
    apply elem_of_cons in Hin as [->|Hin]; [auto|].
    apply elem_of_cons in Hin as [->|Hin]; [auto|]. by apply elem_of_nil in Hin.
  - intros (i & Hi & Hcall). exists i. split; [|apply elem_of_seqZ; lia].
    destruct Hcall as [-> | ->]; [apply list_elem_of_here|].
    apply list_elem_of_further, list_elem_of_here.
Qed.


End Frames.

(** The dictionary is filled row by row.  Kept in insertion order, the
    dictionary of [compute_influence] is returned exactly when the map is,
    holds the same entries, and lists each point of the grid once, in the
    order (0,0), (1,0), ..., (size-1,0), (0,1), ...: the item of index [k]
    is the point (k mod size, k div size).  This is the order in which
    [overlay_influence] paints. *)
Theorem influence_items_row_major board size :
  (is_Some (compute_influence_items board size)
   ↔ is_Some (compute_influence board size)) ∧
  (∀ items,
     compute_influence_items board size = Some items →
     compute_influence board size = Some (list_to_map items) ∧
     NoDup items.*1 ∧
     (0 <= size →
      items.*1 = (λ k, (k mod size, k / size)) <$> seqZ 0 (size * size)) ∧
     (size <= 0 → items = [])).
Proof.
  pose proof (compute_influence_items_refine board size) as Href. split.
  - apply compute_influence_items_is_Some.
  - intros items Hi. rewrite Hi in Href.
    destruct (compute_influence board size) as [m|]; [|contradiction].
    destruct Href as [Hkeys Hmap]. split; [rewrite Hmap; reflexivity|]. split.
    { pose proof (NoDup_grid size) as Hnd. rewrite <- Hkeys in Hnd. exact Hnd. }
    split.
    + intros Hs. rewrite <- grid_by_index by exact Hs. exact Hkeys.
    + intros Hs. apply (fmap_nil_inv fst).
      assert (E : grid size = []) by (unfold grid, range; rewrite seqZ_nil by lia; reflexivity).
      rewrite <- E. exact Hkeys.
Qed.

(** The overlay leaves no gap.  With a cell size of at least 1, every
    pixel of the square that reaches half a cell beyond the outer grid
    lines is within the rectangle painted for some point of the grid, in
    the colour of the entry of that point and with the given alpha. *)
Theorem overlay_covers_board board size items img cell_sz margin alpha x y :
  1 <= size → 1 <= cell_sz →
  compute_influence_items board size = Some items →
  margin - cell_sz / 2 <= x <= margin + (size - 1) * cell_sz - cell_sz / 2 + cell_sz →
  margin - cell_sz / 2 <= y <= margin + (size - 1) * cell_sz - cell_sz / 2 + cell_sz →
  ∃ col row pa pb r g b x0 y0,
    0 <= col < size ∧ 0 <= row < size ∧
    ((col, row), (pa, pb, (r, g, b))) ∈ items ∧
    x0 = margin + col * cell_sz - cell_sz / 2 ∧
    y0 = margin + row * cell_sz - cell_sz / 2 ∧
    rectangle (x0, y0, x0 + cell_sz, y0 + cell_sz) (r, g, b, alpha)
      ∈ im_calls (overlay_influence img items size cell_sz margin alpha) ∧
    inside x y (x0, y0, x0 + cell_sz, y0 + cell_sz).
Proof.
  intros Hs Hc Hi Hx Hy.
  destruct (cover_1d size cell_sz (x - margin + cell_sz / 2) Hs Hc) as (col & Hcol & Hcx);
    [nia|].
  destruct (cover_1d size cell_sz (y - margin + cell_sz / 2) Hs Hc) as (row & Hrow & Hry);
    [nia|].
  destruct (items_of_grid board size items (col, row) Hi) as (pa & pb & r & g & b & Hin & _).
  { apply elem_of_grid. auto. }
  exists col, row, pa, pb, r, g, b. eexists _, _.
  split; [exact Hcol|]. split; [exact Hrow|]. split; [exact Hin|].
  split; [reflexivity|]. split; [reflexivity|]. split.
  - rewrite overlay_influence_calls. apply elem_of_app. right.
    apply list_elem_of_fmap. exists ((col, row), (pa, pb, (r, g, b))).
    split; [reflexivity|exact Hin].
  - unfold inside. lia.
Qed.

(** A frame stays within its image.  For a board of side at least 1 with
    its stones on the grid and a cell size of at least 4, the image of a
    frame is a square of (size + 2) * CELL pixels, and the box of every
    drawing call made on it is well formed (x0 <= x1, y0 <= y1) and within
    the image. *)
Theorem frame_within_image board size cell img :
  1 <= size → 4 <= cell → on_board size board →
  render_frame board size cell = Some img →
  im_size img = ((size + 2) * cell, (size + 2) * cell) ∧
  Forall (λ call, box_in_image (im_size img) (call_box call)) (im_calls img).
Proof.
  intros Hs Hc Hon Hf.
  destruct (render_frame_inv _ _ _ _ Hf) as (items & Hi & _ & Hsize & _ & Hcalls).
  assert (Hsz : im_size img = ((size + 2) * cell, (size + 2) * cell))
    by (rewrite Hsize; f_equal; lia).
  split; [exact Hsz|]. rewrite Hsz, Hcalls.
  pose proof (half_bounds cell) as Hh. pose proof (sixth_bounds cell) as H6.
  assert (Hpt : ∀ c r, 0 <= c < size → 0 <= r < size →
            0 <= c * cell ∧ c * cell <= (size - 1) * cell ∧
            0 <= r * cell ∧ r * cell <= (size - 1) * cell).
  { intros c r Hc' Hr'.
    destruct (cell_bounds size cell c ltac:(lia) Hc').
    destruct (cell_bounds size cell r ltac:(lia) Hr'). auto. }
  assert (Hstone : ∀ col fill s,
            s ∈ stones_of col (list_occupied_points board) →
            box_in_image ((size + 2) * cell, (size + 2) * cell)
              (call_box (stone_call cell cell fill s))).
  { intros col fill [c r] Hin. apply elem_of_stones_of, Hon in Hin as [Hc' Hr'].
    simpl in Hc', Hr'. destruct (Hpt c r Hc' Hr') as (? & ? & ? & ?).
    unfold box_in_image. simpl. lia. }
  repeat rewrite Forall_app. repeat split; apply Forall_forall.
  - intros call Hin. apply list_elem_of_fmap in Hin as ([[c r] e] & -> & Hin).
    apply (items_in_grid _ _ _ _ _ Hi), elem_of_grid in Hin as [Hc' Hr'].
    destruct (Hpt c r Hc' Hr') as (? & ? & ? & ?).
    destruct e as [[pa pb] [[r0 g0] b0]]. unfold box_in_image. simpl. lia.
  - intros call Hin. apply elem_of_grid_lines in Hin as (i & Hi' & Hcall).
    destruct (Hpt i i Hi' Hi') as (? & ? & _).
    destruct (Hpt 0 (size - 1) ltac:(lia) ltac:(lia)) as (_ & _ & ? & _).
    unfold box_in_image. destruct Hcall as [-> | ->]; simpl; lia.
  - intros call Hin. apply list_elem_of_fmap in Hin as ([c r] & -> & Hin).
    apply star_coords_grid in Hin as (_ & Hc' & Hr'). simpl in Hc', Hr'.
    destruct (Hpt c r Hc' Hr') as (? & ? & ? & ?).
    unfold box_in_image. simpl. lia.
  - intros call Hin. apply list_elem_of_fmap in Hin as (s & -> & Hin).
    exact (Hstone _ _ _ Hin).
  - intros call Hin. apply list_elem_of_fmap in Hin as (s & -> & Hin).
    exact (Hstone _ _ _ Hin).
Qed.


(** The bounding box of a stone is well formed exactly from the cell size
    4 on: the radius is cell_sz // 2 - 2, so with a smaller cell every box
    that [draw_stones] passes to [ellipse] has x1 < x0 and y1 < y0. *)
Theorem stone_boxes_need_cell_4 board size cell_sz margin xy fill outline :
  ellipse xy fill outline
    ∈ im_calls (draw_stones (draw_board size cell_sz margin) board size
                  cell_sz margin) →
  let '(x0, y0, x1, y1) := xy in
  (x0 <= x1 ∧ y0 <= y1 ↔ 4 <= cell_sz) ∧ (x1 < x0 ∧ y1 < y0 ↔ cell_sz < 4).
Proof.
  rewrite draw_stones_calls. simpl. pose proof (half_bounds cell_sz) as Hh.
  rewrite elem_of_app, !list_elem_of_fmap.
  intros [([c r] & E & _)|([c r] & E & _)]; inversion E; subst; simpl; lia.
Qed.

(** Stones never overlap: with a cell size that is not negative, the boxes
    of any two calls of [draw_stones] are equal (the same point) or have no
    pixel in common. *)
Theorem stones_do_not_overlap board size cell_sz margin call1 call2 :
  0 <= cell_sz →
  call1 ∈ im_calls (draw_stones (draw_board size cell_sz margin) board size
                      cell_sz margin) →
  call2 ∈ im_calls (draw_stones (draw_board size cell_sz margin) board size
                      cell_sz margin) →
  call_box call1 = call_box call2 ∨
  disjoint_boxes (call_box call1) (call_box call2).
Proof.
  intros Hc. rewrite draw_stones_calls. simpl.
  assert (Hbox : ∀ call,
            call ∈ (stone_call cell_sz margin (0, 0, 0)
                      <$> stones_of "b" (list_occupied_points board))
                   ++ (stone_call cell_sz margin (255, 255, 255)
                         <$> stones_of "w" (list_occupied_points board)) →
            ∃ s, call_box call = stone_box cell_sz margin s).
  { intros call. rewrite elem_of_app, !list_elem_of_fmap.
    intros [(s & -> & _)|(s & -> & _)]; exists s; reflexivity. }
  intros [[c1 r1] ->]%Hbox [[c2 r2] ->]%Hbox.
  pose proof (half_bounds cell_sz) as Hh.
  destruct (decide (c1 = c2)) as [->|Hne1];
    [destruct (decide (r1 = r2)) as [->|Hne2]; [left; reflexivity|]|];
    right; unfold disjoint_boxes, stone_box; simpl.
  - assert (r1 < r2 ∨ r2 < r1) as [Hlt|Hlt] by lia.
    + right; right; left. nia.
    + right; right; right. nia.
  - assert (c1 < c2 ∨ c2 < c1) as [Hlt|Hlt] by lia.
    + left. nia.
    + right; left. nia.
Qed.

(** The star points.  The table has star points for the sides 9, 13 and
    19 only, and each of them is a point of the board.  For the sides 13
    and 19 the table is symmetric: with a point it has the transposed and
    the mirrored point.  For the side 9 it is not: it has the corner (8, 8)
    of the board and the edge point (4, 8), but not the mirror images
    (0, 8) and (4, 0) of these two. *)
Theorem star_points_of_the_table :
  (∀ size c r,
     (c, r) ∈ star_coords size →
     (size = 9 ∨ size = 13 ∨ size = 19) ∧ 0 <= c < size ∧ 0 <= r < size) ∧
  (∀ size c r,
     size ≠ 9 → (c, r) ∈ star_coords size →
     (r, c) ∈ star_coords size ∧ (size - 1 - c, r) ∈ star_coords size ∧
     (c, size - 1 - r) ∈ star_coords size) ∧
  (8, 8) ∈ star_coords 9 ∧ (4, 8) ∈ star_coords 9 ∧
  ((0, 8) ∉ star_coords 9) ∧ ((4, 0) ∉ star_coords 9).
Proof.
  split; [|split; [|split; [|split; [|split]]]].
  3: { simpl. do 3 apply list_elem_of_further. apply list_elem_of_here. }
  3: { simpl. apply list_elem_of_further, list_elem_of_here. }
  - intros size c r H. exact (star_coords_grid size (c, r) H).
  - intros size c r H9 H.
    destruct (star_coords_grid size (c, r) H) as ([->| [-> | ->]] & _); [done| |];
      simpl in H;
      repeat (apply elem_of_cons in H as [[= -> ->]|H];
              [repeat split; simpl;
               repeat first [apply list_elem_of_here|apply list_elem_of_further]|]);
      by apply elem_of_nil in H.
  - simpl. rewrite !elem_of_cons, elem_of_nil. intros H.
    repeat destruct H as [H|H]; try discriminate; exact H.
  - simpl. rewrite !elem_of_cons, elem_of_nil. intros H.
    repeat destruct H as [H|H]; try discriminate; exact H.
Qed.

(** A stone sits on its intersection.  In a frame, for a black or white
    stone of a board whose stones are on the grid: the vertical and the
    horizontal grid line through the pixel of its point are drawn; its disc
    is centred on that pixel, with the radius CELL // 2 - 2; the square
    painted under it is opaque and has the full channel of its colour
    (green 255 for a black stone, red 255 for a white one); and the box of
    the disc is strictly inside that square. *)
Theorem stone_sits_on_its_intersection board size cell img c col row :
  on_board size board →
  render_frame board size cell = Some img →
  c = "b"%string ∨ c = "w"%string →
  (c, (col, row)) ∈ list_occupied_points board →
  let cx := cell + col * cell in
  let cy := cell + row * cell in
  let rad := cell / 2 - 2 in
  let x0 := cx - cell / 2 in
  let y0 := cy - cell / 2 in
  line (cx, cell, cx, cell + (size - 1) * cell) (255, 255, 255) 1 ∈ im_calls img ∧
  line (cell, cy, cell + (size - 1) * cell, cy) (255, 255, 255) 1 ∈ im_calls img ∧
  ellipse (cx - rad, cy - rad, cx + rad, cy + rad)
    (if String.eqb c "b" then (0, 0, 0) else (255, 255, 255)) (Some (0, 0, 0))
    ∈ im_calls img ∧
  (∃ r g b,
     rectangle (x0, y0, x0 + cell, y0 + cell) (r, g, b, 255) ∈ im_calls img ∧
     (c = "b"%string → g = 255) ∧ (c = "w"%string → r = 255)) ∧
  x0 < cx - rad ∧ cx + rad < x0 + cell ∧ y0 < cy - rad ∧ cy + rad < y0 + cell.
Proof.
  intros Hon Hf Hc Hin cx cy rad x0 y0.
  destruct (render_frame_inv _ _ _ _ Hf) as (items & Hi & _ & _ & _ & Hcalls).
  destruct (Hon _ _ Hin) as [Hcol Hrow]. simpl in Hcol, Hrow.
  rewrite Hcalls. split; [|split; [|split; [|split]]].
  - apply elem_of_app. right. apply elem_of_app. left.
    apply elem_of_grid_lines. exists col. split; [exact Hcol|]. left. reflexivity.
  - apply elem_of_app. right. apply elem_of_app. left.
    apply elem_of_grid_lines. exists row. split; [exact Hrow|]. right. reflexivity.
  - do 3 (apply elem_of_app; right).
    destruct Hc as [-> | ->]; simpl; apply elem_of_app; [left|right];
      apply list_elem_of_fmap; exists (col, row);
      (split; [reflexivity|apply elem_of_stones_of; exact Hin]).
  - destruct (items_of_grid board size items (col, row) Hi)
      as (pa & pb & r & g & b & Hitem & Ha & Hb & Hcfp).
    { apply elem_of_grid. auto. }
    exists r, g, b. split.
    + apply elem_of_app. left. apply list_elem_of_fmap.
      exists ((col, row), (pa, pb, (r, g, b))). split; [reflexivity|exact Hitem].
    + destruct (colour_from_percentages_inv _ _ _ _ _ Hcfp)
        as (zr & zg & Hzr & Hzg & -> & -> & _).
      split; intros ->.
      * rewrite (stone_pct_on_stone _ _ _ _ Ha Hin) in Hzg.
        vm_compute in Hzg. injection Hzg as <-. reflexivity.
      * rewrite (stone_pct_on_stone _ _ _ _ Hb Hin) in Hzr.
        vm_compute in Hzr. injection Hzr as <-. reflexivity.
  - pose proof (half_bounds cell). unfold x0, y0, rad. lia.
Qed.

(** * The names of the frames *)

Section FrameNames.

Lemma append_cons a s t : String a s +:+ t = String a (s +:+ t).
Proof. reflexivity. Qed.

Lemma append_empty s : EmptyString +:+ s = s.
Proof. reflexivity. Qed.

Lemma uint_of_string_zeros k s :
  NilEmpty.uint_of_string (zeros k +:+ s)
  = Nat.iter k Decimal.D0 <$> NilEmpty.uint_of_string s.
Proof.
  induction k as [|k IH].
  - change (zeros 0) with EmptyString. rewrite append_empty.
    destruct (NilEmpty.uint_of_string s); reflexivity.
  - change (zeros (S k)) with (String "0"%char (zeros k)). rewrite append_cons.
    change (NilEmpty.uint_of_string (String "0"%char (zeros k +:+ s)))
      with (uint_of_char "0"%char (NilEmpty.uint_of_string (zeros k +:+ s))).
    rewrite IH. destruct (NilEmpty.uint_of_string s); reflexivity.
Qed.

Lemma of_uint_zeros k d : N.of_uint (Nat.iter k Decimal.D0 d) = N.of_uint d.
Proof. induction k as [|k IH]; [reflexivity|exact IH]. Qed.

Lemma str_nonneg_parse n :
  0 <= n →
  ∃ d, NilEmpty.uint_of_string (str_nonneg n) = Some d ∧ Z.of_N (N.of_uint d) = n ∧
       str_nonneg n ≠ EmptyString.
Proof.
  intros Hn. unfold str_nonneg.
  pose proof (DecimalN.Unsigned.of_to (Z.to_N n)) as Hof.
  destruct (N.to_uint (Z.to_N n)) as [|d|d|d|d|d|d|d|d|d|d] eqn:E.
  1: { exists (Decimal.D0 Decimal.Nil). simpl in *. split; [reflexivity|].
       split; [lia|discriminate]. }
  all: eexists; split; [apply NilEmpty.usu|]; split; [rewrite Hof; lia|discriminate].
Qed.

Lemma zeros_body_parse k n :
  0 <= n →
  ∃ d, NilEmpty.uint_of_string (zeros k +:+ str_nonneg n) = Some d ∧
       Z.of_N (N.of_uint d) = n.
Proof.
  intros Hn. destruct (str_nonneg_parse n Hn) as (d & Hd & Hv & _).
  exists (Nat.iter k Decimal.D0 d). rewrite uint_of_string_zeros, Hd.
  split; [reflexivity|]. rewrite of_uint_zeros. exact Hv.
Qed.

Lemma zeros_body_nonempty k n : 0 <= n → zeros k +:+ str_nonneg n ≠ EmptyString.
Proof.
  intros Hn. destruct (str_nonneg_parse n Hn) as (_ & _ & _ & Hne).
  destruct k as [|k].
  - change (zeros 0) with EmptyString. rewrite append_empty. exact Hne.
  - change (zeros (S k)) with (String "0"%char (zeros k)). rewrite append_cons.
    discriminate.
Qed.

Lemma int_of_digits_zeros_body k n :
  0 <= n → int_of_digits (zeros k +:+ str_nonneg n) = Some n.
Proof.
  intros Hn. unfold int_of_digits, NilZero.uint_of_string.
  pose proof (zeros_body_nonempty k n Hn) as Hne.
  destruct (zeros_body_parse k n Hn) as (d & Hd & Hv).
  destruct (zeros k +:+ str_nonneg n) as [|a s]; [contradiction|].
  rewrite Hd. simpl. rewrite Hv. reflexivity.
Qed.

Lemma format_04d_nonneg n :
  0 <= n → format_04d n = zeros (4 - String.length (str_nonneg n)) +:+ str_nonneg n.
Proof.
  intros Hn. unfold format_04d. rewrite Z.abs_eq by lia.
  destruct (Z.ltb_spec n 0); [lia|reflexivity].
Qed.

Lemma format_04d_neg n :
  n < 0 →
  format_04d n
  = String "-"%char (zeros (3 - String.length (str_nonneg (- n))) +:+ str_nonneg (- n)).
Proof.
  intros Hn. unfold format_04d. rewrite Z.abs_neq by lia.
  destruct (Z.ltb_spec n 0); [reflexivity|lia].
Qed.

Lemma int_of_digits_minus s : int_of_digits (String "-"%char s) = None.
Proof.
  unfold int_of_digits, NilZero.uint_of_string. simpl.
  destruct (NilEmpty.uint_of_string s); reflexivity.
Qed.

Lemma format_04d_inj i j : format_04d i = format_04d j → i = j.
Proof.
  intros E. destruct (Z_lt_ge_dec i 0) as [Hi|Hi], (Z_lt_ge_dec j 0) as [Hj|Hj].
  - rewrite (format_04d_neg i Hi), (format_04d_neg j Hj) in E. injection E as E.
    apply (f_equal int_of_digits) in E.
    rewrite !int_of_digits_zeros_body in E by lia. injection E as E. lia.
  - rewrite (format_04d_neg i Hi), (format_04d_nonneg j ltac:(lia)) in E.
    apply (f_equal int_of_digits) in E.
    rewrite int_of_digits_minus, int_of_digits_zeros_body in E by lia. discriminate.
  - rewrite (format_04d_nonneg i ltac:(lia)), (format_04d_neg j Hj) in E.
    apply (f_equal int_of_digits) in E.
    rewrite int_of_digits_minus, int_of_digits_zeros_body in E by lia. discriminate.
  - rewrite (format_04d_nonneg i ltac:(lia)), (format_04d_nonneg j ltac:(lia)) in E.
    apply (f_equal int_of_digits) in E.
    rewrite !int_of_digits_zeros_body in E by lia. injection E as E. exact E.
Qed.

Lemma append_length s t : String.length (s +:+ t) = (String.length s + String.length t)%nat.
Proof.
  induction s as [|a s IH]; [reflexivity|].
  rewrite append_cons. simpl. rewrite IH. reflexivity.
Qed.

Lemma append_inj_suffix s t u : s +:+ u = t +:+ u → s = t.
Proof.
  revert t. induction s as [|a s IH]; intros [|b t] E.
  - reflexivity.
  - apply (f_equal String.length) in E. rewrite !append_length in E. simpl in E. lia.
  - apply (f_equal String.length) in E. rewrite !append_length in E. simpl in E. lia.
  - rewrite !append_cons in E. injection E as -> E. f_equal. apply IH, E.
Qed.

Lemma format_04d_width_upto n :
  forallb (λ i, Nat.eqb (String.length (format_04d i)) 4) (seqZ 0 n) = true →
  ∀ i, 0 <= i < n → String.length (format_04d i) = 4%nat.
Proof.
  intros H i Hi. rewrite forallb_forall in H.
  apply Nat.eqb_eq, H. apply list_elem_of_In, elem_of_seqZ. lia.
Qed.

End FrameNames.

(** The name of a frame determines its index.  The digits of the name of
    a frame whose index is not negative read back as the index, whatever
    its size (the padding never truncates), and two different indices, of
    any sign, have different names: no frame overwrites another.  Up to the
    index 9999 every name has the same length, 4 digits and the
    extension. *)
Theorem frame_names_are_distinct :
  (∀ idx, 0 <= idx → int_of_digits (format_04d idx) = Some idx) ∧
  (∀ i j, frame_name i = frame_name j → i = j) ∧
  (∀ idx, 0 <= idx <= 9999 → String.length (frame_name idx) = 8%nat).
Proof.
  split; [|split].
  - intros idx Hidx. rewrite (format_04d_nonneg idx Hidx).
    apply int_of_digits_zeros_body, Hidx.
  - intros i j E. apply format_04d_inj, (append_inj_suffix _ _ ".png"), E.
  - intros idx Hidx. unfold frame_name. rewrite append_length.
    rewrite (format_04d_width_upto 10000); [reflexivity| |lia].
    vm_compute. reflexivity.
Qed.

(** ** Instances of the further properties *)

Lemma clamp_inactive_on_percentages_witness :
  percentage f_33 ∧ percentage f_50 ∧
  colour_from_percentages f_33 f_50 = Some (127, 85, 0) ∧
  F64.round (F64.mul f_50 F64.lit_2_55) = Some 127 ∧
  F64.round (F64.mul f_33 F64.lit_2_55) = Some 85 ∧
  0 <= 127 <= 255 ∧ 0 <= 85 <= 255 ∧ 0 = 0.
Proof.
  assert (H33 : percentage f_33)
    by (split; [reflexivity|split; [reflexivity|split; vm_compute; discriminate]]).
  assert (H50 : percentage f_50)
    by (split; [reflexivity|split; [reflexivity|split; vm_compute; discriminate]]).
  split; [exact H33|]. split; [exact H50|]. split; [reflexivity|].
  exact (clamp_inactive_on_percentages f_33 f_50 127 85 0 H33 H50 eq_refl).
Defined.

Lemma compute_influence_stone_sets_witness :
  compute_influence two_stone_board 2
  = compute_influence
      {| list_occupied_points :=
           [("w"%string, (1, 1)); ("b"%string, (0, 0)); ("w"%string, (1, 1))] |} 2.
Proof.
  apply compute_influence_stone_sets; intros s; simpl;
    rewrite !elem_of_cons, !elem_of_nil; tauto.
Defined.

Lemma channels_fade_with_distance_witness :
  compute_influence corner_board 2 = Some corner_map_2 ∧
  corner_map_2 !! (1, 1) = Some (f_33, F64.lit_0_0, (0, 85, 0)) ∧
  corner_map_2 !! (1, 0) = Some (f_50, F64.lit_0_0, (0, 127, 0)) ∧
  nearest_dist (list_occupied_points corner_board) "b" (1, 1) 2 ∧
  nearest_dist (list_occupied_points corner_board) "b" (1, 0) 1 ∧
  1 <= 2 ∧ 85 <= 127.
Proof.
  split; [exact compute_corner_2|]. split; [reflexivity|]. split; [reflexivity|].
  split; [exact (nearest_dist_corner (1, 1))|].
  split; [exact (nearest_dist_corner (1, 0))|]. split; [lia|].
  apply (proj1 (channels_fade_with_distance corner_board 2 corner_map_2 (1, 1) (1, 0)
                  f_33 F64.lit_0_0 0 85 0 f_50 F64.lit_0_0 0 127 0
                  compute_corner_2 eq_refl eq_refl) 2 1);
    [exact (nearest_dist_corner (1, 1))|exact (nearest_dist_corner (1, 0))|lia].
Defined.

Lemma full_channel_marks_stone_witness :
  compute_influence corner_board 2 = Some corner_map_2 ∧
  corner_map_2 !! (1, 0) = Some (f_50, F64.lit_0_0, (0, 127, 0)) ∧
  (127 = 255 ↔ ("b"%string, (1, 0)) ∈ list_occupied_points corner_board) ∧
  (("b"%string, (1, 0)) ∉ list_occupied_points corner_board → 0 <= 127 <= 127) ∧
  ((∀ s, ("b"%string, s) ∉ list_occupied_points corner_board) → 127 = 0) ∧
  (0 = 255 ↔ ("w"%string, (1, 0)) ∈ list_occupied_points corner_board) ∧
  (("w"%string, (1, 0)) ∉ list_occupied_points corner_board → 0 <= 0 <= 127) ∧
  ((∀ s, ("w"%string, s) ∉ list_occupied_points corner_board) → 0 = 0).
Proof.
  split; [exact compute_corner_2|]. split; [reflexivity|].
  exact (full_channel_marks_stone corner_board 2 corner_map_2 (1, 0)
           f_50 F64.lit_0_0 0 127 0 compute_corner_2 eq_refl).
Defined.

Lemma compute_influence_size_independent_witness :
  ∃ m m',
    compute_influence corner_board 2 = Some m ∧
    compute_influence corner_board 3 = Some m' ∧
    m !! (1, 1) = m' !! (1, 1) ∧ is_Some (m !! (1, 1)).
Proof.
  eexists _, _. split; [vm_compute; reflexivity|]. split; [vm_compute; reflexivity|].
  apply (compute_influence_size_independent corner_board 2 3);
    [vm_compute; reflexivity|vm_compute; reflexivity|lia|lia|lia].
Defined.

Lemma nearest_dist_two_stones :
  nearest_dist (list_occupied_points two_stone_board) "b" (1, 0) 1 ∧
  nearest_dist (list_occupied_points two_stone_board) "w" (1, 0) 1.
Proof.
  split; split.
  - exists (0, 0). split; [apply list_elem_of_here|reflexivity].
  - intros s [E|[E|Hs]%elem_of_cons]%elem_of_cons;
      [inversion E; subst; vm_compute; discriminate|discriminate
      |by apply elem_of_nil in Hs].
  - exists (1, 1). split; [apply list_elem_of_further, list_elem_of_here|reflexivity].
  - intros s [E|[E|Hs]%elem_of_cons]%elem_of_cons;
      [discriminate|inversion E; subst; vm_compute; discriminate
      |by apply elem_of_nil in Hs].
Qed.

Lemma colour_tells_the_nearer_witness :
  ∃ m pa pb r g b,
    compute_influence two_stone_board 2 = Some m ∧
    m !! (1, 0) = Some (pa, pb, (r, g, b)) ∧
    nearest_dist (list_occupied_points two_stone_board) "b" (1, 0) 1 ∧
    nearest_dist (list_occupied_points two_stone_board) "w" (1, 0) 1 ∧
    (1 <= 1 → r <= g) ∧ (1 <= 1 → g <= r) ∧
    (1 = 1 → pa = pb ∧ r = g) ∧
    (r < g → 1 < 1) ∧ (g < r → 1 < 1).
Proof.
  eexists _, _, _, _, _, _. split; [vm_compute; reflexivity|].
  split; [vm_compute; reflexivity|].
  split; [exact (proj1 nearest_dist_two_stones)|].
  split; [exact (proj2 nearest_dist_two_stones)|].
  eapply (colour_tells_the_nearer two_stone_board 2 _ (1, 0));
    [vm_compute; reflexivity|vm_compute; reflexivity
    |exact (proj1 nearest_dist_two_stones)|exact (proj2 nearest_dist_two_stones)].
Defined.

Lemma compute_corner_items_2 :
  compute_influence_items corner_board 2 = Some corner_items_2.
Proof. vm_compute. reflexivity. Qed.

Lemma overlay_covers_board_witness :
  ∃ col row pa pb r g b x0 y0,
    0 <= col < 2 ∧ 0 <= row < 2 ∧
    ((col, row), (pa, pb, (r, g, b))) ∈ corner_items_2 ∧
    x0 = 30 + col * 30 - 30 / 2 ∧
    y0 = 30 + row * 30 - 30 / 2 ∧
    rectangle (x0, y0, x0 + 30, y0 + 30) (r, g, b, 255)
      ∈ im_calls (overlay_influence (draw_board 2 30 30) corner_items_2 2 30 30 255) ∧
    inside 50 20 (x0, y0, x0 + 30, y0 + 30).
Proof.
  apply (overlay_covers_board corner_board 2 corner_items_2 (draw_board 2 30 30)
           30 30 255 50 20);
    [lia|lia|exact compute_corner_items_2|vm_compute; split; discriminate
    |vm_compute; split; discriminate].
Defined.

Lemma frame_within_image_witness :
  ∃ img,
    render_frame corner_board 2 30 = Some img ∧
    im_size img = ((2 + 2) * 30, (2 + 2) * 30) ∧
    Forall (λ call, box_in_image (im_size img) (call_box call)) (im_calls img).
Proof.
  eexists. split; [vm_compute; reflexivity|].
  apply (frame_within_image corner_board 2 30);
    [lia|lia|apply on_board_corner; lia|vm_compute; reflexivity].
Defined.

Lemma stone_boxes_need_cell_4_witness :
  (17 <= 43 ∧ 17 <= 43 ↔ 4 <= 30) ∧ (43 < 17 ∧ 43 < 17 ↔ 30 < 4).
Proof.
  apply (stone_boxes_need_cell_4 corner_board 2 30 30 (17, 17, 43, 43)
           (0, 0, 0) (Some (0, 0, 0))).
  vm_compute. apply list_elem_of_here.
Defined.

Lemma stones_do_not_overlap_witness :
  call_box (ellipse (17, 17, 43, 43) (0, 0, 0) (Some (0, 0, 0)))
  = call_box (ellipse (47, 47, 73, 73) (255, 255, 255) (Some (0, 0, 0))) ∨
  disjoint_boxes (call_box (ellipse (17, 17, 43, 43) (0, 0, 0) (Some (0, 0, 0))))
    (call_box (ellipse (47, 47, 73, 73) (255, 255, 255) (Some (0, 0, 0)))).
Proof.
  apply (stones_do_not_overlap two_stone_board 2 30 30); [lia| |].
  - vm_compute. apply list_elem_of_here.
  - vm_compute. apply list_elem_of_further, list_elem_of_here.
Defined.

Lemma stone_sits_on_its_intersection_witness :
  ∃ img,
    render_frame corner_board 2 30 = Some img ∧
    line (30, 30, 30, 60) (255, 255, 255) 1 ∈ im_calls img ∧
    line (30, 30, 60, 30) (255, 255, 255) 1 ∈ im_calls img ∧
    ellipse (17, 17, 43, 43) (0, 0, 0) (Some (0, 0, 0)) ∈ im_calls img ∧
    (∃ r g b,
       rectangle (15, 15, 45, 45) (r, g, b, 255) ∈ im_calls img ∧
       ("b"%string = "b"%string → g = 255) ∧ ("b"%string = "w"%string → r = 255)) ∧
    15 < 17 ∧ 43 < 45 ∧ 15 < 17 ∧ 43 < 45.
Proof.
  eexists. split; [vm_compute; reflexivity|].
  apply (stone_sits_on_its_intersection corner_board 2 30 _ "b" 0 0);
    [apply on_board_corner; lia|vm_compute; reflexivity|left; reflexivity
    |apply list_elem_of_here].
Defined.
